(** * Entity.c: per-frame simulation and presentation of one game actor

    A shallow embedding of [src/Entity.c] (boondock-sam).  C [double]s are
    IEEE 754 binary64 values, embedded as Rocq's primitive [float]s, so the
    arithmetic below rounds, overflows and produces NaN as the compiled
    program does when every operation is rounded to [double] (no extended
    precision, no fused multiply-add).  Fixed-width integers are [Z] with the
    wrap-around written out where the C code can wrap.  The header files ([Entity.h],
    [AABB.h], [Macros.h]) are not part of the sources at hand: the record
    types are reconstructed from the field accesses of [Entity.c], and the
    flag bit positions are parameters of the development. *)

From Stdlib Require Import ZArith Lia Bool List String Floats.
From Stdlib Require Uint63.
Import ListNotations.
#[local] Set Warnings "-inexact-float".
#[local] Open Scope Z_scope.

(** ** C doubles *)

Module Double.

(** [(double)n] for a machine integer [n] (any of the C integer types used
    by the program; all of them fit 63 bits). *)
Definition of_int (z : Z) : float :=
  if z <? 0 then PrimFloat.opp (PrimFloat.of_uint63 (Uint63.of_Z (- z)))
  else PrimFloat.of_uint63 (Uint63.of_Z z).

(** Integer part of a finite binary float, rounded towards minus infinity
    and towards zero.  A negative exponent shifts to the right. *)
Definition SFfloor (x : spec_float) : Z :=
  match x with
  | S754_finite s m e => Z.shiftl (cond_Zopp s (Zpos m)) e
  | _ => 0
  end.

Definition SFtrunc (x : spec_float) : Z :=
  match x with
  | S754_finite s m e => cond_Zopp s (Z.shiftl (Zpos m) e)
  | _ => 0
  end.

(** [floor] of <math.h>: zeros, infinities, NaN and floats without a
    fractional part are returned as they are. *)
Definition floor (y : float) : float :=
  match Prim2SF y with
  | S754_finite _ _ e => if 0 <=? e then y else of_int (SFfloor (Prim2SF y))
  | _ => y
  end.

Definition INT32_MIN : Z := - 2 ^ 31.
Definition INT32_MAX : Z := 2 ^ 31 - 1.

(** [(int32_t)y]: truncation towards zero; the conversion is undefined
    ([None]) for NaN, the infinities and values whose integer part does not
    fit (C11 6.3.1.4). *)
Definition to_int32 (y : float) : option Z :=
  match Prim2SF y with
  | S754_nan | S754_infinity _ => None
  | x =>
      let t := SFtrunc x in
      if (INT32_MIN <=? t) && (t <=? INT32_MAX) then Some t else None
  end.

End Double.

(** *** Binary64 representations of integers

    [shl m n] appends [n] zero bits to a mantissa; [canon] is the normalised
    representation of a non-zero integer of at most 53 bits, [SFint] the
    representation of any such integer. *)

Definition shl (m : positive) (n : nat) : positive := Nat.iter n xO m.

Definition canon (s : bool) (m : positive) : spec_float :=
  S754_finite s (shl m (Z.to_nat (prec - Zpos (digits2_pos m)))) (Zpos (digits2_pos m) - prec).

Definition SFint (z : Z) : spec_float :=
  match z with
  | Z0 => S754_zero false
  | Zpos p => canon false p
  | Zneg p => canon true p
  end.

(** *** The value of a finite float, in units of the least subnormal *)

Definition SFfinite (x : spec_float) : bool :=
  match x with
  | S754_zero _ | S754_finite _ _ _ => true
  | _ => false
  end.

Definition SFscaled (x : spec_float) : Z :=
  match x with
  | S754_finite s m e => cond_Zopp s (Zpos m * 2 ^ (e - emin))
  | _ => 0
  end.

(** ** Outcomes of a call

    A call either returns, runs into behaviour the C standard leaves
    undefined (an out-of-range conversion), or exhausts the fuel that bounds
    the [while] loop of the model. *)

Inductive outcome (A : Type) : Type :=
| Returns (a : A)
| Undefined
| OutOfFuel.
Arguments Returns {A} a.
Arguments Undefined {A}.
Arguments OutOfFuel {A}.

Definition bind {A B} (m : outcome A) (k : A -> outcome B) : outcome B :=
  match m with
  | Returns a => k a
  | Undefined => Undefined
  | OutOfFuel => OutOfFuel
  end.

Definition of_option {A} (o : option A) : outcome A :=
  match o with
  | Some a => Returns a
  | None => Undefined
  end.

Notation "x <- m ;; k" := (bind m (fun x => k))
  (at level 61, m at next level, right associativity).

(** ** Data model *)

(** Modelled from the spec: the axis-aligned bounding box of [AABB.h], which
    is not among the sources; its four fields are those [Entity.c] writes,
    doubles by their prefix. *)
Record AABB : Type := {
  dBottom : float;
  dLeft   : float;
  dRight  : float;
  dTop    : float
}.

(** An [SDL_Texture *]: [None] is the null pointer. *)
Definition Texture : Type := positive.

(** Modelled from the spec: the struct [Entity] of [Entity.h], which is not
    among the sources; its fields are those [Entity.c] reads and writes, with
    the types their prefixes ([d], [u8], [u16], [u32], [pst], [st]) and the
    data model of the specification give them. *)
Record Entity : Type := {
  stBB               : AABB;
  dAcceleration      : float;
  dDeceleration      : float;
  u16Flags           : Z;
  u8Height           : Z;
  u8Width            : Z;
  u32MapWidth        : Z;
  dFrameAnimationFPS : float;
  u8FrameStart       : Z;
  u8FrameEnd         : Z;
  u8FrameOffsetY     : Z;
  dMaxVelocityX      : float;
  dWorldMeterInPixel : float;
  dWorldGravitation  : float;
  dWorldPosX         : float;
  dWorldPosY         : float;
  pstSprite          : option Texture;
  u8Frame            : Z;
  dFrameDuration     : float;
  dInitialWorldPosX  : float;
  dInitialWorldPosY  : float;
  dDistanceY         : float;
  dVelocityX         : float;
  dVelocityY         : float
}.

(** The integer fields hold values of their C types. *)
Definition u8 (z : Z) : Prop := 0 <= z < 2 ^ 8.
Definition u16 (z : Z) : Prop := 0 <= z < 2 ^ 16.
Definition u32 (z : Z) : Prop := 0 <= z < 2 ^ 32.

Record wf_entity (e : Entity) : Prop := {
  wf_flags   : u16 (u16Flags e);
  wf_height  : u8 (u8Height e);
  wf_width   : u8 (u8Width e);
  wf_map     : u32 (u32MapWidth e);
  wf_start   : u8 (u8FrameStart e);
  wf_end     : u8 (u8FrameEnd e);
  wf_offset  : u8 (u8FrameOffsetY e);
  wf_frame   : u8 (u8Frame e)
}.

(** Two entities that agree on the fields [UpdateEntity] never writes. *)
Record same_configuration (e e' : Entity) : Prop := {
  same_acceleration : dAcceleration e' = dAcceleration e;
  same_deceleration : dDeceleration e' = dDeceleration e;
  same_flags        : u16Flags e' = u16Flags e;
  same_height       : u8Height e' = u8Height e;
  same_width        : u8Width e' = u8Width e;
  same_map_width    : u32MapWidth e' = u32MapWidth e;
  same_fps          : dFrameAnimationFPS e' = dFrameAnimationFPS e;
  same_frame_start  : u8FrameStart e' = u8FrameStart e;
  same_frame_end    : u8FrameEnd e' = u8FrameEnd e;
  same_frame_offset : u8FrameOffsetY e' = u8FrameOffsetY e;
  same_max_velocity : dMaxVelocityX e' = dMaxVelocityX e;
  same_meter        : dWorldMeterInPixel e' = dWorldMeterInPixel e;
  same_gravitation  : dWorldGravitation e' = dWorldGravitation e;
  same_sprite       : pstSprite e' = pstSprite e;
  same_spawn_x      : dInitialWorldPosX e' = dInitialWorldPosX e;
  same_spawn_y      : dInitialWorldPosY e' = dInitialWorldPosY e
}.

(** *** The SDL collaborators *)

Record SDL_Rect : Type := { rect_x : Z; rect_y : Z; rect_w : Z; rect_h : Z }.

Inductive SDL_RendererFlip : Type := SDL_FLIP_NONE | SDL_FLIP_HORIZONTAL.

(** The arguments of one [SDL_RenderCopyEx] call (the centre is always
    [NULL]). *)
Record RenderCopy : Type := {
  rc_texture : Texture;
  rc_src     : SDL_Rect;
  rc_dst     : SDL_Rect;
  rc_angle   : float;
  rc_flip    : SDL_RendererFlip
}.

(** The world outside the entity: how the collaborators answer, and what the
    program did to them. *)
Record World : Type := {
  (* answers *)
  render_status : RenderCopy -> Z;           (* result of SDL_RenderCopyEx *)
  load_texture  : string -> option Texture;  (* result of IMG_LoadTexture *)
  sdl_error     : string;                    (* result of SDL_GetError *)
  (* effects, most recent first *)
  blits         : list RenderCopy;
  destroyed     : list Texture;
  stderr        : list string
}.

Definition log_error (msg : string) (wd : World) : World :=
  {| render_status := render_status wd; load_texture := load_texture wd;
     sdl_error := sdl_error wd; blits := blits wd; destroyed := destroyed wd;
     stderr := msg :: stderr wd |}.

Definition log_blit (c : RenderCopy) (wd : World) : World :=
  {| render_status := render_status wd; load_texture := load_texture wd;
     sdl_error := sdl_error wd; blits := c :: blits wd; destroyed := destroyed wd;
     stderr := stderr wd |}.

Definition log_destroy (t : Texture) (wd : World) : World :=
  {| render_status := render_status wd; load_texture := load_texture wd;
     sdl_error := sdl_error wd; blits := blits wd; destroyed := t :: destroyed wd;
     stderr := stderr wd |}.

(** ** The functions of Entity.c *)

(** Bit positions of the flags: the enumeration constants of [Entity.h],
    which is not among the sources.  Every result below holds whatever the
    positions are. *)
Class FlagBits : Type := {
  ENTITY_IS_DEAD       : Z;
  ENTITY_IS_MOVING     : Z;
  ENTITY_IS_IN_MID_AIR : Z;
  ENTITY_DIRECTION     : Z
}.

Section Entity.

Context {bits : FlagBits}.

(** Modelled from the spec: the macro [FLAG_IS_SET] of [Macros.h], which is
    not among the sources; the flags are independent bits of [u16Flags], and
    the macro is taken to be the test that [DrawEntity] writes out by hand,
    [(number >> bit) & 1]. *)
Definition FLAG_IS_SET (number bit : Z) : bool :=
  negb (Z.land (Z.shiftr number bit) 1 =? 0).

(** [number &= ~(1 << bit)] on a [uint16_t]. *)
Definition clear_flag (number bit : Z) : Z :=
  Z.land number (Z.lnot (Z.shiftl 1 bit)) mod 2 ^ 16.

(** *** DrawEntity *)

Definition DrawEntity (pstEntity : Entity) (dCameraPosX dCameraPosY : float)
    (wd : World) : outcome (Z * Entity * World) :=
  match pstSprite pstEntity with
  | None => Returns (-1, pstEntity, log_error (sdl_error wd) wd)
  | Some sprite =>
      let dRenderPosX := (dWorldPosX pstEntity - dCameraPosX)%float in
      let dRenderPosY := (dWorldPosY pstEntity - dCameraPosY)%float in
      dst_x <- of_option (Double.to_int32 dRenderPosX) ;;
      dst_y <- of_option (Double.to_int32 dRenderPosY) ;;
      let stDst := {| rect_x := dst_x; rect_y := dst_y;
                      rect_w := u8Width pstEntity; rect_h := u8Height pstEntity |} in
      let stSrc := {| rect_x := u8Frame pstEntity * u8Width pstEntity;
                      rect_y := u8FrameOffsetY pstEntity * u8Height pstEntity;
                      rect_w := u8Width pstEntity; rect_h := u8Height pstEntity |} in
      let s8Flip :=
        if negb (Z.land (Z.shiftr (u16Flags pstEntity) ENTITY_DIRECTION) 1 =? 0)
        then SDL_FLIP_HORIZONTAL else SDL_FLIP_NONE in
      let call := {| rc_texture := sprite; rc_src := stSrc; rc_dst := stDst;
                     rc_angle := 0%float; rc_flip := s8Flip |} in
      let wd1 := log_blit call wd in
      if render_status wd call =? -1
      then Returns (-1, pstEntity, log_error (sdl_error wd1) wd1)
      else Returns (0, pstEntity, wd1)
  end.

(** *** InitEntity

    [malloc] is the only way to fail; its success is an input (the message
    printed on failure is left out). *)
Definition InitEntity (malloc_ok : bool)
    (u8Width u8Height : Z) (dPosX dPosY : float) (u32MapWidth : Z)
    : option Entity :=
  if malloc_ok then
    Some {|
      dAcceleration      := 400%float;
      dDeceleration      := 200%float;
      u16Flags           := 0;
      u8Height           := u8Height;
      u8Width            := u8Width;
      u32MapWidth        := u32MapWidth;
      dFrameAnimationFPS := 20%float;
      u8FrameStart       := 0;
      u8FrameEnd         := 12;
      u8FrameOffsetY     := 0;
      dMaxVelocityX      := 100%float;
      dWorldMeterInPixel := 48%float;
      dWorldGravitation  := 9.81%float;
      dWorldPosX         := dPosX;
      dWorldPosY         := dPosY;
      pstSprite          := None;
      u8Frame            := 0;
      dFrameDuration     := 0%float;
      stBB := {| dBottom := 0%float;
                 dLeft   := Double.of_int u8Height;
                 dRight  := Double.of_int u8Width;
                 dTop    := 0%float |};
      dInitialWorldPosX  := dPosX;
      dInitialWorldPosY  := dPosY;
      dDistanceY         := 0%float;
      dVelocityX         := 0%float;
      dVelocityY         := 0%float
    |}
  else None.

(** *** Field updates *)

Definition set_sprite (t : option Texture) (e : Entity) : Entity :=
  {| stBB := stBB e; dAcceleration := dAcceleration e; dDeceleration := dDeceleration e;
     u16Flags := u16Flags e; u8Height := u8Height e; u8Width := u8Width e;
     u32MapWidth := u32MapWidth e; dFrameAnimationFPS := dFrameAnimationFPS e;
     u8FrameStart := u8FrameStart e; u8FrameEnd := u8FrameEnd e;
     u8FrameOffsetY := u8FrameOffsetY e; dMaxVelocityX := dMaxVelocityX e;
     dWorldMeterInPixel := dWorldMeterInPixel e; dWorldGravitation := dWorldGravitation e;
     dWorldPosX := dWorldPosX e; dWorldPosY := dWorldPosY e;
     pstSprite := t;
     u8Frame := u8Frame e; dFrameDuration := dFrameDuration e;
     dInitialWorldPosX := dInitialWorldPosX e; dInitialWorldPosY := dInitialWorldPosY e;
     dDistanceY := dDistanceY e; dVelocityX := dVelocityX e; dVelocityY := dVelocityY e |}.

Definition set_flags (f : Z) (e : Entity) : Entity :=
  {| stBB := stBB e; dAcceleration := dAcceleration e; dDeceleration := dDeceleration e;
     u16Flags := f;
     u8Height := u8Height e; u8Width := u8Width e;
     u32MapWidth := u32MapWidth e; dFrameAnimationFPS := dFrameAnimationFPS e;
     u8FrameStart := u8FrameStart e; u8FrameEnd := u8FrameEnd e;
     u8FrameOffsetY := u8FrameOffsetY e; dMaxVelocityX := dMaxVelocityX e;
     dWorldMeterInPixel := dWorldMeterInPixel e; dWorldGravitation := dWorldGravitation e;
     dWorldPosX := dWorldPosX e; dWorldPosY := dWorldPosY e;
     pstSprite := pstSprite e;
     u8Frame := u8Frame e; dFrameDuration := dFrameDuration e;
     dInitialWorldPosX := dInitialWorldPosX e; dInitialWorldPosY := dInitialWorldPosY e;
     dDistanceY := dDistanceY e; dVelocityX := dVelocityX e; dVelocityY := dVelocityY e |}.

Definition set_world_pos (px py : float) (e : Entity) : Entity :=
  {| stBB := stBB e; dAcceleration := dAcceleration e; dDeceleration := dDeceleration e;
     u16Flags := u16Flags e; u8Height := u8Height e; u8Width := u8Width e;
     u32MapWidth := u32MapWidth e; dFrameAnimationFPS := dFrameAnimationFPS e;
     u8FrameStart := u8FrameStart e; u8FrameEnd := u8FrameEnd e;
     u8FrameOffsetY := u8FrameOffsetY e; dMaxVelocityX := dMaxVelocityX e;
     dWorldMeterInPixel := dWorldMeterInPixel e; dWorldGravitation := dWorldGravitation e;
     dWorldPosX := px; dWorldPosY := py;
     pstSprite := pstSprite e;
     u8Frame := u8Frame e; dFrameDuration := dFrameDuration e;
     dInitialWorldPosX := dInitialWorldPosX e; dInitialWorldPosY := dInitialWorldPosY e;
     dDistanceY := dDistanceY e; dVelocityX := dVelocityX e; dVelocityY := dVelocityY e |}.

(** *** LoadEntitySprite *)

Definition LoadEntitySprite (pstEntity : Entity) (pacFilename : string)
    (wd : World) : Z * Entity * World :=
  let wd1 := match pstSprite pstEntity with
             | Some old => log_destroy old wd
             | None => wd
             end in
  match load_texture wd pacFilename with
  | Some t => (0, set_sprite (Some t) pstEntity, wd1)
  | None => (-1, set_sprite None pstEntity, log_error (sdl_error wd1) wd1)
  end.

(** *** ResurrectEntity *)

Definition ResurrectEntity (pstEntity : Entity) : Entity :=
  let e1 := set_flags (clear_flag (u16Flags pstEntity) ENTITY_IS_DEAD) pstEntity in
  let e2 := set_flags (clear_flag (u16Flags e1) ENTITY_IS_MOVING) e1 in
  set_world_pos (dInitialWorldPosX e2) (dInitialWorldPosY e2) e2.

(** *** SetEntitySpriteAnimation *)

Definition SetEntitySpriteAnimation (pstEntity : Entity)
    (u8FrameStart' u8FrameEnd' u8FrameOffsetY' : Z) (dFrameAnimationFPS' : float)
    : Entity :=
  let e := pstEntity in
  {| stBB := stBB e; dAcceleration := dAcceleration e; dDeceleration := dDeceleration e;
     u16Flags := u16Flags e; u8Height := u8Height e; u8Width := u8Width e;
     u32MapWidth := u32MapWidth e;
     dFrameAnimationFPS := dFrameAnimationFPS';
     u8FrameStart := u8FrameStart';
     u8FrameEnd := u8FrameEnd';
     u8FrameOffsetY := u8FrameOffsetY';
     dMaxVelocityX := dMaxVelocityX e;
     dWorldMeterInPixel := dWorldMeterInPixel e; dWorldGravitation := dWorldGravitation e;
     dWorldPosX := dWorldPosX e; dWorldPosY := dWorldPosY e;
     pstSprite := pstSprite e;
     u8Frame := u8Frame e; dFrameDuration := dFrameDuration e;
     dInitialWorldPosX := dInitialWorldPosX e; dInitialWorldPosY := dInitialWorldPosY e;
     dDistanceY := dDistanceY e; dVelocityX := dVelocityX e; dVelocityY := dVelocityY e |}.

(** *** UpdateEntity *)

(** The "experimental y-coordinate correction":
    [while (0 != ((int32_t)y % 8)) { y = floor(y); y -= 1.0; }]. *)
Fixpoint correct_y (fuel : nat) (dWorldPosY : float) : outcome float :=
  match fuel with
  | O => OutOfFuel
  | S fuel' =>
      t <- of_option (Double.to_int32 dWorldPosY) ;;
      if Z.rem t 8 =? 0 then Returns dWorldPosY
      else correct_y fuel' (Double.floor dWorldPosY - 1)%float
  end.

(** Update bounding box. *)
Definition bounding_box (e : Entity) : AABB :=
  {| dBottom := (dWorldPosY e + Double.of_int (u8Height e))%float;
     dLeft   := dWorldPosX e;
     dRight  := (dWorldPosX e + Double.of_int (u8Width e))%float;
     dTop    := dWorldPosY e |}.

(** Increase/decrease velocity if entity is in motion. *)
Definition integrate_velocity_x (e : Entity) (dDeltaTime : float) : float :=
  if FLAG_IS_SET (u16Flags e) ENTITY_IS_MOVING
  then (dVelocityX e + dAcceleration e * dDeltaTime)%float
  else (dVelocityX e - dDeceleration e * dDeltaTime)%float.

(** Set velocity limits: first the ceiling, then the floor. *)
Definition limit_velocity_x (e : Entity) (v : float) : float :=
  let v1 := if (dMaxVelocityX e <=? v)%float then dMaxVelocityX e else v in
  if (v1 <? 0)%float then 0%float else v1.

Definition update_velocity_x (e : Entity) (dDeltaTime : float) : float :=
  limit_velocity_x e (integrate_velocity_x e dDeltaTime).

(** Set horizontal entity position (before the borders are connected). *)
Definition move_x (e : Entity) (dVelocityX' dDeltaTime : float) : float :=
  if (0 <? dVelocityX')%float then
    if FLAG_IS_SET (u16Flags e) ENTITY_DIRECTION
    then (dWorldPosX e - dVelocityX' * dDeltaTime)%float
    else (dWorldPosX e + dVelocityX' * dDeltaTime)%float
  else dWorldPosX e.

(** Apply gravity, or correct the y-coordinate: the new [dDistanceY],
    [dVelocityY] and [dWorldPosY]. *)
Definition update_vertical (fuel : nat) (e : Entity) (dDeltaTime : float)
    : outcome (float * float * float) :=
  if FLAG_IS_SET (u16Flags e) ENTITY_IS_IN_MID_AIR then
    let dG := (dWorldMeterInPixel e * dWorldGravitation e)%float in
    let dist := (dG * dDeltaTime * dDeltaTime)%float in
    let vy := (dVelocityY e + dist)%float in
    Returns (dist, vy, (dWorldPosY e + vy)%float)
  else
    py <- correct_y fuel (dWorldPosY e) ;;
    Returns (dDistanceY e, dVelocityY e, py).

(** The two map borders as doubles.  [0 - u8Width] is an [int];
    [u32MapWidth - u8Width] is an [unsigned int] and wraps. *)
Definition left_border (e : Entity) : float :=
  Double.of_int (0 - u8Width e).

Definition right_border (e : Entity) : float :=
  Double.of_int ((u32MapWidth e - u8Width e) mod 2 ^ 32).

(** Connect left and right map border and vice versa. *)
Definition wrap_x (e : Entity) (px : float) : float :=
  let px1 := if (px <? left_border e)%float then right_border e else px in
  if (right_border e <? px1)%float then left_border e else px1.

(** Update frame, loop frame animation: the new [u8Frame] and
    [dFrameDuration].  [u8Frame++] wraps at 256. *)
Definition update_frame (e : Entity) (dDeltaTime : float) : Z * float :=
  let d1 := (dFrameDuration e + dDeltaTime)%float in
  let f1 := if u8Frame e <? u8FrameStart e then u8FrameStart e else u8Frame e in
  let '(f2, d2) := if (1 / dFrameAnimationFPS e <? d1)%float
                   then ((f1 + 1) mod 2 ^ 8, 0%float)
                   else (f1, d1) in
  let f3 := if u8FrameEnd e <=? f2 then u8FrameStart e else f2 in
  (f3, d2).

Definition UpdateEntity (fuel : nat) (pstEntity : Entity) (dDeltaTime : float)
    : outcome Entity :=
  let e := pstEntity in
  let bb := bounding_box e in
  let vx := update_velocity_x e dDeltaTime in
  let px := move_x e vx dDeltaTime in
  vertical <- update_vertical fuel e dDeltaTime ;;
  let '(dist, vy, py) := vertical in
  let px' := wrap_x e px in
  let '(frame, duration) := update_frame e dDeltaTime in
  Returns
    {| stBB := bb; dAcceleration := dAcceleration e; dDeceleration := dDeceleration e;
       u16Flags := u16Flags e; u8Height := u8Height e; u8Width := u8Width e;
       u32MapWidth := u32MapWidth e; dFrameAnimationFPS := dFrameAnimationFPS e;
       u8FrameStart := u8FrameStart e; u8FrameEnd := u8FrameEnd e;
       u8FrameOffsetY := u8FrameOffsetY e; dMaxVelocityX := dMaxVelocityX e;
       dWorldMeterInPixel := dWorldMeterInPixel e; dWorldGravitation := dWorldGravitation e;
       dWorldPosX := px'; dWorldPosY := py;
       pstSprite := pstSprite e;
       u8Frame := frame; dFrameDuration := duration;
       dInitialWorldPosX := dInitialWorldPosX e; dInitialWorldPosY := dInitialWorldPosY e;
       dDistanceY := dist; dVelocityX := vx; dVelocityY := vy |}.

(** Consecutive frames: one [UpdateEntity] call per time step. *)
Fixpoint UpdateEntity_frames (fuel : nat) (e : Entity) (steps : list float)
    : outcome Entity :=
  match steps with
  | [] => Returns e
  | dt :: steps' => e1 <- UpdateEntity fuel e dt ;; UpdateEntity_frames fuel e1 steps'
  end.

(** Consecutive sprite loads: one [LoadEntitySprite] call per file name; the
    results of the calls in order, and the entity and the world after the
    last call. *)
Fixpoint LoadEntitySprite_all (e : Entity) (files : list string) (wd : World)
    : list Z * Entity * World :=
  match files with
  | [] => ([], e, wd)
  | file :: files' =>
      let '(r, e1, wd1) := LoadEntitySprite e file wd in
      let '(rs, e', wd') := LoadEntitySprite_all e1 files' wd1 in
      (r :: rs, e', wd')
  end.

(** The texture an entity holds, as a list; and the textures that the files
    of a list give, in the order of the list. *)
Definition held (e : Entity) : list Texture :=
  match pstSprite e with
  | Some t => [t]
  | None => []
  end.

Definition loaded (wd : World) (files : list string) : list Texture :=
  flat_map (fun file => match load_texture wd file with
                        | Some t => [t]
                        | None => []
                        end) files.

(** The entities a program reaches through the interface of Entity.c, when
    every animation it sets satisfies [frameStart < frameEnd]: creation,
    sprite loading, resurrection, animation changes, flag changes by the
    input layer, and updates. *)
Inductive reachable : Entity -> Prop :=
| reach_init width height px py map_width e :
    u8 width -> u8 height -> u32 map_width ->
    InitEntity true width height px py map_width = Some e -> reachable e
| reach_load e file wd r e' wd' :
    reachable e -> LoadEntitySprite e file wd = (r, e', wd') -> reachable e'
| reach_resurrect e :
    reachable e -> reachable (ResurrectEntity e)
| reach_animation e frame_start frame_end offset fps :
    reachable e -> u8 frame_start -> u8 frame_end -> u8 offset ->
    frame_start < frame_end ->
    reachable (SetEntitySpriteAnimation e frame_start frame_end offset fps)
| reach_flags e flags :
    reachable e -> u16 flags -> reachable (set_flags flags e)
| reach_update e fuel dt e' :
    reachable e -> UpdateEntity fuel e dt = Returns e' -> reachable e'.

End Entity.

(** ** Example data *)

Definition example_bits : FlagBits :=
  {| ENTITY_IS_DEAD := 0; ENTITY_IS_MOVING := 1;
     ENTITY_IS_IN_MID_AIR := 2; ENTITY_DIRECTION := 3 |}.

(** The entity [InitEntity(32, 40, px, py, 1000)] creates. *)
Definition sam (px py : float) : Entity :=
  {| stBB := {| dBottom := 0; dLeft := 40; dRight := 32; dTop := 0 |};
     dAcceleration := 400; dDeceleration := 200; u16Flags := 0;
     u8Height := 40; u8Width := 32; u32MapWidth := 1000;
     dFrameAnimationFPS := 20; u8FrameStart := 0; u8FrameEnd := 12; u8FrameOffsetY := 0;
     dMaxVelocityX := 100; dWorldMeterInPixel := 48; dWorldGravitation := 9.81;
     dWorldPosX := px; dWorldPosY := py; pstSprite := None;
     u8Frame := 0; dFrameDuration := 0;
     dInitialWorldPosX := px; dInitialWorldPosY := py;
     dDistanceY := 0; dVelocityX := 0; dVelocityY := 0 |}.

Definition with_velocity (vx vy : float) (e : Entity) : Entity :=
  {| stBB := stBB e; dAcceleration := dAcceleration e; dDeceleration := dDeceleration e;
     u16Flags := u16Flags e; u8Height := u8Height e; u8Width := u8Width e;
     u32MapWidth := u32MapWidth e; dFrameAnimationFPS := dFrameAnimationFPS e;
     u8FrameStart := u8FrameStart e; u8FrameEnd := u8FrameEnd e;
     u8FrameOffsetY := u8FrameOffsetY e; dMaxVelocityX := dMaxVelocityX e;
     dWorldMeterInPixel := dWorldMeterInPixel e; dWorldGravitation := dWorldGravitation e;
     dWorldPosX := dWorldPosX e; dWorldPosY := dWorldPosY e;
     pstSprite := pstSprite e;
     u8Frame := u8Frame e; dFrameDuration := dFrameDuration e;
     dInitialWorldPosX := dInitialWorldPosX e; dInitialWorldPosY := dInitialWorldPosY e;
     dDistanceY := dDistanceY e; dVelocityX := vx; dVelocityY := vy |}.

Definition with_frame (frame : Z) (duration : float) (e : Entity) : Entity :=
  {| stBB := stBB e; dAcceleration := dAcceleration e; dDeceleration := dDeceleration e;
     u16Flags := u16Flags e; u8Height := u8Height e; u8Width := u8Width e;
     u32MapWidth := u32MapWidth e; dFrameAnimationFPS := dFrameAnimationFPS e;
     u8FrameStart := u8FrameStart e; u8FrameEnd := u8FrameEnd e;
     u8FrameOffsetY := u8FrameOffsetY e; dMaxVelocityX := dMaxVelocityX e;
     dWorldMeterInPixel := dWorldMeterInPixel e; dWorldGravitation := dWorldGravitation e;
     dWorldPosX := dWorldPosX e; dWorldPosY := dWorldPosY e;
     pstSprite := pstSprite e;
     u8Frame := frame; dFrameDuration := duration;
     dInitialWorldPosX := dInitialWorldPosX e; dInitialWorldPosY := dInitialWorldPosY e;
     dDistanceY := dDistanceY e; dVelocityX := dVelocityX e; dVelocityY := dVelocityY e |}.

Definition with_map_width (width : Z) (e : Entity) : Entity :=
  {| stBB := stBB e; dAcceleration := dAcceleration e; dDeceleration := dDeceleration e;
     u16Flags := u16Flags e; u8Height := u8Height e; u8Width := u8Width e;
     u32MapWidth := width; dFrameAnimationFPS := dFrameAnimationFPS e;
     u8FrameStart := u8FrameStart e; u8FrameEnd := u8FrameEnd e;
     u8FrameOffsetY := u8FrameOffsetY e; dMaxVelocityX := dMaxVelocityX e;
     dWorldMeterInPixel := dWorldMeterInPixel e; dWorldGravitation := dWorldGravitation e;
     dWorldPosX := dWorldPosX e; dWorldPosY := dWorldPosY e;
     pstSprite := pstSprite e;
     u8Frame := u8Frame e; dFrameDuration := dFrameDuration e;
     dInitialWorldPosX := dInitialWorldPosX e; dInitialWorldPosY := dInitialWorldPosY e;
     dDistanceY := dDistanceY e; dVelocityX := dVelocityX e; dVelocityY := dVelocityY e |}.

Definition with_max_velocity (vmax : float) (e : Entity) : Entity :=
  {| stBB := stBB e; dAcceleration := dAcceleration e; dDeceleration := dDeceleration e;
     u16Flags := u16Flags e; u8Height := u8Height e; u8Width := u8Width e;
     u32MapWidth := u32MapWidth e; dFrameAnimationFPS := dFrameAnimationFPS e;
     u8FrameStart := u8FrameStart e; u8FrameEnd := u8FrameEnd e;
     u8FrameOffsetY := u8FrameOffsetY e; dMaxVelocityX := vmax;
     dWorldMeterInPixel := dWorldMeterInPixel e; dWorldGravitation := dWorldGravitation e;
     dWorldPosX := dWorldPosX e; dWorldPosY := dWorldPosY e;
     pstSprite := pstSprite e;
     u8Frame := u8Frame e; dFrameDuration := dFrameDuration e;
     dInitialWorldPosX := dInitialWorldPosX e; dInitialWorldPosY := dInitialWorldPosY e;
     dDistanceY := dDistanceY e; dVelocityX := dVelocityX e; dVelocityY := dVelocityY e |}.

(** Flag words for [example_bits]. *)
Definition WALKING : Z := 2.      (* ENTITY_IS_MOVING *)
Definition AIRBORNE : Z := 4.     (* ENTITY_IS_IN_MID_AIR *)

(** A world whose renderer accepts every blit and that has done nothing yet. *)
Definition quiet_world : World :=
  {| render_status := fun _ => 0; load_texture := fun _ => None;
     sdl_error := "no sprite"; blits := []; destroyed := []; stderr := [] |}.

(** A world that has one image file, and whose renderer accepts every blit. *)
Definition sprite_world : World :=
  {| render_status := fun _ => 0;
     load_texture := fun file => if String.eqb file "sam.png" then Some 7%positive else None;
     sdl_error := "file not found"; blits := []; destroyed := []; stderr := [] |}.

(** ** Facts about binary64 arithmetic *)

Lemma shl_pos_iter m p : Pos.iter xO m p = shl m (Pos.to_nat p).
Proof. unfold shl. apply Pos2Nat.inj_iter. Qed.

Lemma shl_add m a b : shl (shl m a) b = shl m (a + b).
Proof. unfold shl. rewrite Nat.add_comm, Nat.iter_add. reflexivity. Qed.

Lemma shl_digits m n : Zpos (digits2_pos (shl m n)) = Zpos (digits2_pos m) + Z.of_nat n.
Proof.
  induction n as [|n IH]; [simpl; lia|].
  change (shl m (S n)) with (xO (shl m n)). cbn [digits2_pos].
  rewrite Pos2Z.inj_succ, IH. lia.
Qed.

Lemma shl_val m n : Zpos (shl m n) = Zpos m * 2 ^ Z.of_nat n.
Proof.
  induction n as [|n IH]; [simpl; lia|].
  change (shl m (S n)) with (xO (shl m n)).
  rewrite Pos2Z.inj_xO, IH, Nat2Z.inj_succ, Z.pow_succ_r by lia. ring.
Qed.

Lemma iter_pos_nat {A} (f : A -> A) p x : iter_pos f p x = Nat.iter (Pos.to_nat p) f x.
Proof.
  revert x; induction p as [p IH|p IH|]; intros x; cbn [iter_pos].
  - rewrite !IH, Pos2Nat.inj_xI. 
    replace (S (2 * Pos.to_nat p))%nat with (Pos.to_nat p + (Pos.to_nat p + 1))%nat by lia.
    rewrite !Nat.iter_add. reflexivity.
  - rewrite !IH, Pos2Nat.inj_xO.
    replace (2 * Pos.to_nat p)%nat with (Pos.to_nat p + Pos.to_nat p)%nat by lia.
    rewrite Nat.iter_add. reflexivity.
  - reflexivity.
Qed.

Lemma shr_shl m n k :
  Nat.iter n shr_1 (Build_shr_record (Zpos (shl m (k + n))) false false)
  = Build_shr_record (Zpos (shl m k)) false false.
Proof.
  induction n as [|n IH].
  - rewrite Nat.add_0_r. reflexivity.
  - rewrite Nat.iter_succ_r. replace (k + S n)%nat with (S (k + n)) by lia.
    change (shl m (S (k + n))) with (xO (shl m (k+n))). cbn [shr_1 orb]. exact IH.
Qed.

Lemma fexp_normal x : emin <= x - prec -> fexp prec emax x = x - prec.
Proof. unfold fexp. lia. Qed.

Lemma round_aux_exact s m e :
  Zpos (digits2_pos m) = prec -> emin <= e <= emax - prec ->
  binary_round_aux prec emax s (Zpos m) e loc_Exact = S754_finite s m e.
Proof.
  intros Hd He. unfold binary_round_aux, shr_fexp. cbn [Zdigits2 shr_record_of_loc].
  rewrite Hd, fexp_normal by lia.
  replace (prec + e - prec - e) with 0 by lia. cbn [shr shr_m loc_of_shr_record round_nearest_even Zdigits2].
  rewrite Hd, fexp_normal by lia.
  replace (prec + e - prec - e) with 0 by lia. cbn [shr shr_m].
  destruct (Z.leb_spec e (emax - prec)); [reflexivity | lia].
Qed.

Lemma binary_round_shl s m k e :
  let d := Zpos (digits2_pos m) in
  d <= prec -> emin <= d + e - prec <= emax - prec ->
  binary_round prec emax s (shl m k) (e - Z.of_nat k)
  = S754_finite s (shl m (Z.to_nat (prec - d))) (d + e - prec).
Proof.
  intros d Hd He. unfold binary_round, shl_align.
  rewrite shl_digits. fold d.
  replace (d + Z.of_nat k + (e - Z.of_nat k)) with (d + e) by lia.
  rewrite fexp_normal by lia.
  destruct (d + e - prec - (e - Z.of_nat k)) as [|j|j] eqn:Hj.
  - assert (k = Z.to_nat (prec - d)) by lia. subst k.
    replace (e - Z.of_nat (Z.to_nat (prec - d))) with (d + e - prec) by lia.
    apply round_aux_exact; [rewrite shl_digits; fold d; lia | lia].
  - (* too many digits: shift right by j *)
    unfold binary_round_aux, shr_fexp. cbn [Zdigits2 shr_record_of_loc].
    rewrite shl_digits. fold d.
    replace (d + Z.of_nat k + (e - Z.of_nat k)) with (d + e) by lia.
    rewrite fexp_normal by lia. rewrite Hj. cbn [shr].
    rewrite iter_pos_nat.
    assert (Hit : Nat.iter (Pos.to_nat j) shr_1 (Build_shr_record (Zpos (shl m k)) false false)
                  = Build_shr_record (Zpos (shl m (Z.to_nat (prec - d)))) false false).
    { replace k with (Z.to_nat (prec - d) + Pos.to_nat j)%nat by lia. apply shr_shl. }
    rewrite !Hit. cbn [shr_m loc_of_shr_record round_nearest_even Zdigits2].
    rewrite shl_digits. fold d.
    replace (e - Z.of_nat k + Z.pos j) with (d + e - prec) by lia.
    rewrite fexp_normal by lia.
    replace (d + Z.of_nat (Z.to_nat (prec - d)) + (d + e - prec) - prec - (d + e - prec)) with 0 by lia.
    cbn [shr shr_m].
    destruct (Z.leb_spec (d + e - prec) (emax - prec)); [reflexivity | lia].
  - rewrite shl_pos_iter, shl_add.
    replace (k + Pos.to_nat j)%nat with (Z.to_nat (prec - d)) by lia.
    apply round_aux_exact; [rewrite shl_digits; fold d; lia | lia].
Qed.

Ltac fsimp := unfold SpecFloat.emin, prec, emax in *.

Lemma digits_upper p : forall n, 0 <= n -> Zpos p < 2 ^ n -> Zpos (digits2_pos p) <= n.
Proof.
  induction p as [p IH|p IH|]; intros n Hn Hp; cbn [digits2_pos]; rewrite ?Pos2Z.inj_succ.
  - assert (n <> 0) by (intros ->; simpl in Hp; lia).
    specialize (IH (n - 1)). replace (2 ^ n) with (2 * 2 ^ (n - 1)) in Hp
      by (rewrite <- Z.pow_succ_r by lia; f_equal; lia). lia.
  - assert (n <> 0) by (intros ->; simpl in Hp; lia).
    specialize (IH (n - 1)). replace (2 ^ n) with (2 * 2 ^ (n - 1)) in Hp
      by (rewrite <- Z.pow_succ_r by lia; f_equal; lia). lia.
  - assert (n <> 0) by (intros ->; simpl in Hp; lia). lia.
Qed.

Lemma digits_lower p : 2 ^ (Zpos (digits2_pos p) - 1) <= Zpos p.
Proof.
  induction p as [p IH|p IH|]; cbn [digits2_pos]; rewrite ?Pos2Z.inj_succ.
  - replace (Z.succ (Zpos (digits2_pos p)) - 1) with (Z.succ (Zpos (digits2_pos p) - 1)) by lia.
    rewrite Z.pow_succ_r by lia. lia.
  - replace (Z.succ (Zpos (digits2_pos p)) - 1) with (Z.succ (Zpos (digits2_pos p) - 1)) by lia.
    rewrite Z.pow_succ_r by lia. lia.
  - simpl. lia.
Qed.

Lemma normalize_int z k :
  Z.abs z < 2 ^ 53 ->
  binary_normalize prec emax (z * 2 ^ Z.of_nat k) (- Z.of_nat k) false = SFint z.
Proof.
  intros Hz. destruct z as [|p|p]; cbn [SFint]; [rewrite Z.mul_0_l; reflexivity| |].
  - pose proof (digits_upper p 53 ltac:(lia) ltac:(lia)) as Hd.
    rewrite <- shl_val. cbn [binary_normalize].
    change (- Z.of_nat k) with (0 - Z.of_nat k).
    rewrite binary_round_shl by (fsimp; lia).
    unfold canon. f_equal; lia.
  - pose proof (digits_upper p 53 ltac:(lia) ltac:(lia)) as Hd.
    replace (Z.neg p * 2 ^ Z.of_nat k) with (- (Zpos p * 2 ^ Z.of_nat k)) by lia.
    rewrite <- shl_val. cbn [binary_normalize Z.opp].
    change (- Z.of_nat k) with (0 - Z.of_nat k).
    rewrite binary_round_shl by (fsimp; lia).
    unfold canon. f_equal; lia.
Qed.

Lemma of_uint63_int z : 0 <= z < 2 ^ 53 -> Prim2SF (of_uint63 (Uint63.of_Z z)) = SFint z.
Proof.
  intros Hz. rewrite of_uint63_spec, Uint63.of_Z_spec, Z.mod_small.
  - replace z with (z * 2 ^ Z.of_nat 0) at 1 by (simpl; lia).
    apply (normalize_int z 0). lia.
  - change Uint63.wB with (2 ^ 63). assert (2 ^ 53 < 2 ^ 63) by (apply Z.pow_lt_mono_r; lia). lia.
Qed.

Lemma Prim2SF_of_int z : Z.abs z < 2 ^ 53 -> Prim2SF (Double.of_int z) = SFint z.
Proof.
  intros Hz. unfold Double.of_int. destruct (Z.ltb_spec z 0).
  - rewrite FloatAxioms.opp_spec, of_uint63_int by lia. destruct z; try lia. reflexivity.
  - apply of_uint63_int. lia.
Qed.

Lemma cond_Zopp_shl s p K :
  cond_Zopp s (Zpos (shl p K)) = cond_Zopp s (Zpos p) * 2 ^ Z.of_nat K.
Proof. rewrite shl_val. destruct s; cbn [cond_Zopp]; lia. Qed.

Lemma align_canon p q :
  let dp := Zpos (digits2_pos p) in
  let dq := Zpos (digits2_pos q) in
  dp <= prec -> dq <= prec ->
  fst (shl_align (shl p (Z.to_nat (prec - dp))) (dp - prec) (Z.min (dp - prec) (dq - prec)))
  = shl p (Z.to_nat (prec - Z.min dp dq)).
Proof.
  intros dp dq Hp Hq. unfold shl_align.
  destruct (Z.min (dp - prec) (dq - prec) - (dp - prec)) as [|j|j] eqn:Hj; cbn [fst].
  - f_equal. lia.
  - lia.
  - rewrite shl_pos_iter, shl_add. f_equal. lia.
Qed.

Lemma SFint_finite z : z <> 0 ->
  SFint z = canon (z <? 0) (Z.to_pos (Z.abs z)).
Proof. destruct z; [congruence| |]; reflexivity. Qed.

Lemma SFadd_int a b :
  Z.abs a < 2 ^ 53 -> Z.abs b < 2 ^ 53 -> Z.abs (a + b) < 2 ^ 53 ->
  SF64add (SFint a) (SFint b) = SFint (a + b).
Proof.
  intros Ha Hb Hab.
  destruct (Z.eq_dec a 0) as [->|Ha0]; [destruct b; reflexivity|].
  destruct (Z.eq_dec b 0) as [->|Hb0]; [rewrite Z.add_0_r; destruct a; reflexivity|].
  rewrite (SFint_finite a), (SFint_finite b) by assumption.
  set (p := Z.to_pos (Z.abs a)). set (q := Z.to_pos (Z.abs b)).
  assert (Hp : Zpos (digits2_pos p) <= prec) by (apply digits_upper; subst p; fsimp; lia).
  assert (Hq : Zpos (digits2_pos q) <= prec) by (apply digits_upper; subst q; fsimp; lia).
  unfold canon, SF64add, SFadd.
  rewrite (align_canon p q Hp Hq).
  rewrite (Z.min_comm (Z.pos (digits2_pos p) - prec)), (align_canon q p Hq Hp).
  rewrite (Z.min_comm (Z.pos (digits2_pos q))).
  set (K := Z.to_nat (prec - Z.min (Z.pos (digits2_pos p)) (Z.pos (digits2_pos q)))).
  rewrite !cond_Zopp_shl, <- Z.mul_add_distr_r.
  replace (Z.min (Z.pos (digits2_pos q) - prec) (Z.pos (digits2_pos p) - prec))
    with (- Z.of_nat K) by (subst K; lia).
  replace (cond_Zopp (a <? 0) (Zpos p)) with a
    by (subst p; destruct a; try congruence; reflexivity).
  replace (cond_Zopp (b <? 0) (Zpos q)) with b
    by (subst q; destruct b; try congruence; reflexivity).
  apply normalize_int. assumption.
Qed.

Lemma SFsub_int a b :
  Z.abs a < 2 ^ 53 -> Z.abs b < 2 ^ 53 -> Z.abs (a - b) < 2 ^ 53 ->
  SF64sub (SFint a) (SFint b) = SFint (a - b).
Proof.
  intros Ha Hb Hab.
  destruct (Z.eq_dec a 0) as [->|Ha0]; [destruct b; reflexivity|].
  destruct (Z.eq_dec b 0) as [->|Hb0]; [rewrite Z.sub_0_r; destruct a; reflexivity|].
  rewrite (SFint_finite a), (SFint_finite b) by assumption.
  set (p := Z.to_pos (Z.abs a)). set (q := Z.to_pos (Z.abs b)).
  assert (Hp : Zpos (digits2_pos p) <= prec) by (apply digits_upper; subst p; fsimp; lia).
  assert (Hq : Zpos (digits2_pos q) <= prec) by (apply digits_upper; subst q; fsimp; lia).
  unfold canon, SF64sub, SFsub.
  rewrite (align_canon p q Hp Hq).
  rewrite (Z.min_comm (Z.pos (digits2_pos p) - prec)), (align_canon q p Hq Hp).
  rewrite (Z.min_comm (Z.pos (digits2_pos q))).
  set (K := Z.to_nat (prec - Z.min (Z.pos (digits2_pos p)) (Z.pos (digits2_pos q)))).
  rewrite !cond_Zopp_shl, <- Z.mul_sub_distr_r.
  replace (Z.min (Z.pos (digits2_pos q) - prec) (Z.pos (digits2_pos p) - prec))
    with (- Z.of_nat K) by (subst K; lia).
  replace (cond_Zopp (a <? 0) (Zpos p)) with a
    by (subst p; destruct a; try congruence; reflexivity).
  replace (cond_Zopp (b <? 0) (Zpos q)) with b
    by (subst q; destruct b; try congruence; reflexivity).
  apply normalize_int. assumption.
Qed.

Lemma sub_of_int a b :
  Z.abs a < 2 ^ 53 -> Z.abs b < 2 ^ 53 -> Z.abs (a - b) < 2 ^ 53 ->
  (Double.of_int a - Double.of_int b)%float = Double.of_int (a - b).
Proof.
  intros. apply Prim2SF_inj. rewrite FloatAxioms.sub_spec, !Prim2SF_of_int by assumption.
  apply SFsub_int; assumption.
Qed.

Lemma add_of_int a b :
  Z.abs a < 2 ^ 53 -> Z.abs b < 2 ^ 53 -> Z.abs (a + b) < 2 ^ 53 ->
  (Double.of_int a + Double.of_int b)%float = Double.of_int (a + b).
Proof.
  intros. apply Prim2SF_inj. rewrite FloatAxioms.add_spec, !Prim2SF_of_int by assumption.
  apply SFadd_int; assumption.
Qed.

(** *** Order *)

Lemma SFcompare_antisym x y :
  SFcompare y x = option_map CompOpp (SFcompare x y).
Proof.
  destruct x as [sx|sx| |sx mx ex], y as [sy|sy| |sy my ey]; cbn;
    try reflexivity; try (destruct sx; reflexivity); try (destruct sy; reflexivity);
    try (destruct sx, sy; reflexivity).
  pose proof (Pos.compare_cont_antisym mx my Eq) as H. cbn [CompOpp] in H.
  rewrite (Z.compare_antisym ex ey), <- H.
  destruct sx, sy, (ex ?= ey); cbn; try reflexivity;
    destruct (Pos.compare_cont Eq mx my); reflexivity.
Qed.

Lemma SFcompare_refl x : x <> S754_nan -> SFcompare x x = Some Eq.
Proof.
  destruct x as [s|s| |s m e]; cbn; intros H; try congruence; try (destruct s; reflexivity).
  rewrite Z.compare_refl, Pos.compare_cont_refl. destruct s; reflexivity.
Qed.

Lemma SFcompare_nan x y :
  SFcompare x y = None <-> x = S754_nan \/ y = S754_nan.
Proof.
  destruct x as [sx|sx| |sx mx ex], y as [sy|sy| |sy my ey]; cbn;
    split; intros H; try discriminate; auto; destruct H; discriminate.
Qed.

Lemma is_nan_spec f :
  PrimFloat.is_nan f = match Prim2SF f with S754_nan => true | _ => false end.
Proof.
  unfold PrimFloat.is_nan. rewrite FloatAxioms.eqb_spec. unfold SFeqb.
  destruct (Prim2SF f) eqn:E; try (rewrite SFcompare_refl by discriminate; reflexivity).
  reflexivity.
Qed.

Lemma not_nan_Prim2SF f : PrimFloat.is_nan f = false <-> Prim2SF f <> S754_nan.
Proof. rewrite is_nan_spec. destruct (Prim2SF f); split; congruence. Qed.

Lemma leb_total a b :
  PrimFloat.is_nan a = false -> PrimFloat.is_nan b = false ->
  (a <=? b)%float = false -> (b <? a)%float = true.
Proof.
  rewrite !not_nan_Prim2SF, FloatAxioms.leb_spec, FloatAxioms.ltb_spec.
  unfold SFleb, SFltb. intros Ha Hb. rewrite (SFcompare_antisym (Prim2SF a) (Prim2SF b)).
  destruct (SFcompare (Prim2SF a) (Prim2SF b)) as [[]|] eqn:E; cbn; try congruence.
  apply SFcompare_nan in E. tauto.
Qed.

Lemma ltb_total a b :
  PrimFloat.is_nan a = false -> PrimFloat.is_nan b = false ->
  (a <? b)%float = false -> (b <=? a)%float = true.
Proof.
  rewrite !not_nan_Prim2SF, FloatAxioms.leb_spec, FloatAxioms.ltb_spec.
  unfold SFleb, SFltb. intros Ha Hb. rewrite (SFcompare_antisym (Prim2SF a) (Prim2SF b)).
  destruct (SFcompare (Prim2SF a) (Prim2SF b)) as [[]|] eqn:E; cbn; try congruence.
  apply SFcompare_nan in E. tauto.
Qed.

Lemma leb_refl a : PrimFloat.is_nan a = false -> (a <=? a)%float = true.
Proof.
  rewrite not_nan_Prim2SF, FloatAxioms.leb_spec. unfold SFleb. intros H.
  rewrite SFcompare_refl by assumption. reflexivity.
Qed.

Lemma ltb_irrefl a : (a <? a)%float = false.
Proof.
  rewrite FloatAxioms.ltb_spec. unfold SFltb.
  destruct (Prim2SF a) eqn:E; try (rewrite SFcompare_refl by discriminate; reflexivity).
  reflexivity.
Qed.

Lemma ltb_leb a b : (a <? b)%float = true -> (a <=? b)%float = true.
Proof.
  rewrite FloatAxioms.leb_spec, FloatAxioms.ltb_spec. unfold SFleb, SFltb.
  destruct (SFcompare (Prim2SF a) (Prim2SF b)) as [[]|]; congruence.
Qed.

Lemma leb_not_nan a b :
  (a <=? b)%float = true -> PrimFloat.is_nan a = false /\ PrimFloat.is_nan b = false.
Proof.
  rewrite FloatAxioms.leb_spec, !is_nan_spec. unfold SFleb.
  destruct (Prim2SF a), (Prim2SF b); cbn; intros H; try discriminate; auto.
Qed.

Lemma ltb_not_nan a b :
  (a <? b)%float = true -> PrimFloat.is_nan a = false /\ PrimFloat.is_nan b = false.
Proof. intros H. apply leb_not_nan, ltb_leb, H. Qed.

(** *** Order of finite floats *)

Lemma digits_lt p : Zpos p < 2 ^ Zpos (digits2_pos p).
Proof.
  induction p as [p IH|p IH|]; cbn [digits2_pos]; rewrite ?Pos2Z.inj_succ, ?Z.pow_succ_r by lia;
    try lia; reflexivity.
Qed.

Lemma bounded_inv m e :
  bounded prec emax m e = true ->
  emin <= e <= emax - prec /\ Zpos (digits2_pos m) <= prec /\
  (emin < e -> Zpos (digits2_pos m) = prec).
Proof.
  unfold bounded, canonical_mantissa, fexp. rewrite andb_true_iff, Z.eqb_eq, Z.leb_le.
  fsimp. lia.
Qed.

Lemma scaled_pos m e : emin <= e -> 0 < Zpos m * 2 ^ (e - emin).
Proof. intros. apply Z.mul_pos_pos; [lia | apply Z.pow_pos_nonneg; lia]. Qed.

Lemma scaled_lt m1 e1 m2 e2 :
  bounded prec emax m1 e1 = true -> bounded prec emax m2 e2 = true ->
  e1 < e2 -> Zpos m1 * 2 ^ (e1 - emin) < Zpos m2 * 2 ^ (e2 - emin).
Proof.
  intros H1 H2 He.
  apply bounded_inv in H1 as (He1 & Hd1 & _). apply bounded_inv in H2 as (He2 & _ & Hd2).
  specialize (Hd2 ltac:(lia)).
  pose proof (digits_lt m1) as Hm1. pose proof (digits_lower m2) as Hm2.
  rewrite Hd2 in Hm2.
  assert (Hp : 2 ^ Zpos (digits2_pos m1) <= 2 ^ prec) by (apply Z.pow_le_mono_r; lia).
  assert (Hm : Zpos m1 < 2 * Zpos m2).
  { change (2 ^ prec) with (2 * 2 ^ (prec - 1)) in Hp.
    set (P := 2 ^ (prec - 1)) in *. set (X := 2 ^ Zpos (digits2_pos m1)) in *. clearbody P X. lia. }
  assert (Hq : 0 < 2 ^ (e1 - emin)) by (apply Z.pow_pos_nonneg; lia).
  replace (e2 - emin) with ((e2 - e1 - 1) + 1 + (e1 - emin)) by lia.
  rewrite !Z.pow_add_r by lia.
  assert (Hr : 1 <= 2 ^ (e2 - e1 - 1)) by (apply (Z.pow_le_mono_r 2 0); lia).
  change (2 ^ 1) with 2.
  set (A := 2 ^ (e1 - emin)) in *. set (B := 2 ^ (e2 - e1 - 1)) in *. clearbody A B.
  assert (Zpos m1 * A < 2 * Zpos m2 * A) by (apply Z.mul_lt_mono_pos_r; lia).
  assert (2 * Zpos m2 * A * 1 <= 2 * Zpos m2 * A * B) by (apply Z.mul_le_mono_nonneg_l; lia).
  lia.
Qed.

Lemma SFcompare_scaled x y :
  valid_binary x = true -> valid_binary y = true ->
  SFfinite x = true -> SFfinite y = true ->
  SFcompare x y = Some (SFscaled x ?= SFscaled y).
Proof.
  destruct x as [sx|sx| |sx mx ex], y as [sy|sy| |sy my ey]; cbn [SFfinite];
    try discriminate; intros Vx Vy _ _; cbn [valid_binary] in Vx, Vy.
  - reflexivity.
  - pose proof (bounded_inv _ _ Vy) as (He & _).
    pose proof (scaled_pos my ey ltac:(lia)).
    cbn [SFcompare SFscaled]. f_equal. symmetry.
    destruct sy; cbn [cond_Zopp]; [apply Z.compare_gt_iff | apply Z.compare_lt_iff]; lia.
  - pose proof (bounded_inv _ _ Vx) as (He & _).
    pose proof (scaled_pos mx ex ltac:(lia)).
    cbn [SFcompare SFscaled]. f_equal. symmetry.
    destruct sx; cbn [cond_Zopp]; [apply Z.compare_lt_iff | apply Z.compare_gt_iff]; lia.
  - pose proof (bounded_inv _ _ Vx) as (Hex & _).
    pose proof (bounded_inv _ _ Vy) as (Hey & _).
    pose proof (scaled_pos mx ex ltac:(lia)).
    pose proof (scaled_pos my ey ltac:(lia)).
    cbn [SFcompare SFscaled]. f_equal. symmetry.
    destruct sx, sy; cbn [cond_Zopp].
    + rewrite Z.compare_opp.
      destruct (Z.compare_spec ex ey) as [->|Hlt|Hgt].
      * rewrite <- Zmult_compare_compat_r by (apply Z.lt_gt, Z.pow_pos_nonneg; lia).
        rewrite Pos.compare_cont_spec. cbn [Pos.switch_Eq].
        rewrite <- Pos2Z.inj_compare, (Pos.compare_antisym mx my).
        destruct (mx ?= my)%positive; reflexivity.
      * apply Z.compare_gt_iff. apply scaled_lt; assumption.
      * apply Z.compare_lt_iff. apply scaled_lt; assumption.
    + apply Z.compare_lt_iff. lia.
    + apply Z.compare_gt_iff. lia.
    + destruct (Z.compare_spec ex ey) as [->|Hlt|Hgt].
      * rewrite <- Zmult_compare_compat_r by (apply Z.lt_gt, Z.pow_pos_nonneg; lia).
        rewrite Pos.compare_cont_spec. cbn [Pos.switch_Eq].
        rewrite <- Pos2Z.inj_compare. destruct (mx ?= my)%positive; reflexivity.
      * apply Z.compare_lt_iff. apply scaled_lt; assumption.
      * apply Z.compare_gt_iff. apply scaled_lt; assumption.
Qed.

(** *** Integers as doubles *)

Lemma SFint_valid z : Z.abs z < 2 ^ 53 -> valid_binary (SFint z) = true.
Proof. intros Hz. rewrite <- Prim2SF_of_int by assumption. apply Prim2SF_valid. Qed.

Lemma SFint_finite_true z : SFfinite (SFint z) = true.
Proof. destruct z; reflexivity. Qed.

Lemma canon_shift p :
  Zpos (digits2_pos p) <= prec ->
  Z.of_nat (Z.to_nat (prec - Zpos (digits2_pos p))) = - (Zpos (digits2_pos p) - prec).
Proof. lia. Qed.

Lemma SFscaled_int z : Z.abs z < 2 ^ 53 -> SFscaled (SFint z) = z * 2 ^ (- emin).
Proof.
  intros Hz. destruct z as [|p|p]; [reflexivity| |];
    pose proof (digits_upper p 53 ltac:(lia) ltac:(lia)) as Hd;
    cbn [SFint canon SFscaled]; unfold canon; cbn [SFscaled cond_Zopp];
    rewrite shl_val, canon_shift by (fsimp; lia);
    rewrite <- Z.mul_assoc, <- Z.pow_add_r by (fsimp; lia);
    replace (- (Z.pos (digits2_pos p) - prec) + (Z.pos (digits2_pos p) - prec - emin))
      with (- emin) by lia; lia.
Qed.

Lemma of_int_compare a b :
  Z.abs a < 2 ^ 53 -> Z.abs b < 2 ^ 53 ->
  SFcompare (Prim2SF (Double.of_int a)) (Prim2SF (Double.of_int b)) = Some (a ?= b).
Proof.
  intros Ha Hb. rewrite !Prim2SF_of_int by assumption.
  rewrite SFcompare_scaled by (auto using SFint_valid, SFint_finite_true).
  rewrite !SFscaled_int by assumption.
  rewrite <- Zmult_compare_compat_r by reflexivity. reflexivity.
Qed.

Lemma of_int_ltb a b :
  Z.abs a < 2 ^ 53 -> Z.abs b < 2 ^ 53 ->
  (Double.of_int a <? Double.of_int b)%float = (a <? b).
Proof.
  intros. rewrite FloatAxioms.ltb_spec. unfold SFltb, Z.ltb.
  rewrite of_int_compare by assumption. reflexivity.
Qed.

Lemma of_int_leb a b :
  Z.abs a < 2 ^ 53 -> Z.abs b < 2 ^ 53 ->
  (Double.of_int a <=? Double.of_int b)%float = (a <=? b).
Proof.
  intros. rewrite FloatAxioms.leb_spec. unfold SFleb, Z.leb.
  rewrite of_int_compare by assumption. destruct (a ?= b); reflexivity.
Qed.

Lemma of_int_not_nan a : Z.abs a < 2 ^ 53 -> PrimFloat.is_nan (Double.of_int a) = false.
Proof. intros. rewrite is_nan_spec, Prim2SF_of_int by assumption. destruct a; reflexivity. Qed.

Lemma SFfloor_int z : Z.abs z < 2 ^ 53 -> Double.SFfloor (SFint z) = z.
Proof.
  intros Hz. destruct z as [|p|p]; [reflexivity| |];
    pose proof (digits_upper p 53 ltac:(lia) ltac:(lia)) as Hd;
    cbn [SFint]; unfold canon; cbn [Double.SFfloor];
    rewrite cond_Zopp_shl;
    replace (Z.pos (digits2_pos p) - prec)
      with (- Z.of_nat (Z.to_nat (prec - Z.pos (digits2_pos p)))) by (fsimp; lia);
    rewrite Z.shiftl_opp_r, Z.shiftr_div_pow2, Z.div_mul by lia; reflexivity.
Qed.

Lemma SFtrunc_int z : Z.abs z < 2 ^ 53 -> Double.SFtrunc (SFint z) = z.
Proof.
  intros Hz. destruct z as [|p|p]; [reflexivity| |];
    pose proof (digits_upper p 53 ltac:(lia) ltac:(lia)) as Hd;
    cbn [SFint]; unfold canon; cbn [Double.SFtrunc];
    rewrite shl_val;
    replace (Z.pos (digits2_pos p) - prec)
      with (- Z.of_nat (Z.to_nat (prec - Z.pos (digits2_pos p)))) by (fsimp; lia);
    rewrite Z.shiftl_opp_r, Z.shiftr_div_pow2, Z.div_mul by lia; reflexivity.
Qed.

Lemma int32_small t :
  Double.INT32_MIN <= t <= Double.INT32_MAX -> Z.abs (t - 1) < 2 ^ 53 /\ Z.abs t < 2 ^ 53.
Proof. unfold Double.INT32_MIN, Double.INT32_MAX. lia. Qed.

Lemma to_int32_of_int t :
  Double.INT32_MIN <= t <= Double.INT32_MAX -> Double.to_int32 (Double.of_int t) = Some t.
Proof.
  intros Ht. pose proof (int32_small t Ht) as [_ Hs].
  unfold Double.to_int32. rewrite Prim2SF_of_int by assumption.
  assert (Hc : (Double.INT32_MIN <=? t) && (t <=? Double.INT32_MAX) = true)
    by (apply andb_true_iff; split; apply Z.leb_le; lia).
  pose proof (SFtrunc_int t Hs) as Htr.
  destruct t as [|p|p]; cbn [SFint] in *; unfold canon in *; rewrite ?Htr, Hc; reflexivity.
Qed.

Lemma floor_of_int z : Z.abs z < 2 ^ 53 -> Double.floor (Double.of_int z) = Double.of_int z.
Proof.
  intros Hz. unfold Double.floor. rewrite Prim2SF_of_int by assumption.
  pose proof (SFfloor_int z Hz) as Hf.
  destruct z as [|p|p]; cbn [SFint] in *; [reflexivity| |]; unfold canon in *;
    destruct (0 <=? _); try reflexivity; rewrite Hf; reflexivity.
Qed.

(** *** Doubles that convert to [int32_t] *)

Lemma shiftl_neg a e : e < 0 -> Z.shiftl a e = a / 2 ^ (- e).
Proof. intros. rewrite <- Z.shiftr_opp_r, Z.shiftr_div_pow2 by lia. reflexivity. Qed.

(** A finite double without a fractional part is at least [2 ^ 52] in
    magnitude, so a double that converts has a negative exponent. *)
Lemma to_int32_finite y t s m e :
  Prim2SF y = S754_finite s m e -> Double.to_int32 y = Some t ->
  emin <= e < 0 /\ t = cond_Zopp s (Zpos m / 2 ^ (- e)).
Proof.
  intros Hy Ht. pose proof (Prim2SF_valid y) as Hv. rewrite Hy in Hv. cbn in Hv.
  apply bounded_inv in Hv as (He & Hd & Hn).
  unfold Double.to_int32 in Ht. rewrite Hy in Ht. cbn [Double.SFtrunc] in Ht.
  destruct (_ && _) eqn:Hr in Ht; [|discriminate]. injection Ht as <-.
  apply andb_true_iff in Hr as [Hlo Hhi]. apply Z.leb_le in Hlo, Hhi.
  destruct (Z.ltb_spec e 0) as [Hneg|Hpos].
  - split; [lia|]. f_equal. apply shiftl_neg; assumption.
  - exfalso. specialize (Hn ltac:(fsimp; lia)).
    pose proof (digits_lower m) as Hm. rewrite Hn in Hm. change (2 ^ (prec - 1)) with (2 ^ 52) in Hm.
    rewrite Z.shiftl_mul_pow2 in Hlo, Hhi by lia.
    assert (1 <= 2 ^ e) by (apply (Z.pow_le_mono_r 2 0); lia).
    assert (2 ^ 52 <= Zpos m * 2 ^ e) by nia.
    unfold Double.INT32_MIN, Double.INT32_MAX in *.
    destruct s; cbn [cond_Zopp] in *; lia.
Qed.

Lemma to_int32_zero y t s :
  Prim2SF y = S754_zero s -> Double.to_int32 y = Some t -> t = 0.
Proof.
  intros Hy Ht. unfold Double.to_int32 in Ht. rewrite Hy in Ht. cbn in Ht. congruence.
Qed.

Lemma to_int32_range y t :
  Double.to_int32 y = Some t -> Double.INT32_MIN <= t <= Double.INT32_MAX.
Proof.
  unfold Double.to_int32. intros H.
  destruct (Prim2SF y); try discriminate; cbv zeta in H;
    match type of H with (if ?c then _ else _) = _ => destruct c eqn:Hr end;
    try discriminate; injection H as <-;
    apply andb_true_iff in Hr as [Hlo Hhi]; apply Z.leb_le in Hlo, Hhi;
    cbn [Double.SFtrunc] in *; lia.
Qed.

(** The integer part rounded down is the truncation or one below it. *)
Lemma floor_trunc y t :
  Double.to_int32 y = Some t ->
  let F := Double.SFfloor (Prim2SF y) in
  (F = t \/ (F = t - 1 /\ t <= 0)) /\ (0 < t -> F = t) /\ (t = 0 -> F = 0 \/ F = -1).
Proof.
  intros Ht F. subst F. destruct (Prim2SF y) as [s|s| |s m e] eqn:Hy.
  - apply (to_int32_zero y t s Hy) in Ht. subst. cbn. lia.
  - unfold Double.to_int32 in Ht. rewrite Hy in Ht. discriminate.
  - unfold Double.to_int32 in Ht. rewrite Hy in Ht. discriminate.
  - destruct (to_int32_finite y t s m e Hy Ht) as (He & ->).
    cbn [Double.SFfloor]. rewrite !shiftl_neg by lia.
    assert (Hp : 0 < 2 ^ (- e)) by (apply Z.pow_pos_nonneg; lia).
    set (P := 2 ^ (- e)) in *. clearbody P.
    assert (0 <= Zpos m / P) by (apply Z.div_pos; lia).
    destruct s; cbn [cond_Zopp].
    + pose proof (Z.div_mod (Zpos m) P ltac:(lia)) as Hdm.
      pose proof (Z.mod_pos_bound (Zpos m) P Hp) as Hb.
      pose proof (Z.div_mod (- Zpos m) P ltac:(lia)) as Hdm'.
      pose proof (Z.mod_pos_bound (- Zpos m) P Hp) as Hb'.
      assert (- Zpos m / P = - (Zpos m / P) \/ - Zpos m / P = - (Zpos m / P) - 1) by nia.
      lia.
    + lia.
Qed.

Lemma floor_convertible y t :
  Double.to_int32 y = Some t -> t <> 0 ->
  Double.floor y = Double.of_int (Double.SFfloor (Prim2SF y)).
Proof.
  intros Ht Hnz. unfold Double.floor. destruct (Prim2SF y) as [s|s| |s m e] eqn:Hy.
  - apply (to_int32_zero y t s Hy) in Ht. contradiction.
  - unfold Double.to_int32 in Ht. rewrite Hy in Ht. discriminate.
  - unfold Double.to_int32 in Ht. rewrite Hy in Ht. discriminate.
  - destruct (to_int32_finite y t s m e Hy Ht) as (He & _).
    destruct (Z.leb_spec 0 e); [lia | reflexivity].
Qed.

(** One turn of the correction loop, on a double that converts to a
    non-zero [int32_t]. *)
Lemma floor_pred y t :
  Double.to_int32 y = Some t -> t <> 0 ->
  (Double.floor y - 1)%float = Double.of_int (Double.SFfloor (Prim2SF y) - 1).
Proof.
  intros Ht Hnz. rewrite (floor_convertible y t Ht Hnz).
  pose proof (to_int32_range y t Ht) as Hr.
  pose proof (floor_trunc y t Ht) as (HF & _). cbv zeta in HF.
  unfold Double.INT32_MIN, Double.INT32_MAX in Hr.
  change 1%float with (Double.of_int 1). apply sub_of_int; lia.
Qed.

(** Each turn of the correction loop strictly decreases the double. *)
Lemma floor_pred_ltb y t :
  Double.to_int32 y = Some t -> t <> 0 ->
  (Double.floor y - 1 <? y)%float = true.
Proof.
  intros Ht Hnz. rewrite (floor_pred y t Ht Hnz).
  pose proof (to_int32_range y t Ht) as Hr.
  pose proof (floor_trunc y t Ht) as (HF & _). cbv zeta in HF.
  unfold Double.INT32_MIN, Double.INT32_MAX in Hr.
  set (F := Double.SFfloor (Prim2SF y)) in *.
  assert (Hs : Z.abs (F - 1) < 2 ^ 53) by lia.
  rewrite FloatAxioms.ltb_spec. unfold SFltb.
  destruct (Prim2SF y) as [s|s| |s m e] eqn:Hy.
  - apply (to_int32_zero y t s Hy) in Ht. contradiction.
  - unfold Double.to_int32 in Ht. rewrite Hy in Ht. discriminate.
  - unfold Double.to_int32 in Ht. rewrite Hy in Ht. discriminate.
  - destruct (to_int32_finite y t s m e Hy Ht) as (He & _).
    pose proof (Prim2SF_valid y) as Hv. rewrite Hy in Hv.
    rewrite Prim2SF_of_int, SFcompare_scaled
      by (auto using SFint_valid, SFint_finite_true).
    rewrite SFscaled_int by assumption. cbn [SFscaled].
    enough (Hlt : (F - 1) * 2 ^ (- emin) < cond_Zopp s (Z.pos m * 2 ^ (e - emin)))
      by (apply Z.compare_lt_iff in Hlt; rewrite Hlt; reflexivity).
    subst F. cbn [Double.SFfloor]. rewrite shiftl_neg by lia.
    replace (- emin) with (- e + (e - emin)) by lia.
    rewrite Z.pow_add_r by lia.
    assert (Hp : 0 < 2 ^ (- e)) by (apply Z.pow_pos_nonneg; lia).
    assert (Hq : 0 < 2 ^ (e - emin)) by (apply Z.pow_pos_nonneg; lia).
    replace (cond_Zopp s (Z.pos m * 2 ^ (e - emin)))
      with (cond_Zopp s (Z.pos m) * 2 ^ (e - emin)) by (destruct s; cbn [cond_Zopp]; lia).
    pose proof (Z.mul_div_le (cond_Zopp s (Z.pos m)) (2 ^ (- e)) Hp) as Hle.
    set (P := 2 ^ (- e)) in *. set (Q := 2 ^ (e - emin)) in *.
    set (M := cond_Zopp s (Z.pos m)) in *. clearbody P Q M.
    rewrite Z.mul_assoc. apply Z.mul_lt_mono_pos_r; [assumption|]. lia.
Qed.

(** *** The correction loop *)

Lemma correct_y_aligned fuel y t :
  Double.to_int32 y = Some t -> Z.rem t 8 = 0 ->
  correct_y (S fuel) y = Returns y.
Proof. intros Ht Hr. cbn [correct_y]. rewrite Ht. cbn. rewrite Hr. reflexivity. Qed.

Lemma correct_y_step fuel y t :
  Double.to_int32 y = Some t -> Z.rem t 8 <> 0 ->
  correct_y (S fuel) y = correct_y fuel (Double.of_int (Double.SFfloor (Prim2SF y) - 1)).
Proof.
  intros Ht Hr. cbn [correct_y]. rewrite Ht. cbn [of_option bind].
  destruct (Z.eqb_spec (Z.rem t 8) 0); [contradiction|].
  rewrite (floor_pred y t Ht); [reflexivity|]. intros ->. apply Hr. reflexivity.
Qed.

Lemma correct_y_undefined fuel y :
  Double.to_int32 y = None -> correct_y (S fuel) y = Undefined.
Proof. intros H. cbn [correct_y]. rewrite H. reflexivity. Qed.

(** From an integer the loop counts down to the multiple of 8 below it. *)
Lemma correct_y_int fuel : forall n,
  Double.INT32_MIN <= n <= Double.INT32_MAX -> n mod 8 < Z.of_nat fuel ->
  correct_y fuel (Double.of_int n) = Returns (Double.of_int (8 * (n / 8))).
Proof.
  induction fuel as [|fuel IH]; intros n Hn Hf.
  - pose proof (Z.mod_pos_bound n 8 ltac:(lia)). lia.
  - pose proof (Z.mod_pos_bound n 8 ltac:(lia)) as Hm.
    pose proof (Z.div_mod n 8 ltac:(lia)) as Hd.
    pose proof (to_int32_of_int n Hn) as Ht.
    destruct (Z.eq_dec (n mod 8) 0) as [H0|H0].
    + rewrite (correct_y_aligned fuel _ n Ht) by (apply Z.rem_mod_eq_0; lia).
      f_equal. f_equal. lia.
    + rewrite (correct_y_step fuel _ n Ht) by (rewrite Z.rem_mod_eq_0; lia).
      assert (Hs : Z.abs n < 2 ^ 53) by (apply int32_small in Hn; lia).
      rewrite Prim2SF_of_int, SFfloor_int by assumption.
      assert (Hq : (n - 1) / 8 = n / 8 /\ (n - 1) mod 8 = n mod 8 - 1).
      { assert (Hu : n - 1 = 8 * (n / 8) + (n mod 8 - 1)) by lia.
        pose proof (Z.div_mod_unique 8 ((n - 1) / 8) (n / 8) ((n - 1) mod 8) (n mod 8 - 1)) as U.
        pose proof (Z.mod_pos_bound (n - 1) 8 ltac:(lia)).
        pose proof (Z.div_mod (n - 1) 8 ltac:(lia)).
        apply U; [left; lia | left; lia | lia]. }
      destruct Hq as [Hq Hr]. rewrite <- Hq. apply IH.
      * unfold Double.INT32_MIN, Double.INT32_MAX in *. 
        change (- 2 ^ 31) with (8 * (- 2 ^ 28)) in Hn. lia.
      * lia.
Qed.

(** Nine turns are always enough: with that much fuel the loop has returned
    or has run into an undefined conversion, and more fuel changes nothing. *)
Lemma correct_y_fuel fuel y :
  (9 <= fuel)%nat ->
  correct_y fuel y = correct_y 9 y /\ correct_y fuel y <> OutOfFuel.
Proof.
  intros Hfuel. destruct fuel as [|fuel]; [lia|].
  destruct (Double.to_int32 y) as [t|] eqn:Ht.
  - destruct (Z.eq_dec (Z.rem t 8) 0) as [Hrem|Hrem].
    + rewrite !(correct_y_aligned _ y t Ht Hrem). split; [reflexivity|discriminate].
    + rewrite !(correct_y_step _ y t Ht Hrem).
      pose proof (to_int32_range y t Ht) as Hr.
      pose proof (floor_trunc y t Ht) as (HF & _). cbv zeta in HF.
      set (n := Double.SFfloor (Prim2SF y) - 1) in *.
      pose proof (Z.mod_pos_bound n 8 ltac:(lia)) as Hm.
      destruct (Z.le_gt_cases Double.INT32_MIN n) as [Hn|Hn].
      * rewrite !correct_y_int by lia. split; [reflexivity|discriminate].
      * assert (Hc : n = -2147483649 \/ n = -2147483650)
          by (unfold Double.INT32_MIN in *; lia).
        destruct fuel as [|fuel]; [lia|].
        destruct Hc as [-> | ->];
          rewrite !correct_y_undefined by (vm_compute; reflexivity);
          (split; [reflexivity|discriminate]).
  - rewrite !correct_y_undefined by assumption. split; [reflexivity|discriminate].
Qed.

(** *** Transitivity *)

Lemma SFcompare_lt_le_trans x y z :
  valid_binary x = true -> valid_binary y = true -> valid_binary z = true ->
  SFcompare x y = Some Lt ->
  SFcompare y z = Some Lt \/ SFcompare y z = Some Eq ->
  SFcompare x z = Some Lt.
Proof.
  intros Vx Vy Vz Hxy Hyz.
  destruct (SFfinite x && SFfinite y && SFfinite z) eqn:F.
  - apply andb_true_iff in F as [F Fz]. apply andb_true_iff in F as [Fx Fy].
    rewrite (SFcompare_scaled x y) in Hxy by assumption.
    rewrite (SFcompare_scaled y z) in Hyz by assumption.
    rewrite (SFcompare_scaled x z) by assumption.
    injection Hxy as Hxy. rewrite Z.compare_lt_iff in Hxy.
    f_equal. apply Z.compare_lt_iff.
    destruct Hyz as [Hyz|Hyz]; injection Hyz as Hyz;
      [rewrite Z.compare_lt_iff in Hyz | rewrite Z.compare_eq_iff in Hyz]; lia.
  - destruct x as [[]|[]| |[] mx ex], y as [[]|[]| |[] my ey], z as [[]|[]| |[] mz ez];
      cbn in F; try discriminate F; cbn in Hxy, Hyz |- *;
      try discriminate Hxy; try (destruct Hyz; discriminate); reflexivity.
Qed.

Lemma ltb_leb_trans a b c :
  (a <? b)%float = true -> (b <=? c)%float = true -> (a <? c)%float = true.
Proof.
  rewrite !FloatAxioms.ltb_spec, FloatAxioms.leb_spec. unfold SFltb, SFleb.
  intros Hab Hbc.
  rewrite (SFcompare_lt_le_trans (Prim2SF a) (Prim2SF b) (Prim2SF c));
    auto using Prim2SF_valid.
  - destruct (SFcompare (Prim2SF a) (Prim2SF b)) as [[]|]; congruence.
  - destruct (SFcompare (Prim2SF b) (Prim2SF c)) as [[]|]; auto; discriminate.
Qed.

Lemma ltb_asym a b : (a <? b)%float = true -> (b <? a)%float = false.
Proof.
  rewrite !FloatAxioms.ltb_spec. unfold SFltb.
  rewrite (SFcompare_antisym (Prim2SF a) (Prim2SF b)).
  destruct (SFcompare (Prim2SF a) (Prim2SF b)) as [[]|]; cbn; congruence.
Qed.

(** *** Where NaN can come from *)

Lemma shr_1_nonneg mrs : 0 <= shr_m mrs -> 0 <= shr_m (shr_1 mrs).
Proof. destruct mrs as [[|[p|p|]|p] r s]; cbn; lia. Qed.

Lemma shr_nonneg mrs e n : 0 <= shr_m mrs -> 0 <= shr_m (fst (shr mrs e n)).
Proof.
  intros H. destruct n as [|p|p]; cbn [shr fst]; try assumption.
  rewrite iter_pos_nat. induction (Pos.to_nat p) as [|k IH].
  - assumption.
  - rewrite Nat.iter_succ. apply shr_1_nonneg, IH.
Qed.

Lemma shr_fexp_nonneg m e l : 0 <= m -> 0 <= shr_m (fst (shr_fexp prec emax m e l)).
Proof.
  intros H. unfold shr_fexp. apply shr_nonneg.
  destruct l as [|[]]; cbn; assumption.
Qed.

Lemma round_nearest_even_nonneg m l : 0 <= m -> 0 <= round_nearest_even m l.
Proof. destruct l as [|[]]; cbn; try lia. destruct (Z.even m); lia. Qed.

Lemma binary_round_aux_not_nan s m e l :
  0 <= m -> binary_round_aux prec emax s m e l <> S754_nan.
Proof.
  intros H. unfold binary_round_aux.
  pose proof (shr_fexp_nonneg m e l H) as H1.
  destruct (shr_fexp prec emax m e l) as [mrs' e'] eqn:E1. cbn [fst] in H1.
  pose proof (shr_fexp_nonneg _ e' loc_Exact
                (round_nearest_even_nonneg _ (loc_of_shr_record mrs') H1)) as H2.
  destruct (shr_fexp prec emax _ e' loc_Exact) as [mrs'' e''] eqn:E2. cbn [fst] in H2.
  destruct (shr_m mrs'') as [|p|p]; try discriminate; try lia.
  destruct (e'' <=? emax - prec); discriminate.
Qed.

Lemma binary_normalize_not_nan m e : binary_normalize prec emax m e false <> S754_nan.
Proof.
  destruct m as [|p|p]; cbn [binary_normalize]; try discriminate;
    unfold binary_round; destruct (shl_align _ _ _) as [mz ez];
    apply binary_round_aux_not_nan; lia.
Qed.

(** Sums, differences and products of finite doubles are not NaN (they may
    be infinite). *)
Lemma finite_arith_not_nan a b :
  SFfinite (Prim2SF a) = true -> SFfinite (Prim2SF b) = true ->
  PrimFloat.is_nan (a + b) = false /\ PrimFloat.is_nan (a - b) = false /\
  PrimFloat.is_nan (a * b) = false.
Proof.
  intros Ha Hb.
  rewrite !not_nan_Prim2SF, FloatAxioms.add_spec, FloatAxioms.sub_spec, FloatAxioms.mul_spec.
  destruct (Prim2SF a) as [sa|sa| |sa ma ea], (Prim2SF b) as [sb|sb| |sb mb eb];
    try discriminate; repeat split; cbn;
    try (destruct sa, sb; discriminate); try discriminate;
    try apply binary_normalize_not_nan;
    apply binary_round_aux_not_nan; lia.
Qed.

(** Adding to, or subtracting from, a finite double anything but NaN gives no
    NaN either. *)
Lemma finite_plus_not_nan a b :
  SFfinite (Prim2SF a) = true -> PrimFloat.is_nan b = false ->
  PrimFloat.is_nan (a + b) = false /\ PrimFloat.is_nan (a - b) = false.
Proof.
  intros Ha Hb. rewrite not_nan_Prim2SF in Hb.
  destruct (SFfinite (Prim2SF b)) eqn:Fb.
  - destruct (finite_arith_not_nan a b Ha Fb) as (H1 & H2 & _). auto.
  - rewrite !not_nan_Prim2SF, FloatAxioms.add_spec, FloatAxioms.sub_spec.
    destruct (Prim2SF a) as [sa|sa| |sa ma ea], (Prim2SF b) as [sb|sb| |sb mb eb];
      try discriminate; try congruence; split; cbn; discriminate.
Qed.

(** A product is NaN only if a factor is NaN or it is zero times infinity. *)
Lemma positive_times_not_nan a b :
  (0 <? a)%float = true -> (0 <=? b)%float = true ->
  SFfinite (Prim2SF a) = true ->
  PrimFloat.is_nan (a * b) = false.
Proof.
  rewrite FloatAxioms.ltb_spec, FloatAxioms.leb_spec, not_nan_Prim2SF, FloatAxioms.mul_spec.
  change (Prim2SF 0) with (S754_zero false). unfold SFltb, SFleb.
  destruct (Prim2SF a) as [sa|sa| |sa ma ea], (Prim2SF b) as [sb|sb| |sb mb eb];
    cbn; try discriminate; intros _ _ _; apply binary_round_aux_not_nan; lia.
Qed.

(** *** Rounding never goes below the grid point under the exact value *)

Lemma shr_1_div2 mrs : 0 <= shr_m mrs -> shr_m (shr_1 mrs) = shr_m mrs / 2.
Proof.
  destruct mrs as [[|[p|p|]|p] r s]; cbn [shr_1 shr_m]; intros H; try lia.
  - reflexivity.
  - rewrite Pos2Z.inj_xI. apply (Z.div_unique _ 2 _ 1); lia.
  - rewrite Pos2Z.inj_xO. apply (Z.div_unique _ 2 _ 0); lia.
  - reflexivity.
Qed.

Lemma shr_iter_div k mrs :
  0 <= shr_m mrs -> shr_m (Nat.iter k shr_1 mrs) = shr_m mrs / 2 ^ Z.of_nat k.
Proof.
  intros H. induction k as [|k IH].
  - cbn. rewrite Z.div_1_r. reflexivity.
  - assert (Hp : 0 < 2 ^ Z.of_nat k) by (apply Z.pow_pos_nonneg; lia).
    assert (Hk : 0 <= shr_m (Nat.iter k shr_1 mrs))
      by (rewrite IH; apply Z.div_pos; lia).
    rewrite Nat.iter_succ, (shr_1_div2 _ Hk), IH, Nat2Z.inj_succ, Z.pow_succ_r by lia.
    rewrite Z.div_div by lia. f_equal. lia.
Qed.

Lemma shr_spec mrs e n :
  0 <= shr_m mrs ->
  shr_m (fst (shr mrs e n)) = shr_m mrs / 2 ^ Z.max 0 n /\
  snd (shr mrs e n) = e + Z.max 0 n.
Proof.
  intros H. destruct n as [|p|p]; cbn [shr fst snd].
  - cbn. rewrite Z.div_1_r. lia.
  - rewrite iter_pos_nat, shr_iter_div, positive_nat_Z by assumption.
    rewrite Z.max_r by lia. split; reflexivity.
  - rewrite Z.max_l by lia. cbn. rewrite Z.div_1_r. lia.
Qed.

Lemma shr_fexp_spec m e l :
  0 <= m ->
  let k := Z.max 0 (fexp prec emax (Zdigits2 m + e) - e) in
  shr_m (fst (shr_fexp prec emax m e l)) = m / 2 ^ k /\
  snd (shr_fexp prec emax m e l) = e + k.
Proof.
  intros H k. unfold shr_fexp.
  assert (Hm : shr_m (shr_record_of_loc m l) = m) by (destruct l as [|[]]; reflexivity).
  rewrite <- Hm at 3. apply shr_spec. rewrite Hm. assumption.
Qed.

Lemma round_nearest_even_bounds m l :
  m <= round_nearest_even m l <= m + 1.
Proof. destruct l as [|[]]; cbn; try lia. destruct (Z.even m); lia. Qed.

Lemma Zdigits2_lower m : 0 < m -> 2 ^ (Zdigits2 m - 1) <= m.
Proof. destruct m as [|p|p]; try lia. intros _. apply digits_lower. Qed.

Lemma Zdigits2_upper m : 0 < m -> m < 2 ^ Zdigits2 m.
Proof. destruct m as [|p|p]; try lia. intros _. apply digits_lt. Qed.

Lemma Zdigits2_le m n : 0 < m -> 0 <= n -> m < 2 ^ n -> Zdigits2 m <= n.
Proof. destruct m as [|p|p]; try lia. intros _. apply digits_upper. Qed.

(** The result of rounding a positive mantissa [n] at exponent [e >= emin]
    is plus infinity or a finite float that is not below the exact value
    rounded down to the grid of the target exponent. *)
Lemma binary_round_aux_lower n e :
  emin <= e ->
  let k := Z.max 0 (fexp prec emax (Zpos (digits2_pos n) + e) - e) in
  let r := binary_round_aux prec emax false (Zpos n) e loc_Exact in
  r = S754_infinity false \/
  (SFfinite r = true /\ (Zpos n / 2 ^ k) * 2 ^ (e + k - emin) <= SFscaled r).
Proof.
  intros He k r. subst r. unfold binary_round_aux.
  pose proof (shr_fexp_spec (Zpos n) e loc_Exact ltac:(lia)) as [Hq He'].
  cbn [Zdigits2] in Hq, He'. fold k in Hq, He'.
  destruct (shr_fexp prec emax (Zpos n) e loc_Exact) as [mrs' e'] eqn:E1.
  cbn [fst snd] in Hq, He'. subst e'.
  set (q := Zpos n / 2 ^ k) in *.
  assert (Hk : 0 <= k) by (subst k; lia).
  assert (Hq0 : 0 <= q) by (apply Z.div_pos; [lia | apply Z.pow_pos_nonneg; lia]).
  assert (Hq53 : q < 2 ^ 53).
  { subst q. apply Z.div_lt_upper_bound; [apply Z.pow_pos_nonneg; lia|].
    rewrite <- Z.pow_add_r by lia.
    pose proof (digits_lt n) as Hn.
    assert (2 ^ Zpos (digits2_pos n) <= 2 ^ (k + 53)); [|lia].
    apply Z.pow_le_mono_r; [lia|]. subst k. unfold fexp. fsimp. lia. }
  pose proof (round_nearest_even_bounds q (loc_of_shr_record mrs')) as Hm1.
  rewrite Hq. set (m1 := round_nearest_even q (loc_of_shr_record mrs')) in *.
  pose proof (shr_fexp_spec m1 (e + k) loc_Exact ltac:(lia)) as [Hm2 He''].
  destruct (shr_fexp prec emax m1 (e + k) loc_Exact) as [mrs'' e''] eqn:E2.
  cbn [fst snd] in Hm2, He''. subst e''.
  set (j := Z.max 0 (fexp prec emax (Zdigits2 m1 + (e + k)) - (e + k))) in *.
  assert (Hj : 0 <= j) by (subst j; lia).
  assert (Hgrid : q <= (m1 / 2 ^ j) * 2 ^ j).
  { destruct (Z.eq_dec j 0) as [-> | Hj0].
    - cbn. rewrite Z.div_1_r. lia.
    - assert (Hd : 53 < Zdigits2 m1) by (subst j; unfold fexp in *; fsimp; lia).
      assert (Hpos : 0 < m1) by (destruct m1; cbn in Hd; lia).
      pose proof (Zdigits2_lower m1 Hpos) as Hlow.
      assert (2 ^ 53 <= 2 ^ (Zdigits2 m1 - 1)) by (apply Z.pow_le_mono_r; lia).
      assert (Hm : m1 = 2 ^ 53) by lia.
      assert (Hj1 : j = 1).
      { subst j. rewrite Hm. change (Zdigits2 (2 ^ 53)) with 54.
        unfold fexp. fsimp. lia. }
      rewrite Hj1, Hm. change (2 ^ 53 / 2 ^ 1 * 2 ^ 1) with (2 ^ 53). lia. }
  rewrite Hm2.
  assert (Hscale : q * 2 ^ (e + k - emin) <= (m1 / 2 ^ j) * 2 ^ (e + k + j - emin)).
  { replace (e + k + j - emin) with (j + (e + k - emin)) by lia.
    rewrite Z.pow_add_r, Z.mul_assoc by lia.
    apply Z.mul_le_mono_nonneg_r; [apply Z.pow_nonneg; lia | assumption]. }
  destruct (m1 / 2 ^ j) as [|p|p] eqn:Em2.
  - right. split; [reflexivity|]. cbn [SFscaled]. lia.
  - destruct (e + k + j <=? emax - prec); [right | left; reflexivity].
    split; [reflexivity|]. cbn [SFscaled cond_Zopp]. exact Hscale.
  - exfalso. assert (0 <= m1 / 2 ^ j); [|lia].
    apply Z.div_pos; [lia | apply Z.pow_pos_nonneg; lia].
Qed.

Lemma binary_round_lower n e :
  emin <= e ->
  let c := Z.max e (fexp prec emax (Zpos (digits2_pos n) + e)) in
  let r := binary_round prec emax false n e in
  r = S754_infinity false \/
  (SFfinite r = true /\
   (Zpos n * 2 ^ (e - emin) / 2 ^ (c - emin)) * 2 ^ (c - emin) <= SFscaled r).
Proof.
  intros He c r. subst r. unfold binary_round, shl_align.
  set (c0 := fexp prec emax (Zpos (digits2_pos n) + e)) in *.
  assert (Hc0 : emin <= c0) by (subst c0; unfold fexp; lia).
  destruct (c0 - e) as [|j|j] eqn:Hj.
  - pose proof (binary_round_aux_lower n e He) as H. cbv zeta in H. fold c0 in H.
    rewrite Hj in H. cbn [Z.max] in H. rewrite Z.div_1_r, Z.add_0_r in H.
    replace c with e by lia. rewrite Z.div_mul by (apply Z.pow_nonzero; lia). exact H.
  - pose proof (binary_round_aux_lower n e He) as H. cbv zeta in H. fold c0 in H.
    rewrite Hj in H. rewrite Z.max_r in H by lia.
    replace c with c0 by lia.
    replace (c0 - emin) with (Zpos j + (e - emin)) by lia.
    rewrite Z.pow_add_r, Z.div_mul_cancel_r by (try apply Z.pow_nonzero; lia).
    rewrite <- Z.pow_add_r by lia.
    replace (Zpos j + (e - emin)) with (e + Zpos j - emin) by lia. exact H.
  - rewrite shl_pos_iter.
    pose proof (binary_round_aux_lower (shl n (Pos.to_nat j)) c0 Hc0) as H. cbv zeta in H.
    rewrite shl_digits in H.
    replace (Z.pos (digits2_pos n) + Z.of_nat (Pos.to_nat j) + c0)
      with (Zpos (digits2_pos n) + e) in H by lia.
    fold c0 in H. rewrite Z.sub_diag in H. cbn [Z.max] in H.
    rewrite Z.div_1_r, Z.add_0_r, shl_val in H.
    replace c with e by lia. rewrite Z.div_mul by (apply Z.pow_nonzero; lia).
    rewrite <- Z.mul_assoc, <- Z.pow_add_r in H by lia.
    replace (Z.of_nat (Pos.to_nat j) + (c0 - emin)) with (e - emin) in H by lia.
    rewrite shl_val. exact H.
Qed.

(** A float at or below the exact value is at or below that grid point. *)
Lemma grid_floor_ge mx cx n e :
  bounded prec emax mx cx = true -> emin <= e ->
  Zpos mx * 2 ^ (cx - emin) <= Zpos n * 2 ^ (e - emin) ->
  let c := Z.max e (fexp prec emax (Zpos (digits2_pos n) + e)) in
  Zpos mx * 2 ^ (cx - emin)
  <= (Zpos n * 2 ^ (e - emin) / 2 ^ (c - emin)) * 2 ^ (c - emin).
Proof.
  intros Hb He Hle c.
  apply bounded_inv in Hb as (Hcx & Hdx & _).
  set (V := Zpos n * 2 ^ (e - emin)) in *.
  assert (HG : 0 < 2 ^ (c - emin)) by (apply Z.pow_pos_nonneg; lia).
  destruct (Z.le_gt_cases (fexp prec emax (Zpos (digits2_pos n) + e)) e) as [Hc|Hc].
  - replace c with e by lia. subst V.
    rewrite Z.div_mul by (apply Z.pow_nonzero; lia). assumption.
  - assert (Ec : c = Zpos (digits2_pos n) + e - prec) by (subst c; unfold fexp in *; lia).
    assert (HV : 2 ^ 52 * 2 ^ (c - emin) <= V).
    { subst V. rewrite <- Z.pow_add_r by lia.
      replace (52 + (c - emin)) with ((Zpos (digits2_pos n) - 1) + (e - emin))
        by (rewrite Ec; fsimp; lia).
      rewrite Z.pow_add_r by lia.
      apply Z.mul_le_mono_nonneg_r; [apply Z.pow_nonneg; lia | apply digits_lower]. }
    destruct (Z.le_gt_cases c cx) as [Hge|Hlt].
    + replace (cx - emin) with ((cx - c) + (c - emin)) in * by lia.
      rewrite Z.pow_add_r, Z.mul_assoc in * by lia.
      apply Z.mul_le_mono_nonneg_r; [lia|].
      apply Z.div_le_lower_bound; lia.
    + assert (Hx : Zpos mx * 2 ^ (cx - emin) < 2 ^ 52 * 2 ^ (c - emin)).
      { rewrite <- Z.pow_add_r by lia.
        pose proof (digits_lt mx) as Hm.
        assert (Hp : 2 ^ Zpos (digits2_pos mx) * 2 ^ (cx - emin) <= 2 ^ (52 + (c - emin))).
        { rewrite <- Z.pow_add_r by lia. apply Z.pow_le_mono_r; [lia|]. fsimp. lia. }
        assert (0 < 2 ^ (cx - emin)) by (apply Z.pow_pos_nonneg; lia).
        nia. }
      assert (2 ^ 52 <= V / 2 ^ (c - emin)) by (apply Z.div_le_lower_bound; lia).
      assert (2 ^ 52 * 2 ^ (c - emin) <= V / 2 ^ (c - emin) * 2 ^ (c - emin))
        by (apply Z.mul_le_mono_nonneg_r; lia).
      lia.
Qed.

Lemma shl_align_val m e e' :
  e' <= e -> Zpos (fst (shl_align m e e')) = Zpos m * 2 ^ (e - e').
Proof.
  intros H. unfold shl_align. destruct (e' - e) as [|j|j] eqn:Hj; cbn [fst]; try lia.
  - replace (e - e') with 0 by lia. lia.
  - rewrite shl_pos_iter, shl_val, positive_nat_Z. f_equal. f_equal. lia.
Qed.

(** Adding a non-negative double to a positive finite double does not make
    it smaller. *)
Lemma add_nonneg_ge x d :
  (0 <? x)%float = true -> SFfinite (Prim2SF x) = true -> (0 <=? d)%float = true ->
  (x <=? x + d)%float = true.
Proof.
  intros Hx Fx Hd.
  pose proof (Prim2SF_valid x) as Vx. pose proof (Prim2SF_valid d) as Vd.
  pose proof (Prim2SF_valid (x + d)) as Vr.
  rewrite FloatAxioms.ltb_spec in Hx. rewrite FloatAxioms.leb_spec in Hd |- *.
  rewrite FloatAxioms.add_spec in Vr |- *.
  change (Prim2SF 0) with (S754_zero false) in *. unfold SFltb, SFleb in *.
  destruct (Prim2SF x) as [sx|sx| |[] mx ex]; try discriminate.
  destruct (Prim2SF d) as [sd|[]| |[] md ed]; try discriminate.
  - cbn [SF64add SFadd]. rewrite SFcompare_refl by discriminate. reflexivity.
  - reflexivity.
  - cbn [valid_binary] in Vx, Vd.
    pose proof (bounded_inv _ _ Vx) as (Hex & _). pose proof (bounded_inv _ _ Vd) as (Hed & _).
    unfold SF64add, SFadd in *. cbn [cond_Zopp] in *.
    set (ez := Z.min ex ed) in *.
    set (X := fst (shl_align mx ex ez)) in *. set (D := fst (shl_align md ed ez)) in *.
    change (Zpos X + Zpos D) with (Zpos (X + D)) in *. cbn [binary_normalize] in *.
    assert (Hez : emin <= ez) by (subst ez; lia).
    pose proof (binary_round_lower (X + D) ez Hez) as Hlow. cbv zeta in Hlow.
    assert (HX : Zpos mx * 2 ^ (ex - emin) <= Zpos (X + D) * 2 ^ (ez - emin)).
    { replace (ex - emin) with ((ex - ez) + (ez - emin)) by lia.
      rewrite Z.pow_add_r, Z.mul_assoc by (subst ez; lia).
      rewrite <- (shl_align_val mx ex ez) by (subst ez; lia). fold X.
      apply Z.mul_le_mono_nonneg_r; [apply Z.pow_nonneg; lia | lia]. }
    pose proof (grid_floor_ge mx ex (X + D) ez Vx Hez HX) as Hgrid. cbv zeta in Hgrid.
    destruct Hlow as [-> | [Fr Hr]]; [reflexivity|].
    rewrite SFcompare_scaled by auto.
    change (SFscaled (S754_finite false mx ex)) with (Zpos mx * 2 ^ (ex - emin)).
    destruct (Z.compare_spec (Zpos mx * 2 ^ (ex - emin))
                (SFscaled (binary_round prec emax false (X + D) ez))); try reflexivity.
    lia.
Qed.

Lemma binary_round_aux_sign s m e l :
  0 <= m ->
  match binary_round_aux prec emax s m e l with
  | S754_zero s' | S754_infinity s' | S754_finite s' _ _ => s' = s
  | S754_nan => False
  end.
Proof.
  intros H. pose proof (binary_round_aux_not_nan s m e l H) as Hn.
  unfold binary_round_aux in *.
  destruct (shr_fexp prec emax m e l) as [mrs' e'].
  destruct (shr_fexp prec emax _ e' loc_Exact) as [mrs'' e''].
  destruct (shr_m mrs'') as [|p|p]; try reflexivity; try congruence.
  destruct (e'' <=? emax - prec); reflexivity.
Qed.

(** A positive finite double times a non-negative double is non-negative. *)
Lemma mul_nonneg a b :
  (0 <? a)%float = true -> SFfinite (Prim2SF a) = true -> (0 <=? b)%float = true ->
  (0 <=? a * b)%float = true.
Proof.
  rewrite FloatAxioms.ltb_spec, !FloatAxioms.leb_spec, FloatAxioms.mul_spec.
  change (Prim2SF 0) with (S754_zero false). unfold SFltb, SFleb.
  destruct (Prim2SF a) as [sa|sa| |[] ma ea]; try discriminate.
  destruct (Prim2SF b) as [sb|[]| |[] mb eb]; try discriminate; intros _ _ _;
    try reflexivity.
  unfold SF64mul, SFmul. cbn [xorb].
  pose proof (binary_round_aux_sign false (Zpos (ma * mb)) (ea + eb) loc_Exact ltac:(lia)) as Hs.
  destruct (binary_round_aux prec emax false (Zpos (ma * mb)) (ea + eb) loc_Exact)
    as [s|s| |s m e]; try contradiction; subst; reflexivity.
Qed.

(** *** More on the order *)

Lemma SFcompare_le_lt_trans x y z :
  valid_binary x = true -> valid_binary y = true -> valid_binary z = true ->
  SFcompare x y = Some Lt \/ SFcompare x y = Some Eq ->
  SFcompare y z = Some Lt ->
  SFcompare x z = Some Lt.
Proof.
  intros Vx Vy Vz Hxy Hyz.
  destruct (SFfinite x && SFfinite y && SFfinite z) eqn:F.
  - apply andb_true_iff in F as [F Fz]. apply andb_true_iff in F as [Fx Fy].
    rewrite (SFcompare_scaled x y) in Hxy by assumption.
    rewrite (SFcompare_scaled y z) in Hyz by assumption.
    rewrite (SFcompare_scaled x z) by assumption.
    injection Hyz as Hyz. rewrite Z.compare_lt_iff in Hyz.
    f_equal. apply Z.compare_lt_iff.
    destruct Hxy as [Hxy|Hxy]; injection Hxy as Hxy;
      [rewrite Z.compare_lt_iff in Hxy | rewrite Z.compare_eq_iff in Hxy]; lia.
  - destruct x as [[]|[]| |[] mx ex], y as [[]|[]| |[] my ey], z as [[]|[]| |[] mz ez];
      cbn in F; try discriminate F; cbn in Hxy, Hyz |- *;
      try discriminate Hyz; try (destruct Hxy; discriminate); reflexivity.
Qed.

Lemma SFcompare_le_le_trans x y z :
  valid_binary x = true -> valid_binary y = true -> valid_binary z = true ->
  SFcompare x y = Some Lt \/ SFcompare x y = Some Eq ->
  SFcompare y z = Some Lt \/ SFcompare y z = Some Eq ->
  SFcompare x z = Some Lt \/ SFcompare x z = Some Eq.
Proof.
  intros Vx Vy Vz Hxy [Hyz|Hyz].
  - left. apply (SFcompare_le_lt_trans x y z); assumption.
  - destruct Hxy as [Hxy|Hxy].
    + left. apply (SFcompare_lt_le_trans x y z); auto.
    + right. destruct (SFfinite x && SFfinite y && SFfinite z) eqn:F.
      * apply andb_true_iff in F as [F Fz]. apply andb_true_iff in F as [Fx Fy].
        rewrite (SFcompare_scaled x y) in Hxy by assumption.
        rewrite (SFcompare_scaled y z) in Hyz by assumption.
        rewrite (SFcompare_scaled x z) by assumption.
        injection Hxy as Hxy. injection Hyz as Hyz.
        rewrite Z.compare_eq_iff in Hxy, Hyz. f_equal. apply Z.compare_eq_iff. lia.
      * destruct x as [[]|[]| |[] mx ex], y as [[]|[]| |[] my ey], z as [[]|[]| |[] mz ez];
          cbn in F; try discriminate F; cbn in Hxy, Hyz |- *;
          try discriminate Hyz; try discriminate Hxy; reflexivity.
Qed.

Lemma leb_ltb_trans a b c :
  (a <=? b)%float = true -> (b <? c)%float = true -> (a <? c)%float = true.
Proof.
  rewrite !FloatAxioms.ltb_spec, FloatAxioms.leb_spec. unfold SFltb, SFleb.
  intros Hab Hbc.
  rewrite (SFcompare_le_lt_trans (Prim2SF a) (Prim2SF b) (Prim2SF c));
    auto using Prim2SF_valid.
  - destruct (SFcompare (Prim2SF a) (Prim2SF b)) as [[]|]; auto; discriminate.
  - destruct (SFcompare (Prim2SF b) (Prim2SF c)) as [[]|]; congruence.
Qed.

Lemma leb_trans a b c :
  (a <=? b)%float = true -> (b <=? c)%float = true -> (a <=? c)%float = true.
Proof.
  rewrite !FloatAxioms.leb_spec. unfold SFleb. intros Hab Hbc.
  destruct (SFcompare_le_le_trans (Prim2SF a) (Prim2SF b) (Prim2SF c)) as [H|H];
    auto using Prim2SF_valid.
  - destruct (SFcompare (Prim2SF a) (Prim2SF b)) as [[]|]; auto; discriminate.
  - destruct (SFcompare (Prim2SF b) (Prim2SF c)) as [[]|]; auto; discriminate.
  - rewrite H. reflexivity.
  - rewrite H. reflexivity.
Qed.

Lemma ltb_not_leb a b : (a <? b)%float = true -> (b <=? a)%float = false.
Proof.
  rewrite FloatAxioms.ltb_spec, FloatAxioms.leb_spec. unfold SFltb, SFleb.
  rewrite (SFcompare_antisym (Prim2SF a) (Prim2SF b)).
  destruct (SFcompare (Prim2SF a) (Prim2SF b)) as [[]|]; cbn; congruence.
Qed.

Lemma leb_not_ltb a b : (a <=? b)%float = true -> (b <? a)%float = false.
Proof.
  rewrite FloatAxioms.ltb_spec, FloatAxioms.leb_spec. unfold SFltb, SFleb.
  rewrite (SFcompare_antisym (Prim2SF a) (Prim2SF b)).
  destruct (SFcompare (Prim2SF a) (Prim2SF b)) as [[]|]; cbn; congruence.
Qed.

(** Nothing is above plus infinity, and nothing is on either side of NaN. *)
Lemma infinity_ltb x : (infinity <? x)%float = false.
Proof.
  rewrite FloatAxioms.ltb_spec. change (Prim2SF infinity) with (S754_infinity false).
  unfold SFltb. destruct (Prim2SF x) as [[]|[]| |[] m e]; reflexivity.
Qed.

Lemma nan_ltb a x : PrimFloat.is_nan a = true -> (a <? x)%float = false.
Proof.
  intros Ha. destruct (a <? x)%float eqn:H; [|reflexivity].
  apply ltb_not_nan in H as [H _]. congruence.
Qed.

(** One over plus zero is plus infinity; one over NaN is NaN. *)
Lemma div_nan a : PrimFloat.is_nan a = true -> PrimFloat.is_nan (1 / a) = true.
Proof.
  rewrite !is_nan_spec, FloatAxioms.div_spec.
  destruct (Prim2SF a); try discriminate. reflexivity.
Qed.

(** Zero minus a non-negative double is plus zero or negative. *)
Lemma zero_minus y :
  (0 <=? y)%float = true -> (0 - y)%float = 0%float \/ (0 - y <? 0)%float = true.
Proof.
  rewrite FloatAxioms.leb_spec, FloatAxioms.ltb_spec, FloatAxioms.sub_spec.
  change (Prim2SF 0) with (S754_zero false). unfold SFleb, SFltb. intros Hy.
  destruct (Prim2SF y) as [sy|[]| |[] my ey] eqn:E; try discriminate.
  - left. apply Prim2SF_inj. rewrite FloatAxioms.sub_spec, E.
    destruct sy; reflexivity.
  - right. reflexivity.
  - right. reflexivity.
Qed.

(** The zeros are the non-negative doubles that are not positive, and a
    zero is at most every non-negative double. *)
Lemma zero_leb v x :
  (0 <=? v)%float = true -> (0 <? v)%float = false -> (0 <=? x)%float = true ->
  (v <=? x)%float = true.
Proof.
  rewrite !FloatAxioms.leb_spec, FloatAxioms.ltb_spec.
  change (Prim2SF 0) with (S754_zero false). unfold SFleb, SFltb.
  destruct (Prim2SF v) as [sv|[]| |[] mv ev]; try discriminate; intros _ _ H; exact H.
Qed.

(** Between two finite doubles there are only finite doubles. *)
Lemma between_finite a v b :
  (a <=? v)%float = true -> (v <=? b)%float = true ->
  SFfinite (Prim2SF a) = true -> SFfinite (Prim2SF b) = true ->
  SFfinite (Prim2SF v) = true.
Proof.
  rewrite !FloatAxioms.leb_spec. unfold SFleb.
  destruct (Prim2SF a) as [sa|sa| |sa ma ea]; try discriminate;
    destruct (Prim2SF b) as [sb|sb| |sb mb eb]; try discriminate;
    destruct (Prim2SF v) as [sv|[]| |sv mv ev]; try reflexivity; try discriminate;
    cbn; try (destruct sa; discriminate); try (destruct sb; discriminate).
Qed.

(** A double that converts to [int32_t] is a number. *)
Lemma to_int32_not_nan y t : Double.to_int32 y = Some t -> PrimFloat.is_nan y = false.
Proof.
  rewrite is_nan_spec. unfold Double.to_int32.
  destruct (Prim2SF y); try discriminate; reflexivity.
Qed.

(** Whenever the correction loop returns, it returns a position whose
    integer part is a multiple of 8 and that is not greater than the one it
    started from. *)
Lemma correct_y_returns fuel : forall y y',
  correct_y fuel y = Returns y' ->
  (exists t', Double.to_int32 y' = Some t' /\ Z.rem t' 8 = 0) /\
  (y' <=? y)%float = true.
Proof.
  induction fuel as [|fuel IH]; intros y y' H; [discriminate|].
  cbn [correct_y] in H.
  destruct (Double.to_int32 y) as [t|] eqn:Ht; cbn [of_option bind] in H; [|discriminate].
  destruct (Z.eqb_spec (Z.rem t 8) 0) as [Hrem|Hrem].
  - injection H as <-. split; [eauto|]. apply leb_refl. apply (to_int32_not_nan y t Ht).
  - apply IH in H as [Hal Hle]. split; [assumption|].
    apply ltb_leb. apply (leb_ltb_trans _ _ _ Hle).
    apply (floor_pred_ltb y t Ht). intros ->. apply Hrem. reflexivity.
Qed.

(** Integers within the range of [int32_t] are the only integer-valued
    doubles that convert. *)
Lemma to_int32_of_int_none n :
  Z.abs n < 2 ^ 53 -> n < Double.INT32_MIN \/ Double.INT32_MAX < n ->
  Double.to_int32 (Double.of_int n) = None.
Proof.
  intros Hs Hn. unfold Double.to_int32. rewrite Prim2SF_of_int by assumption.
  pose proof (SFtrunc_int n Hs) as Ht.
  destruct (SFint n) eqn:E; try reflexivity;
    rewrite Ht;
    destruct (Z.leb_spec Double.INT32_MIN n), (Z.leb_spec n Double.INT32_MAX);
    try reflexivity; lia.
Qed.

(** Adding to plus zero changes at most the sign of a zero. *)
Lemma zero_plus_ltb a dt : (a <? 0 + dt)%float = (a <? dt)%float.
Proof.
  rewrite !FloatAxioms.ltb_spec, FloatAxioms.add_spec.
  change (Prim2SF 0) with (S754_zero false). unfold SFltb.
  destruct (Prim2SF dt) as [[]|sd| |sd md ed]; reflexivity.
Qed.

(** A zero plus a non-negative double is non-negative. *)
Lemma zero_plus_nonneg v d :
  (0 <=? v)%float = true -> (0 <? v)%float = false -> (0 <=? d)%float = true ->
  (0 <=? v + d)%float = true.
Proof.
  rewrite !FloatAxioms.leb_spec, FloatAxioms.ltb_spec, FloatAxioms.add_spec.
  change (Prim2SF 0) with (S754_zero false). unfold SFleb, SFltb.
  destruct (Prim2SF v) as [sv|[]| |[] mv ev]; try discriminate.
  destruct (Prim2SF d) as [sd|[]| |[] md ed]; try discriminate; intros _ _ _;
    try reflexivity.
  destruct sv, sd; reflexivity.
Qed.

(** A finite non-negative double does not get smaller when a non-negative
    double is added to it. *)
Lemma add_nonneg_ge0 v d :
  (0 <=? v)%float = true -> SFfinite (Prim2SF v) = true -> (0 <=? d)%float = true ->
  (v <=? v + d)%float = true.
Proof.
  intros Hv Fv Hd. destruct (0 <? v)%float eqn:Hpos.
  - apply add_nonneg_ge; assumption.
  - apply zero_leb; try assumption. apply zero_plus_nonneg; assumption.
Qed.

(** A difference with a NaN or an infinity on the left is a NaN or an
    infinity, and converts to no integer. *)
Lemma sub_not_finite a b :
  SFfinite (Prim2SF a) = false -> Double.to_int32 (a - b) = None.
Proof.
  intros Ha. unfold Double.to_int32. rewrite FloatAxioms.sub_spec.
  destruct (Prim2SF a) as [sa|sa| |sa ma ea]; try discriminate;
    destruct (Prim2SF b) as [sb|sb| |sb mb eb]; cbn; try reflexivity.
  destruct sa, sb; reflexivity.
Qed.

(** Multiplication commutes, rounding included. *)
Lemma mul_comm a b : (a * b)%float = (b * a)%float.
Proof.
  apply Prim2SF_inj. rewrite !FloatAxioms.mul_spec.
  destruct (Prim2SF a) as [sa|sa| |sa ma ea], (Prim2SF b) as [sb|sb| |sb mb eb];
    cbn; rewrite ?(xorb_comm sa sb); try reflexivity.
  rewrite (Pos.mul_comm ma mb), (Z.add_comm ea eb). reflexivity.
Qed.

(** A positive finite factor times the square of a finite non-negative
    double is non-negative, as C computes it, from left to right. *)
Lemma times_square_nonneg g dt :
  (0 <? g)%float = true -> SFfinite (Prim2SF g) = true ->
  (0 <=? dt)%float = true -> SFfinite (Prim2SF dt) = true ->
  (0 <=? g * dt * dt)%float = true.
Proof.
  intros Hg Fg Hdt Fdt. destruct (0 <? dt)%float eqn:Hpos.
  - rewrite (mul_comm (g * dt) dt). apply mul_nonneg; auto using mul_nonneg.
  - revert Hg Fg Hdt Fdt Hpos.
    rewrite !FloatAxioms.leb_spec, !FloatAxioms.ltb_spec, !FloatAxioms.mul_spec.
    change (Prim2SF 0) with (S754_zero false). unfold SFltb, SFleb.
    destruct (Prim2SF g) as [sg|sg| |[] mg eg]; try discriminate.
    destruct (Prim2SF dt) as [[]|[]| |[] md ed]; try discriminate; reflexivity.
Qed.

(** ** Properties of Entity.c *)

Section Properties.

Context {bits : FlagBits}.

(** *** What a returning [UpdateEntity] call leaves behind *)

Ltac update_inv H :=
  unfold UpdateEntity in H; cbv zeta in H;
  destruct (update_vertical _ _ _) as [[[? ?] ?]| |] eqn:Hvertical;
  cbn [bind] in H; try discriminate H;
  destruct (update_frame _ _) as [? ?] eqn:Hframe;
  injection H as <-.

Lemma UpdateEntity_stBB fuel e dt e' :
  UpdateEntity fuel e dt = Returns e' -> stBB e' = bounding_box e.
Proof. intros H. update_inv H. reflexivity. Qed.

Lemma UpdateEntity_dVelocityX fuel e dt e' :
  UpdateEntity fuel e dt = Returns e' -> dVelocityX e' = update_velocity_x e dt.
Proof. intros H. update_inv H. reflexivity. Qed.

Lemma UpdateEntity_dWorldPosX fuel e dt e' :
  UpdateEntity fuel e dt = Returns e' ->
  dWorldPosX e' = wrap_x e (move_x e (update_velocity_x e dt) dt).
Proof. intros H. update_inv H. reflexivity. Qed.

Lemma UpdateEntity_frame fuel e dt e' :
  UpdateEntity fuel e dt = Returns e' ->
  (u8Frame e', dFrameDuration e') = update_frame e dt.
Proof. intros H. update_inv H. reflexivity. Qed.

Lemma UpdateEntity_vertical fuel e dt e' :
  UpdateEntity fuel e dt = Returns e' ->
  update_vertical fuel e dt = Returns (dDistanceY e', dVelocityY e', dWorldPosY e').
Proof. intros H. update_inv H. reflexivity. Qed.

Lemma UpdateEntity_configuration fuel e dt e' :
  UpdateEntity fuel e dt = Returns e' -> same_configuration e e'.
Proof. intros H. update_inv H. constructor; reflexivity. Qed.

(** In mid-air the call returns whatever the fuel; on the ground it returns
    as soon as the correction loop does. *)
Lemma UpdateEntity_returns_airborne fuel e dt :
  FLAG_IS_SET (u16Flags e) ENTITY_IS_IN_MID_AIR = true ->
  exists e', UpdateEntity fuel e dt = Returns e'.
Proof.
  intros Hair. unfold UpdateEntity, update_vertical. rewrite Hair. cbn [bind].
  destruct (update_frame e dt). eauto.
Qed.

Lemma UpdateEntity_returns_grounded fuel e dt py :
  FLAG_IS_SET (u16Flags e) ENTITY_IS_IN_MID_AIR = false ->
  correct_y fuel (dWorldPosY e) = Returns py ->
  exists e', UpdateEntity fuel e dt = Returns e' /\ dWorldPosY e' = py.
Proof.
  intros Hair Hy. unfold UpdateEntity, update_vertical. rewrite Hair, Hy. cbn [bind].
  destruct (update_frame e dt). eexists; split; reflexivity.
Qed.

(** *** C1: the horizontal velocity limits *)

Lemma Prim2SF_zero : Prim2SF 0%float = S754_zero false.
Proof. reflexivity. Qed.

(** Nothing at or above a non-negative double is negative. *)
Lemma leb_nonneg a b :
  (0 <=? a)%float = true -> (a <=? b)%float = true -> (b <? 0)%float = false.
Proof.
  rewrite !FloatAxioms.leb_spec, FloatAxioms.ltb_spec, Prim2SF_zero.
  unfold SFleb, SFltb.
  destruct (Prim2SF a) as [[]|[]| |[] ma ea], (Prim2SF b) as [[]|[]| |[] mb eb];
    cbn; congruence.
Qed.

Lemma limit_velocity_x_range e v :
  (0 <=? dMaxVelocityX e)%float = true ->
  PrimFloat.is_nan v = false ->
  let v' := limit_velocity_x e v in
  (0 <=? v')%float = true /\ (v' <=? dMaxVelocityX e)%float = true /\
  ((v <? 0)%float = true -> v' = 0%float) /\
  ((dMaxVelocityX e <=? v)%float = true -> v' = dMaxVelocityX e).
Proof.
  intros Hmax Hv. cbv zeta. unfold limit_velocity_x.
  destruct (leb_not_nan _ _ Hmax) as [_ Hmn].
  pose proof (leb_nonneg _ _ Hmax (leb_refl _ Hmn)) as Hm0.
  destruct (dMaxVelocityX e <=? v)%float eqn:Hceil.
  - rewrite Hm0. repeat split; auto using leb_refl.
    intros Hneg. rewrite (leb_nonneg _ _ Hmax Hceil) in Hneg. discriminate.
  - destruct (v <? 0)%float eqn:Hfloor.
    + repeat split; auto; discriminate.
    + repeat split; try discriminate.
      * apply ltb_total; auto.
      * apply ltb_leb, leb_total; auto.
Qed.

(** C1, in the form in which it holds of the code: whenever [dMaxVelocityX] is
    at least 0 and the integrated velocity (the old [dVelocityX] plus
    [dAcceleration * dt] when moving, minus [dDeceleration * dt] otherwise) is
    not NaN, the [dVelocityX] that [UpdateEntity] leaves behind lies in [[0,
    dMaxVelocityX]]; an integrated velocity below 0 becomes 0 and one at or
    above [dMaxVelocityX] becomes [dMaxVelocityX]. *)
Theorem C1_velocity_within_limits fuel e dt e' :
  UpdateEntity fuel e dt = Returns e' ->
  (0 <=? dMaxVelocityX e)%float = true ->
  PrimFloat.is_nan (integrate_velocity_x e dt) = false ->
  (0 <=? dVelocityX e')%float = true /\
  (dVelocityX e' <=? dMaxVelocityX e')%float = true /\
  ((integrate_velocity_x e dt <? 0)%float = true -> dVelocityX e' = 0%float) /\
  ((dMaxVelocityX e <=? integrate_velocity_x e dt)%float = true ->
   dVelocityX e' = dMaxVelocityX e).
Proof.
  intros Hret Hmax Hnan.
  rewrite (UpdateEntity_dVelocityX _ _ _ _ Hret).
  rewrite (same_max_velocity _ _ (UpdateEntity_configuration _ _ _ _ Hret)).
  apply limit_velocity_x_range; assumption.
Qed.

(** A NaN passes both limits untouched. *)
Lemma limit_velocity_x_nan e v :
  PrimFloat.is_nan v = true -> limit_velocity_x e v = v.
Proof.
  intros Hv. unfold limit_velocity_x.
  destruct (dMaxVelocityX e <=? v)%float eqn:H1.
  - apply leb_not_nan in H1 as [_ H1]. congruence.
  - destruct (v <? 0)%float eqn:H2; [|reflexivity].
    apply ltb_not_nan in H2 as [H2 _]. congruence.
Qed.


(** Finite velocity, rates and time step integrate to a number. *)
Lemma integrate_velocity_x_not_nan e dt :
  SFfinite (Prim2SF (dVelocityX e)) = true ->
  SFfinite (Prim2SF (dAcceleration e)) = true ->
  SFfinite (Prim2SF (dDeceleration e)) = true ->
  SFfinite (Prim2SF dt) = true ->
  PrimFloat.is_nan (integrate_velocity_x e dt) = false.
Proof.
  intros Hv Ha Hd Ht. unfold integrate_velocity_x.
  destruct (FLAG_IS_SET (u16Flags e) ENTITY_IS_MOVING).
  - apply finite_plus_not_nan; [assumption|].
    apply (finite_arith_not_nan (dAcceleration e) dt); assumption.
  - apply finite_plus_not_nan; [assumption|].
    apply (finite_arith_not_nan (dDeceleration e) dt); assumption.
Qed.

(** *** C2: the bounding box *)

(** C2, in the form in which it holds of the code: after [UpdateEntity]
    returns, the bounding box is [{top = y, left = x, right = x + width,
    bottom = y + height}] for the position [(x, y)] on entry to the call, the
    two sums being double additions. [right - left == width] and [bottom - top
    == height] hold when the sums are exact, as they are for an integer-valued
    position of magnitude at most [2 ^ 31]; they do not hold for every
    position. *)
Theorem C2_bounding_box_from_entry_position fuel e dt e' :
  UpdateEntity fuel e dt = Returns e' ->
  stBB e' = {| dBottom := (dWorldPosY e + Double.of_int (u8Height e))%float;
               dLeft   := dWorldPosX e;
               dRight  := (dWorldPosX e + Double.of_int (u8Width e))%float;
               dTop    := dWorldPosY e |} /\
  (forall px : Z, dWorldPosX e = Double.of_int px -> Z.abs px <= 2 ^ 31 ->
     u8 (u8Width e) ->
     (dRight (stBB e') - dLeft (stBB e'))%float = Double.of_int (u8Width e')) /\
  (forall py : Z, dWorldPosY e = Double.of_int py -> Z.abs py <= 2 ^ 31 ->
     u8 (u8Height e) ->
     (dBottom (stBB e') - dTop (stBB e'))%float = Double.of_int (u8Height e')).
Proof.
  intros Hret. rewrite (UpdateEntity_stBB _ _ _ _ Hret).
  destruct (UpdateEntity_configuration _ _ _ _ Hret) as [_ _ _ Hh Hw _ _ _ _ _ _ _ _ _ _ _].
  rewrite Hh, Hw. split; [reflexivity|]. unfold bounding_box, u8. cbn [dRight dLeft dBottom dTop].
  split.
  - intros px -> Hpx Hwd. rewrite add_of_int, sub_of_int by lia. f_equal. lia.
  - intros py -> Hpy Hht. rewrite add_of_int, sub_of_int by lia. f_equal. lia.
Qed.

(** *** C3: InitEntity *)

(** C3, in the form in which it holds of the code: on success [InitEntity]
    stores the extents and the map width, populates the defaults (acceleration
    400, deceleration 200, maximal velocity 100, 48 pixels per meter,
    gravitation 9.81, frames [[0, 12)] at 20 fps, frame row offset 0), zeroes
    velocities, flags, frame and frame timer, binds no sprite, stores the
    spawn point as position and as initial position, and initialises the
    bounding box without regard to the position: its top is 0 and its right is
    the width. *)
Theorem C3_InitEntity_defaults (width height : Z) (px py : float) (map_width : Z) :
  exists e,
    InitEntity true width height px py map_width = Some e /\
    dAcceleration e = 400%float /\ dDeceleration e = 200%float /\
    dMaxVelocityX e = 100%float /\ dWorldMeterInPixel e = 48%float /\
    dWorldGravitation e = 9.81%float /\
    u8FrameStart e = 0 /\ u8FrameEnd e = 12 /\ dFrameAnimationFPS e = 20%float /\
    u8FrameOffsetY e = 0 /\
    dVelocityX e = 0%float /\ dVelocityY e = 0%float /\ dDistanceY e = 0%float /\
    u16Flags e = 0 /\ u8Frame e = 0 /\ dFrameDuration e = 0%float /\
    pstSprite e = None /\
    u8Width e = width /\ u8Height e = height /\ u32MapWidth e = map_width /\
    dWorldPosX e = px /\ dWorldPosY e = py /\
    dInitialWorldPosX e = px /\ dInitialWorldPosY e = py /\
    dTop (stBB e) = 0%float /\ dRight (stBB e) = Double.of_int width.
Proof. eexists. split; [reflexivity|]. cbn. repeat split. Qed.

(** Without memory there is no entity. *)
Lemma InitEntity_allocation_failure width height px py map_width :
  InitEntity false width height px py map_width = None.
Proof. reflexivity. Qed.

(** *** C4: the map borders *)

Lemma right_border_no_wrap e :
  u8 (u8Width e) -> u32 (u32MapWidth e) -> u8Width e <= u32MapWidth e ->
  right_border e = Double.of_int (u32MapWidth e - u8Width e).
Proof.
  unfold u8, u32, right_border. intros Hw Hm Hle. rewrite Z.mod_small by lia. reflexivity.
Qed.

Lemma borders_ordered e :
  u8 (u8Width e) -> u32 (u32MapWidth e) ->
  (left_border e <=? right_border e)%float = true.
Proof.
  unfold u8, u32, left_border, right_border. intros Hw Hm.
  pose proof (Z.mod_pos_bound (u32MapWidth e - u8Width e) (2 ^ 32) ltac:(lia)).
  rewrite of_int_leb by lia. apply Z.leb_le. lia.
Qed.

(** Whatever the position, [wrap_x] puts a position left of the left border
    on the right border, one right of the right border on the left border,
    and leaves every number between the borders. *)
Lemma wrap_x_spec e px :
  u8 (u8Width e) -> u32 (u32MapWidth e) ->
  ((px <? left_border e)%float = true -> wrap_x e px = right_border e) /\
  ((right_border e <? px)%float = true -> wrap_x e px = left_border e) /\
  (PrimFloat.is_nan px = false ->
   (left_border e <=? wrap_x e px)%float = true /\
   (wrap_x e px <=? right_border e)%float = true).
Proof.
  intros Hw Hm. pose proof (borders_ordered e Hw Hm) as Hord.
  destruct (leb_not_nan _ _ Hord) as [Hl Hr].
  unfold wrap_x.
  destruct (px <? left_border e)%float eqn:Hlo.
  - rewrite ltb_irrefl. repeat split; auto using leb_refl.
    intros Hhi. pose proof (ltb_leb_trans _ _ _ Hlo Hord) as Hlt.
    apply ltb_asym in Hlt. congruence.
  - destruct (right_border e <? px)%float eqn:Hhi.
    + repeat split; auto using leb_refl. discriminate.
    + split; [discriminate|]. split; [discriminate|].
      intros Hn. split; apply ltb_total; auto.
Qed.

(** Going right from one pixel beyond the right border ends beyond it. *)
Lemma move_x_beyond_right_border e vx dt :
  u8 (u8Width e) -> u32 (u32MapWidth e) -> u8Width e <= u32MapWidth e ->
  dWorldPosX e = Double.of_int (u32MapWidth e - u8Width e + 1) ->
  FLAG_IS_SET (u16Flags e) ENTITY_DIRECTION = false ->
  (0 <=? dt)%float = true -> SFfinite (Prim2SF vx) = true ->
  (right_border e <? move_x e vx dt)%float = true.
Proof.
  intros Hw Hm Hle Hpos Hdir Hdt Hvx.
  rewrite (right_border_no_wrap e Hw Hm Hle). unfold u8, u32 in *.
  assert (Hlt : (Double.of_int (u32MapWidth e - u8Width e) <? dWorldPosX e)%float = true)
    by (rewrite Hpos, of_int_ltb by lia; apply Z.ltb_lt; lia).
  unfold move_x. rewrite Hdir. destruct (0 <? vx)%float eqn:Hgo; [|assumption].
  apply (ltb_leb_trans _ _ _ Hlt). apply add_nonneg_ge.
  - rewrite Hpos. change 0%float with (Double.of_int 0).
    rewrite of_int_ltb by lia. apply Z.ltb_lt. lia.
  - rewrite Hpos, Prim2SF_of_int by lia. apply SFint_finite_true.
  - apply mul_nonneg; assumption.
Qed.

(** C4, in the form in which it holds of the code: for every entity whose map
    is at least as wide as the entity, after [UpdateEntity] returns,
    [dWorldPosX] lies within [[-width, mapWidth - width]] unless the position
    reached by this call's motion is NaN; a position below [-width] is set to
    exactly [mapWidth - width], and one above [mapWidth - width] to exactly
    [-width]. In particular an entity at [mapWidth - width + 1] that faces
    right lands exactly on [-width], whatever its (finite) velocity and the
    time step [dt >= 0]. *)
Theorem C4_position_within_borders fuel e dt e' :
  UpdateEntity fuel e dt = Returns e' ->
  u8 (u8Width e) -> u32 (u32MapWidth e) -> u8Width e <= u32MapWidth e ->
  let lo := Double.of_int (- u8Width e) in
  let hi := Double.of_int (u32MapWidth e - u8Width e) in
  let px := move_x e (dVelocityX e') dt in
  ((px <? lo)%float = true -> dWorldPosX e' = hi) /\
  ((hi <? px)%float = true -> dWorldPosX e' = lo) /\
  (PrimFloat.is_nan px = false ->
   (lo <=? dWorldPosX e')%float = true /\ (dWorldPosX e' <=? hi)%float = true) /\
  (dWorldPosX e = Double.of_int (u32MapWidth e - u8Width e + 1) ->
   FLAG_IS_SET (u16Flags e) ENTITY_DIRECTION = false ->
   (0 <=? dt)%float = true -> SFfinite (Prim2SF (dVelocityX e')) = true ->
   dWorldPosX e' = lo).
Proof.
  intros Hret Hw Hm Hle. cbv zeta.
  rewrite (UpdateEntity_dWorldPosX _ _ _ _ Hret), (UpdateEntity_dVelocityX _ _ _ _ Hret).
  rewrite <- (right_border_no_wrap e Hw Hm Hle).
  change (Double.of_int (- u8Width e)) with (left_border e).
  destruct (wrap_x_spec e (move_x e (update_velocity_x e dt) dt) Hw Hm) as (H1 & H2 & H3).
  repeat split; try assumption; try (apply H3; assumption).
  intros Hpos Hdir Hdt Hvx. apply H2. apply move_x_beyond_right_border; assumption.
Qed.

(** *** C5: the frame index *)

Lemma update_frame_spec e dt :
  u8 (u8Frame e) -> u8 (u8FrameStart e) -> u8 (u8FrameEnd e) ->
  u8FrameStart e < u8FrameEnd e ->
  u8Frame e < 255 \/ u8FrameStart e = 0 ->
  u8FrameStart e <= fst (update_frame e dt) < u8FrameEnd e.
Proof.
  unfold u8, update_frame. intros Hf Hs He Hlt H255.
  destruct (u8Frame e <? u8FrameStart e) eqn:Hsnap;
    [apply Z.ltb_lt in Hsnap | apply Z.ltb_ge in Hsnap];
    destruct (1 / dFrameAnimationFPS e <? dFrameDuration e + dt)%float; cbn [fst];
    match goal with |- context [?a <=? ?b] =>
      destruct (Z.leb_spec a b) as [Hend|Hend] end;
    try lia.
  - destruct (Z.eq_dec (u8FrameStart e + 1) (2 ^ 8)) as [E|E].
    + lia.
    + rewrite Z.mod_small in * by lia. lia.
  - destruct (Z.eq_dec (u8Frame e + 1) (2 ^ 8)) as [E|E].
    + rewrite E, Z.mod_same in * by lia. lia.
    + rewrite Z.mod_small in * by lia. lia.
Qed.

(** C5, in the form in which it holds of the code: under the precondition
    [frameStart < frameEnd], and provided the frame index on entry is below
    255 (or [frameStart] is 0), after [UpdateEntity] returns [frameStart <=
    frameIndex < frameEnd]: a frame index below [frameStart] is first snapped
    up to [frameStart], and a frame index that reaches [frameEnd] wraps back
    to [frameStart]. *)
Theorem C5_frame_within_range fuel e dt e' :
  UpdateEntity fuel e dt = Returns e' ->
  u8 (u8Frame e) -> u8 (u8FrameStart e) -> u8 (u8FrameEnd e) ->
  u8FrameStart e < u8FrameEnd e ->
  u8Frame e < 255 \/ u8FrameStart e = 0 ->
  let fired := (1 / dFrameAnimationFPS e <? dFrameDuration e + dt)%float in
  let snapped := Z.max (u8Frame e) (u8FrameStart e) in
  u8FrameStart e' <= u8Frame e' < u8FrameEnd e' /\
  (fired = false -> u8Frame e < u8FrameStart e -> u8Frame e' = u8FrameStart e) /\
  (fired = true -> snapped + 1 < u8FrameEnd e -> u8Frame e' = snapped + 1) /\
  (fired = true -> snapped + 1 = u8FrameEnd e -> u8Frame e' = u8FrameStart e).
Proof.
  intros Hret Hf Hs He Hlt H255. cbv zeta.
  destruct (UpdateEntity_configuration _ _ _ _ Hret) as [_ _ _ _ _ _ _ Hs' He' _ _ _ _ _ _ _].
  rewrite Hs', He'.
  pose proof (f_equal fst (UpdateEntity_frame _ _ _ _ Hret)) as Hfr. cbn [fst] in Hfr.
  rewrite Hfr. split; [apply update_frame_spec; assumption|].
  unfold u8, update_frame in *.
  destruct (u8Frame e <? u8FrameStart e) eqn:Hsnap;
    [apply Z.ltb_lt in Hsnap | apply Z.ltb_ge in Hsnap];
    destruct (1 / dFrameAnimationFPS e <? dFrameDuration e + dt)%float; cbn [fst];
    match goal with |- context [?a <=? ?b] =>
      destruct (Z.leb_spec a b) as [Hend|Hend] end;
    repeat split; intros; try discriminate; try lia;
    rewrite ?Z.mod_small in * by lia; try lia.
Qed.

(** The frame index of a reachable entity never gets to 255, so the
    hypothesis of C5 holds throughout a run of the program. *)
Lemma reachable_frame e :
  reachable e ->
  0 <= u8Frame e < 255 /\ u8 (u8FrameStart e) /\ u8 (u8FrameEnd e) /\
  u8FrameStart e < u8FrameEnd e.
Proof.
  induction 1 as [width height px py mw e Hw Hh Hm Hinit
                 | e file wd r e' wd' _ IH Hload
                 | e _ IH
                 | e s en off fps _ IH Hs Hen Hoff Hlt
                 | e flags _ IH Hf
                 | e fuel dt e' _ IH Hret].
  - injection Hinit as <-. unfold u8. cbn. lia.
  - unfold LoadEntitySprite in Hload.
    destruct (load_texture wd file); injection Hload as _ <- _; exact IH.
  - exact IH.
  - cbn. unfold u8 in *. lia.
  - exact IH.
  - destruct IH as (Hf & Hs & He & Hlt).
    destruct (UpdateEntity_configuration _ _ _ _ Hret) as [_ _ _ _ _ _ _ Hs' He' _ _ _ _ _ _ _].
    pose proof (f_equal fst (UpdateEntity_frame _ _ _ _ Hret)) as Hfr. cbn [fst] in Hfr.
    pose proof (update_frame_spec e dt) as Hspec. rewrite <- Hfr in Hspec.
    rewrite Hs', He'. unfold u8 in *. lia.
Qed.

(** X17: through any sequence of calls of the interface (creation, sprite
    loading, resurrection, animation changes with [frameStart < frameEnd],
    flag changes by the input layer, updates), every [UpdateEntity] call
    that returns leaves the frame index within [[frameStart, frameEnd)]: the
    frame index never gets to 255, where the increment would wrap to 0. *)
Corollary reachable_frame_within_range e fuel dt e' :
  reachable e -> UpdateEntity fuel e dt = Returns e' ->
  u8FrameStart e' <= u8Frame e' < u8FrameEnd e'.
Proof.
  intros Hreach Hret. destruct (reachable_frame e Hreach) as (Hf & Hs & He & Hlt).
  destruct (UpdateEntity_configuration _ _ _ _ Hret) as [_ _ _ _ _ _ _ Hs' He' _ _ _ _ _ _ _].
  pose proof (f_equal fst (UpdateEntity_frame _ _ _ _ Hret)) as Hfr. cbn [fst] in Hfr.
  rewrite Hs', He', Hfr. apply update_frame_spec; unfold u8 in *; lia.
Qed.

(** X18: every entity reached through the interface holds values of its C
    types: the flags fit 16 bits, the map width 32 bits, and the extents,
    the frame range, the row offset and the frame index 8 bits each, so
    that no store into a field of the entity narrows its value. *)
Lemma reachable_wf e : reachable e -> wf_entity e.
Proof.
  intros Hreach. pose proof (reachable_frame e Hreach) as (Hf & Hs & He & _).
  assert (Hframe : u8 (u8Frame e)) by (unfold u8; lia).
  clear Hf. induction Hreach as [width height px py mw e Hw Hh Hm Hinit
                 | e file wd r e' wd' Hreach IH Hload
                 | e Hreach IH
                 | e s en off fps Hreach IH Hs' Hen Hoff Hlt
                 | e flags Hreach IH Hfl
                 | e fuel dt e' Hreach IH Hret].
  - injection Hinit as <-. constructor; cbn; unfold u8, u16 in *; try assumption; lia.
  - pose proof (reachable_frame e Hreach) as (Hf0 & Hs0 & He0 & _).
    unfold LoadEntitySprite in Hload.
    destruct (load_texture wd file); injection Hload as _ <- _;
      destruct IH; try assumption; try (unfold u8; lia); constructor; assumption.
  - pose proof (reachable_frame e Hreach) as (Hf0 & Hs0 & He0 & _).
    destruct IH; try assumption; try (unfold u8; lia).
    constructor; try assumption. cbn. apply Z.mod_pos_bound. lia.
  - pose proof (reachable_frame e Hreach) as (Hf0 & Hs0 & He0 & _).
    destruct IH; try assumption; try (unfold u8; lia). constructor; assumption.
  - pose proof (reachable_frame e Hreach) as (Hf0 & Hs0 & He0 & _).
    destruct IH; try assumption; try (unfold u8; lia). constructor; assumption.
  - pose proof (reachable_frame e Hreach) as (Hf0 & Hs0 & He0 & _).
    destruct IH; try assumption; try (unfold u8; lia).
    destruct (UpdateEntity_configuration _ _ _ _ Hret).
    constructor; congruence.
Qed.

(** *** C6 and C7: the y-coordinate correction *)

Lemma FLAG_IS_SET_testbit number bit : FLAG_IS_SET number bit = Z.testbit number bit.
Proof.
  unfold FLAG_IS_SET. change 1 with (Z.ones 1). rewrite Z.land_ones by lia.
  change (2 ^ 1) with 2. rewrite <- Z.bit0_mod.
  destruct (Z.le_gt_cases 0 bit) as [Hb|Hb].
  - rewrite Z.shiftr_spec, Z.add_0_l by lia. destruct (Z.testbit number bit); reflexivity.
  - rewrite (Z.testbit_neg_r number bit) by lia.
    rewrite <- (Z.opp_involutive bit), Z.shiftr_opp_r, Z.shiftl_spec_low by lia. reflexivity.
Qed.

Lemma correct_y_unaligned fuel y t :
  Double.to_int32 y = Some t -> Z.rem t 8 <> 0 ->
  Double.INT32_MIN < Double.SFfloor (Prim2SF y) ->
  (9 <= fuel)%nat ->
  correct_y fuel y = Returns (Double.of_int (8 * ((Double.SFfloor (Prim2SF y) - 1) / 8))).
Proof.
  intros Ht Hrem Hmin Hfuel. destruct fuel as [|fuel]; [lia|].
  rewrite (correct_y_step fuel y t Ht Hrem).
  pose proof (to_int32_range y t Ht) as Hr.
  pose proof (floor_trunc y t Ht) as (HF & _). cbv zeta in HF.
  apply correct_y_int; [lia|].
  pose proof (Z.mod_pos_bound (Double.SFfloor (Prim2SF y) - 1) 8 ltac:(lia)). lia.
Qed.

(** The fuel of the model is no restriction: from 9 on the outcome of
    [UpdateEntity] does not depend on it and is never [OutOfFuel]. *)
Lemma UpdateEntity_fuel fuel e dt :
  (9 <= fuel)%nat ->
  UpdateEntity fuel e dt = UpdateEntity 9 e dt /\ UpdateEntity fuel e dt <> OutOfFuel.
Proof.
  intros Hfuel. unfold UpdateEntity, update_vertical.
  destruct (FLAG_IS_SET (u16Flags e) ENTITY_IS_IN_MID_AIR).
  - cbn [bind]. destruct (update_frame e dt). split; [reflexivity|discriminate].
  - destruct (correct_y_fuel fuel (dWorldPosY e) Hfuel) as [-> Hne].
    split; [reflexivity|].
    destruct (correct_y 9 (dWorldPosY e)) eqn:Hy; cbn [bind];
      try destruct (update_frame e dt); try discriminate.
    congruence.
Qed.

(** On the ground the call returns when the position converts to an
    [int32_t] that is a multiple of 8 or lies above [INT32_MIN + 1]. *)
Lemma UpdateEntity_returns fuel e dt :
  (9 <= fuel)%nat ->
  FLAG_IS_SET (u16Flags e) ENTITY_IS_IN_MID_AIR = true \/
  (exists t, Double.to_int32 (dWorldPosY e) = Some t /\
             (Z.rem t 8 = 0 \/ Double.INT32_MIN + 1 < t)) ->
  exists e', UpdateEntity fuel e dt = Returns e'.
Proof.
  intros Hfuel [Hair | (t & Ht & Hok)].
  - apply UpdateEntity_returns_airborne. assumption.
  - destruct (FLAG_IS_SET (u16Flags e) ENTITY_IS_IN_MID_AIR) eqn:Hair;
      [apply UpdateEntity_returns_airborne; assumption|].
    destruct (Z.eq_dec (Z.rem t 8) 0) as [Hrem|Hrem].
    + destruct fuel as [|fuel]; [lia|].
      destruct (UpdateEntity_returns_grounded (S fuel) e dt _ Hair
                  (correct_y_aligned fuel _ t Ht Hrem)) as (e' & Hret & _). eauto.
    + destruct Hok as [Hok|Hok]; [contradiction|].
      pose proof (floor_trunc _ t Ht) as (HF & _). cbv zeta in HF.
      assert (Hmin : Double.INT32_MIN < Double.SFfloor (Prim2SF (dWorldPosY e))) by lia.
      destruct (UpdateEntity_returns_grounded fuel e dt _ Hair
                  (correct_y_unaligned fuel _ t Ht Hrem Hmin Hfuel)) as (e' & Hret & _).
      eauto.
Qed.

(** C6, in the form in which it holds of the code: for every entity with
    [IS_IN_MID_AIR] clear whose [dWorldPosY] converts to an [int32_t] [t]:
    when [t] is a multiple of 8, [UpdateEntity] leaves [dWorldPosY] as it is,
    fraction included; otherwise (and if [floor(dWorldPosY)] is above
    [INT32_MIN]) [dWorldPosY] ends at the greatest multiple of 8 below
    [floor(dWorldPosY)], which is [8 * floor(dWorldPosY / 8)] when
    [floor(dWorldPosY)] is no multiple of 8 itself. *)
Theorem C6_grid_snap fuel e dt t :
  FLAG_IS_SET (u16Flags e) ENTITY_IS_IN_MID_AIR = false ->
  Double.to_int32 (dWorldPosY e) = Some t ->
  (9 <= fuel)%nat ->
  let F := Double.SFfloor (Prim2SF (dWorldPosY e)) in
  (Z.rem t 8 = 0 ->
   exists e', UpdateEntity fuel e dt = Returns e' /\ dWorldPosY e' = dWorldPosY e) /\
  (Z.rem t 8 <> 0 -> Double.INT32_MIN < F ->
   exists e', UpdateEntity fuel e dt = Returns e' /\
     dWorldPosY e' = Double.of_int (8 * ((F - 1) / 8)) /\
     (F mod 8 <> 0 -> dWorldPosY e' = Double.of_int (8 * (F / 8)))).
Proof.
  intros Hground Ht Hfuel F. split.
  - intros Hrem. apply UpdateEntity_returns_grounded; [assumption|].
    destruct fuel as [|fuel]; [lia|]. apply (correct_y_aligned fuel _ t); assumption.
  - intros Hrem Hmin.
    destruct (UpdateEntity_returns_grounded fuel e dt _ Hground
                (correct_y_unaligned fuel _ t Ht Hrem Hmin Hfuel)) as (e' & Hret & Hy).
    exists e'. fold F in Hy. repeat split; try assumption.
    intros HF. rewrite Hy. do 2 f_equal.
    pose proof (Z.div_mod F 8 ltac:(lia)). pose proof (Z.mod_pos_bound F 8 ltac:(lia)).
    symmetry. apply (Z.div_unique (F - 1) 8 (F / 8) (F mod 8 - 1)); lia.
Qed.

Lemma UpdateEntity_frames_grounded fuel dts : forall e py,
  FLAG_IS_SET (u16Flags e) ENTITY_IS_IN_MID_AIR = false ->
  dWorldPosY e = py -> correct_y fuel py = Returns py ->
  exists e', UpdateEntity_frames fuel e dts = Returns e' /\ dWorldPosY e' = py.
Proof.
  induction dts as [|dt dts IH]; intros e py Hground Hpos Hfix; cbn [UpdateEntity_frames].
  - eauto.
  - subst py.
    destruct (UpdateEntity_returns_grounded fuel e dt _ Hground Hfix) as (e1 & Hret & Hy).
    rewrite Hret. cbn [bind]. apply IH; [|assumption|assumption].
    rewrite (same_flags _ _ (UpdateEntity_configuration _ _ _ _ Hret)). assumption.
Qed.

(** On the ground the position [UpdateEntity] leaves behind is the one the
    correction loop returns, and nothing else of the vertical state
    changes. *)
Lemma UpdateEntity_grounded_inv fuel e dt e' :
  UpdateEntity fuel e dt = Returns e' ->
  FLAG_IS_SET (u16Flags e) ENTITY_IS_IN_MID_AIR = false ->
  correct_y fuel (dWorldPosY e) = Returns (dWorldPosY e') /\
  dVelocityY e' = dVelocityY e /\ dDistanceY e' = dDistanceY e.
Proof.
  intros Hret Hground. pose proof (UpdateEntity_vertical _ _ _ _ Hret) as Hv.
  unfold update_vertical in Hv. rewrite Hground in Hv.
  destruct (correct_y fuel (dWorldPosY e)) as [py| |]; cbn [bind] in Hv; try discriminate.
  injection Hv as <- <- <-. auto.
Qed.

Lemma UpdateEntity_grounded_undefined fuel e dt :
  FLAG_IS_SET (u16Flags e) ENTITY_IS_IN_MID_AIR = false ->
  correct_y fuel (dWorldPosY e) = Undefined ->
  UpdateEntity fuel e dt = Undefined.
Proof.
  intros Hground Hy. unfold UpdateEntity, update_vertical. rewrite Hground, Hy. reflexivity.
Qed.

(** Once the loop has returned it returns at once: its result converts to
    a multiple of 8. *)
Lemma correct_y_settled fuel y y' n :
  correct_y fuel y = Returns y' -> correct_y (S n) y' = Returns y'.
Proof.
  intros Hy. destruct (correct_y_returns _ _ _ Hy) as [(t' & Ht' & Hrem) _].
  apply (correct_y_aligned n y' t'); assumption.
Qed.

(** C7: with [IS_IN_MID_AIR] clear, any number of [UpdateEntity] calls (at
    least one) takes [dWorldPosY = 17] to 16, and any number of calls leaves
    [dWorldPosY = 16] at 16; each turn of the loop, taken while
    [(int32_t)y % 8 != 0], replaces [y] by [floor(y) - 1], which is strictly
    below [y], and the loop ends as soon as [(int32_t)y % 8 == 0].  The
    position a grounded [UpdateEntity] call leaves behind is the result of
    that loop on the position on entry: the call returns exactly when the loop
    does, with the loop's result, and is undefined when the loop runs into an
    undefined conversion.  So, for every position that converts to an
    [int32_t] [t]: when [t] is a multiple of 8, any number of calls leaves the
    position as it is; otherwise the first call takes it to the multiple of 8
    under [floor(y) - 1], strictly below [y], and all further calls leave it
    there. *)
Theorem C7_snap_converges fuel e :
  FLAG_IS_SET (u16Flags e) ENTITY_IS_IN_MID_AIR = false ->
  (2 <= fuel)%nat ->
  (dWorldPosY e = 17%float ->
   forall dts, dts <> [] ->
     exists e', UpdateEntity_frames fuel e dts = Returns e' /\ dWorldPosY e' = 16%float) /\
  (dWorldPosY e = 16%float ->
   forall dts,
     exists e', UpdateEntity_frames fuel e dts = Returns e' /\ dWorldPosY e' = 16%float) /\
  (forall n y t, Double.to_int32 y = Some t ->
     (Z.rem t 8 <> 0 ->
      correct_y (S n) y = correct_y n (Double.floor y - 1)%float /\
      (Double.floor y - 1 <? y)%float = true) /\
     (Z.rem t 8 = 0 -> correct_y (S n) y = Returns y)) /\
  (forall n y, Double.to_int32 y = None -> correct_y (S n) y = Undefined) /\
  (forall dt,
     (forall e', UpdateEntity fuel e dt = Returns e' ->
        correct_y fuel (dWorldPosY e) = Returns (dWorldPosY e')) /\
     (forall py, correct_y fuel (dWorldPosY e) = Returns py ->
        exists e', UpdateEntity fuel e dt = Returns e' /\ dWorldPosY e' = py) /\
     (correct_y fuel (dWorldPosY e) = Undefined -> UpdateEntity fuel e dt = Undefined)) /\
  (forall t, Double.to_int32 (dWorldPosY e) = Some t ->
     let F := Double.SFfloor (Prim2SF (dWorldPosY e)) in
     (Z.rem t 8 = 0 ->
      forall dts,
        exists e', UpdateEntity_frames fuel e dts = Returns e' /\
                   dWorldPosY e' = dWorldPosY e) /\
     (Z.rem t 8 <> 0 -> Double.INT32_MIN < F -> (9 <= fuel)%nat ->
      forall dts, dts <> [] ->
        exists e', UpdateEntity_frames fuel e dts = Returns e' /\
                   dWorldPosY e' = Double.of_int (8 * ((F - 1) / 8)) /\
                   (dWorldPosY e' <? dWorldPosY e)%float = true)).
Proof.
  intros Hground Hfuel.
  destruct fuel as [|[|fuel]]; try lia.
  assert (H16 : correct_y (S (S fuel)) 16 = Returns 16%float) by reflexivity.
  assert (H17 : correct_y (S (S fuel)) 17 = Returns 16%float) by reflexivity.
  split; [|split; [|split; [|split; [|split]]]].
  - intros Hpos [|dt dts] Hne; [contradiction|]. cbn [UpdateEntity_frames].
    rewrite <- Hpos in H17.
    destruct (UpdateEntity_returns_grounded _ e dt _ Hground H17) as (e1 & Hret & Hy).
    rewrite Hret. cbn [bind]. apply UpdateEntity_frames_grounded; try assumption.
    rewrite (same_flags _ _ (UpdateEntity_configuration _ _ _ _ Hret)). assumption.
  - intros Hpos dts. apply UpdateEntity_frames_grounded; assumption.
  - intros n y t Ht. split.
    + intros Hrem. split.
      * cbn [correct_y]. rewrite Ht. cbn [of_option bind].
        destruct (Z.eqb_spec (Z.rem t 8) 0); [contradiction|reflexivity].
      * apply (floor_pred_ltb y t Ht). intros ->. apply Hrem. reflexivity.
    + intros Hrem. apply (correct_y_aligned n y t); assumption.
  - intros n y Hnone. apply correct_y_undefined. assumption.
  - intros dt. split; [|split].
    + intros e' Hret. apply (UpdateEntity_grounded_inv _ _ _ _ Hret Hground).
    + intros py Hy. apply UpdateEntity_returns_grounded; assumption.
    + apply UpdateEntity_grounded_undefined. assumption.
  - intros t Ht F. split.
    + intros Hrem dts. apply UpdateEntity_frames_grounded; try reflexivity; try assumption.
      apply (correct_y_aligned _ _ t); assumption.
    + intros Hrem Hmin Hfuel9 [|dt dts] Hne; [contradiction|]. cbn [UpdateEntity_frames].
      pose proof (correct_y_unaligned _ _ t Ht Hrem Hmin Hfuel9) as Hy. fold F in Hy.
      destruct (UpdateEntity_returns_grounded _ e dt _ Hground Hy) as (e1 & Hret & Hy1).
      rewrite Hret. cbn [bind].
      destruct (UpdateEntity_frames_grounded (S (S fuel)) dts e1 (dWorldPosY e1))
        as (e' & Hframes & Hy').
      * rewrite (same_flags _ _ (UpdateEntity_configuration _ _ _ _ Hret)). assumption.
      * reflexivity.
      * rewrite Hy1. apply (correct_y_settled _ _ _ _ Hy).
      * exists e'. rewrite Hy', Hy1. repeat split; try assumption.
        rewrite (correct_y_step _ _ t Ht Hrem) in Hy.
        destruct (correct_y_returns _ _ _ Hy) as [_ Hle].
        apply (leb_ltb_trans _ _ _ Hle).
        rewrite <- (floor_pred _ t Ht) by (intros ->; apply Hrem; reflexivity).
        apply (floor_pred_ltb _ t Ht). intros ->. apply Hrem. reflexivity.
Qed.

(** *** C8: gravity *)

(** C8: for every entity with [IS_IN_MID_AIR] set, [UpdateEntity] returns
    (without a single turn of the correction loop: no fuel is needed) with
    [dDistanceY = dWorldMeterInPixel * dWorldGravitation * dt * dt], the old
    [dVelocityY] increased by that distance, and the old [dWorldPosY]
    increased by the new [dVelocityY]. *)
Theorem C8_gravity fuel e dt :
  FLAG_IS_SET (u16Flags e) ENTITY_IS_IN_MID_AIR = true ->
  exists e',
    UpdateEntity fuel e dt = Returns e' /\
    UpdateEntity 0 e dt = Returns e' /\
    dDistanceY e' = (dWorldMeterInPixel e * dWorldGravitation e * dt * dt)%float /\
    dVelocityY e' = (dVelocityY e + dDistanceY e')%float /\
    dWorldPosY e' = (dWorldPosY e + dVelocityY e')%float.
Proof.
  intros Hair. unfold UpdateEntity, update_vertical. rewrite Hair. cbn [bind].
  destruct (update_frame e dt). eexists. repeat split.
Qed.

(** *** C9: ResurrectEntity *)

Lemma clear_flag_spec number bit i :
  u16 number ->
  FLAG_IS_SET (clear_flag number bit) i = FLAG_IS_SET number i && negb (i =? bit).
Proof.
  unfold u16, clear_flag. intros Hn. rewrite !FLAG_IS_SET_testbit.
  destruct (Z.le_gt_cases 0 i) as [Hi|Hi];
    [|rewrite !Z.testbit_neg_r by lia; reflexivity].
  destruct (Z.lt_ge_cases i 16) as [H16|H16].
  - rewrite Z.mod_pow2_bits_low, Z.land_spec, Z.lnot_spec by lia. f_equal. f_equal.
    destruct (Z.le_gt_cases 0 bit) as [Hb|Hb].
    + rewrite Z.shiftl_1_l, Z.pow2_bits_eqb by lia. apply Z.eqb_sym.
    + rewrite <- (Z.opp_involutive bit), Z.shiftl_opp_r, Z.shiftr_div_pow2 by lia.
      rewrite Z.div_small, Z.bits_0.
      * symmetry. apply Z.eqb_neq. lia.
      * split; [lia|]. apply (Z.pow_lt_mono_r 2 0); lia.
  - rewrite Z.mod_pow2_bits_high by lia.
    rewrite (Z.bits_above_log2 number i); [reflexivity|lia|].
    destruct (Z.eq_dec number 0) as [->|Hnz]; [cbn; lia|].
    apply Z.log2_lt_pow2; [lia|].
    assert (2 ^ 16 <= 2 ^ i) by (apply Z.pow_le_mono_r; lia). lia.
Qed.

Lemma clear_flag_u16 number bit : u16 (clear_flag number bit).
Proof. unfold u16, clear_flag. apply Z.mod_pos_bound. lia. Qed.

(** C9: [ResurrectEntity] clears exactly the flags [IS_DEAD] and
    [IS_MOVING], sets the world position to the stored initial position, and
    leaves every other field (velocities, frame index and frame timer,
    bounding box, the other flags, and the rest) unchanged. *)
Theorem C9_ResurrectEntity e :
  u16 (u16Flags e) ->
  let e' := ResurrectEntity e in
  (forall bit, FLAG_IS_SET (u16Flags e') bit =
               FLAG_IS_SET (u16Flags e) bit
               && negb (bit =? ENTITY_IS_DEAD) && negb (bit =? ENTITY_IS_MOVING)) /\
  dWorldPosX e' = dInitialWorldPosX e /\ dWorldPosY e' = dInitialWorldPosY e /\
  dVelocityX e' = dVelocityX e /\ dVelocityY e' = dVelocityY e /\
  dDistanceY e' = dDistanceY e /\
  u8Frame e' = u8Frame e /\ dFrameDuration e' = dFrameDuration e /\
  stBB e' = stBB e /\
  dAcceleration e' = dAcceleration e /\ dDeceleration e' = dDeceleration e /\
  dMaxVelocityX e' = dMaxVelocityX e /\
  dWorldMeterInPixel e' = dWorldMeterInPixel e /\
  dWorldGravitation e' = dWorldGravitation e /\
  u8Width e' = u8Width e /\ u8Height e' = u8Height e /\
  u32MapWidth e' = u32MapWidth e /\
  u8FrameStart e' = u8FrameStart e /\ u8FrameEnd e' = u8FrameEnd e /\
  u8FrameOffsetY e' = u8FrameOffsetY e /\
  dFrameAnimationFPS e' = dFrameAnimationFPS e /\
  pstSprite e' = pstSprite e /\
  dInitialWorldPosX e' = dInitialWorldPosX e /\
  dInitialWorldPosY e' = dInitialWorldPosY e.
Proof.
  intros Hf. cbv zeta. split.
  - intros bit. cbn. rewrite !clear_flag_spec by auto using clear_flag_u16.
    reflexivity.
  - repeat split.
Qed.

(** *** C10: DrawEntity *)

(** C10: without a sprite [DrawEntity] returns -1 without a blit; whenever
    [DrawEntity] returns it leaves the entity as it was, and it has issued
    no blit (no sprite) or exactly one; on success (result 0) that one blit,
    of the current frame to the position relative to the camera, is its only
    effect. *)
Theorem C10_DrawEntity e cx cy wd :
  (pstSprite e = None ->
   exists wd', DrawEntity e cx cy wd = Returns (-1, e, wd') /\ blits wd' = blits wd) /\
  (forall r e' wd', DrawEntity e cx cy wd = Returns (r, e', wd') ->
     e' = e /\ (r = 0 \/ r = -1) /\
     (exists calls, blits wd' = (calls ++ blits wd)%list /\ (List.length calls <= 1)%nat) /\
     destroyed wd' = destroyed wd /\
     (r = 0 ->
      stderr wd' = stderr wd /\
      exists sprite dst_x dst_y,
        pstSprite e = Some sprite /\
        Double.to_int32 (dWorldPosX e - cx) = Some dst_x /\
        Double.to_int32 (dWorldPosY e - cy) = Some dst_y /\
        blits wd' =
          {| rc_texture := sprite;
             rc_src := {| rect_x := u8Frame e * u8Width e;
                          rect_y := u8FrameOffsetY e * u8Height e;
                          rect_w := u8Width e; rect_h := u8Height e |};
             rc_dst := {| rect_x := dst_x; rect_y := dst_y;
                          rect_w := u8Width e; rect_h := u8Height e |};
             rc_angle := 0%float;
             rc_flip := if FLAG_IS_SET (u16Flags e) ENTITY_DIRECTION
                        then SDL_FLIP_HORIZONTAL else SDL_FLIP_NONE |}
          :: blits wd)).
Proof.
  unfold DrawEntity. split.
  - intros ->. eexists. split; reflexivity.
  - intros r e' wd'. destruct (pstSprite e) as [sprite|].
    + destruct (Double.to_int32 (dWorldPosX e - cx)) as [dst_x|]; cbn [of_option bind];
        [|discriminate].
      destruct (Double.to_int32 (dWorldPosY e - cy)) as [dst_y|]; cbn [of_option bind];
        [|discriminate].
      cbv zeta.
      match goal with |- context [render_status wd ?c =? -1] =>
        set (call := c); destruct (render_status wd call =? -1) end;
        intros [= <- <- <-]; (split; [reflexivity|]); (split; [auto|]);
        (split; [exists [call]; split; [reflexivity|cbn; lia]|]);
        (split; [reflexivity|]); intros Hr; try discriminate Hr.
      split; [reflexivity|]. exists sprite, dst_x, dst_y. repeat split.
    + intros [= <- <- <-]. split; [reflexivity|]. split; [auto|].
      split; [exists []; split; [reflexivity|cbn; lia]|].
      split; [reflexivity|]. discriminate.
Qed.

(** *** Sprites: LoadEntitySprite and DrawEntity together *)

Lemma LoadEntitySprite_spec e file wd :
  let '(r, e', wd') := LoadEntitySprite e file wd in
  e' = set_sprite (load_texture wd file) e /\
  r = match load_texture wd file with Some _ => 0 | None => -1 end /\
  destroyed wd' = (held e ++ destroyed wd)%list /\
  blits wd' = blits wd /\
  stderr wd' = match load_texture wd file with
               | Some _ => stderr wd
               | None => sdl_error wd :: stderr wd
               end /\
  load_texture wd' = load_texture wd /\ sdl_error wd' = sdl_error wd /\
  render_status wd' = render_status wd.
Proof.
  unfold LoadEntitySprite, held.
  destruct (load_texture wd file) as [t|], (pstSprite e) as [old|]; repeat split.
Qed.

(** X1: the result of [LoadEntitySprite] is 0 or -1, and the texture the
    entity held before the call, if any, has been destroyed in either case.
    After a failed load (-1) the entity holds no texture, even if it held one
    before, and [DrawEntity] fails with -1 and a second error line, without a
    blit.  After a successful load (0) every [DrawEntity] call that returns
    has issued exactly one blit, of the texture just loaded. *)
Theorem LoadEntitySprite_then_DrawEntity e file wd r e1 wd1 cx cy :
  LoadEntitySprite e file wd = (r, e1, wd1) ->
  destroyed wd1 = (held e ++ destroyed wd)%list /\
  (r = 0 \/ r = -1) /\
  (r = -1 ->
   load_texture wd file = None /\ pstSprite e1 = None /\
   exists wd2,
     DrawEntity e1 cx cy wd1 = Returns (-1, e1, wd2) /\
     blits wd2 = blits wd /\
     stderr wd2 = sdl_error wd :: sdl_error wd :: stderr wd) /\
  (r = 0 ->
   stderr wd1 = stderr wd /\
   forall r2 e2 wd2, DrawEntity e1 cx cy wd1 = Returns (r2, e2, wd2) ->
     exists call,
       blits wd2 = call :: blits wd /\
       load_texture wd file = Some (rc_texture call) /\
       pstSprite e2 = Some (rc_texture call) /\
       destroyed wd2 = (held e ++ destroyed wd)%list).
Proof.
  intros Hload. pose proof (LoadEntitySprite_spec e file wd) as Hspec.
  rewrite Hload in Hspec.
  destruct Hspec as (-> & -> & Hd & Hb & Herr & Hl & Hs & Hr).
  split; [assumption|].
  destruct (load_texture wd file) as [t|] eqn:Ht.
  - split; [auto|]. split; [discriminate|]. intros _. split; [assumption|].
    intros r2 e2 wd2. unfold DrawEntity. cbn [pstSprite set_sprite].
    destruct (Double.to_int32 _) as [dst_x|]; cbn [of_option bind]; [|discriminate].
    destruct (Double.to_int32 _) as [dst_y|]; cbn [of_option bind]; [|discriminate].
    cbv zeta.
    match goal with |- context [render_status wd1 ?c =? -1] =>
      set (call := c); destruct (render_status wd1 call =? -1) end;
      intros [= <- <- <-]; exists call; cbn; rewrite Hb, Hd; repeat split.
  - split; [auto|]. split; [|discriminate]. intros _. split; [reflexivity|].
    split; [reflexivity|]. unfold DrawEntity. cbn [pstSprite set_sprite].
    eexists. split; [reflexivity|]. cbn. rewrite Hb, Herr, Hs. split; reflexivity.
Qed.

Lemma held_set_sprite o e :
  held (set_sprite o e) = match o with Some t => [t] | None => [] end.
Proof. reflexivity. Qed.

(** X2: over any sequence of [LoadEntitySprite] calls no texture is leaked
    and none is destroyed twice: the textures destroyed so far, oldest first,
    followed by the texture the entity holds, are the textures destroyed
    before, the texture held at the start and the textures of the files that
    loaded, in this order.  There is one result per file, 0 where the file
    loaded and -1 where it did not, one error line per failure, and no
    blit. *)
Theorem LoadEntitySprite_all_accounting e files wd rs e' wd' :
  LoadEntitySprite_all e files wd = (rs, e', wd') ->
  (rev (destroyed wd') ++ held e')%list
  = (rev (destroyed wd) ++ held e ++ loaded wd files)%list /\
  rs = map (fun file => match load_texture wd file with Some _ => 0 | None => -1 end)
         files /\
  List.length (stderr wd')
  = (List.length (stderr wd) + List.length (filter (Z.eqb (-1)) rs))%nat /\
  blits wd' = blits wd.
Proof.
  revert e wd rs e' wd'.
  induction files as [|file files IH]; intros e wd rs e' wd' H; cbn [LoadEntitySprite_all] in H.
  - injection H as <- <- <-. cbn. rewrite app_nil_r, Nat.add_0_r. repeat split.
  - pose proof (LoadEntitySprite_spec e file wd) as Hspec.
    destruct (LoadEntitySprite e file wd) as [[r e1] wd1].
    destruct Hspec as (-> & -> & Hd & Hb & Herr & Hl & _ & _).
    destruct (LoadEntitySprite_all _ files wd1) as [[rs1 e2] wd2] eqn:Hrest.
    injection H as <- <- <-.
    destruct (IH _ _ _ _ _ Hrest) as (Hacc & Hrs & Hlen & Hblits).
    unfold loaded in *. rewrite Hl in *. cbn [flat_map map filter].
    rewrite Hacc, Hd, Hblits, Hb, Hlen, Herr, held_set_sprite, rev_app_distr, <- !app_assoc.
    split; [|split; [|split]].
    + f_equal. unfold held. destruct (pstSprite e); reflexivity.
    + f_equal. assumption.
    + destruct (load_texture wd file); cbn; lia.
    + reflexivity.
Qed.

(** *** The animation: SetEntitySpriteAnimation and UpdateEntity together *)

Lemma UpdateEntity_frames_configuration fuel dts : forall e e',
  UpdateEntity_frames fuel e dts = Returns e' -> same_configuration e e'.
Proof.
  induction dts as [|dt dts IH]; intros e e' H; cbn [UpdateEntity_frames] in H.
  - injection H as <-. constructor; reflexivity.
  - destruct (UpdateEntity fuel e dt) as [e1| |] eqn:H1; cbn [bind] in H; try discriminate.
    destruct (UpdateEntity_configuration _ _ _ _ H1), (IH _ _ H).
    constructor; congruence.
Qed.

(** The frame index and the timer while the timer does not fire, and when
    it fires, for a frame index within the range. *)
Lemma update_frame_idle e dt :
  (1 / dFrameAnimationFPS e <? dFrameDuration e + dt)%float = false ->
  u8FrameStart e <= u8Frame e < u8FrameEnd e ->
  update_frame e dt = (u8Frame e, (dFrameDuration e + dt)%float).
Proof.
  intros Hidle Hf. unfold update_frame. rewrite Hidle.
  destruct (Z.ltb_spec (u8Frame e) (u8FrameStart e)); [lia|].
  destruct (Z.leb_spec (u8FrameEnd e) (u8Frame e)); [lia|]. reflexivity.
Qed.

Lemma update_frame_fired e dt :
  (1 / dFrameAnimationFPS e <? dFrameDuration e + dt)%float = true ->
  u8 (u8FrameStart e) -> u8 (u8FrameEnd e) ->
  u8FrameStart e <= u8Frame e < u8FrameEnd e ->
  update_frame e dt
  = (if u8Frame e + 1 <? u8FrameEnd e then u8Frame e + 1 else u8FrameStart e, 0%float).
Proof.
  unfold u8. intros Hfired Hst Hen Hf. unfold update_frame. rewrite Hfired.
  destruct (Z.ltb_spec (u8Frame e) (u8FrameStart e)); [lia|].
  rewrite Z.mod_small by lia.
  destruct (Z.leb_spec (u8FrameEnd e) (u8Frame e + 1)),
           (Z.ltb_spec (u8Frame e + 1) (u8FrameEnd e)); try lia; reflexivity.
Qed.

(** X3: [SetEntitySpriteAnimation] takes effect with the next [UpdateEntity]
    call: for a new range with [frameStart < frameEnd] and a frame index
    below 255, the call leaves the frame index within the new range
    whatever the old range and the old frame index were, and at
    [frameStart] if the old frame index was at or above the new [frameEnd];
    the row offset and the speed are the new ones. *)
Theorem SetEntitySpriteAnimation_then_UpdateEntity fuel e s en off fps dt e' :
  UpdateEntity fuel (SetEntitySpriteAnimation e s en off fps) dt = Returns e' ->
  u8 s -> u8 en -> s < en -> 0 <= u8Frame e < 255 ->
  s <= u8Frame e' < en /\
  (en <= u8Frame e -> u8Frame e' = s) /\
  u8FrameStart e' = s /\ u8FrameEnd e' = en /\
  u8FrameOffsetY e' = off /\ dFrameAnimationFPS e' = fps.
Proof.
  intros Hret Hs Hen Hlt Hf.
  destruct (UpdateEntity_configuration _ _ _ _ Hret) as [_ _ _ _ _ _ Hfps Hs' He' Hoff _ _ _ _ _ _].
  pose proof (f_equal fst (UpdateEntity_frame _ _ _ _ Hret)) as Hfr. cbn [fst] in Hfr.
  rewrite Hfr. split; [|split].
  - apply (update_frame_spec (SetEntitySpriteAnimation e s en off fps) dt);
      cbn; unfold u8 in *; lia.
  - intros Hout. unfold update_frame. cbn. unfold u8 in *.
    destruct (u8Frame e <? s) eqn:Hsnap; [apply Z.ltb_lt in Hsnap; lia|].
    destruct (1 / fps <? dFrameDuration e + dt)%float; cbn.
    + rewrite Z.mod_small by lia.
      destruct (Z.leb_spec en (u8Frame e + 1)); [reflexivity|lia].
    + destruct (Z.leb_spec en (u8Frame e)); [reflexivity|lia].
  - repeat split; assumption.
Qed.

(** X4: an animation speed of 0 (plus zero) or NaN freezes the animation:
    the period [1 / fps] is plus infinity or NaN, the timer never exceeds
    it, and a frame index within the range stays what it is through any
    number of [UpdateEntity] calls, whatever the time steps. *)
Theorem frozen_animation fuel e dts e' :
  UpdateEntity_frames fuel e dts = Returns e' ->
  dFrameAnimationFPS e = 0%float \/ PrimFloat.is_nan (dFrameAnimationFPS e) = true ->
  u8FrameStart e <= u8Frame e < u8FrameEnd e ->
  u8Frame e' = u8Frame e.
Proof.
  revert e. induction dts as [|dt dts IH]; intros e H Hfps Hf; cbn [UpdateEntity_frames] in H.
  - injection H as <-. reflexivity.
  - destruct (UpdateEntity fuel e dt) as [e1| |] eqn:H1; cbn [bind] in H; try discriminate.
    destruct (UpdateEntity_configuration _ _ _ _ H1) as [_ _ _ _ _ _ Hfps1 Hs1 He1 _ _ _ _ _ _ _].
    pose proof (f_equal fst (UpdateEntity_frame _ _ _ _ H1)) as Hfr. cbn [fst] in Hfr.
    rewrite update_frame_idle in Hfr; [cbn [fst] in Hfr| |assumption].
    + rewrite <- Hfr. apply IH; [assumption| |]; rewrite ?Hfps1, ?Hs1, ?He1, ?Hfr; assumption.
    + destruct Hfps as [-> | Hnan].
      * change (1 / 0)%float with infinity. apply infinity_ltb.
      * apply nan_ltb, div_nan, Hnan.
Qed.

Lemma animation_cycle_step f s en k :
  s <= f < en -> 0 <= k ->
  s + ((if f + 1 <? en then f + 1 else s) - s + k) mod (en - s)
  = s + (f - s + (k + 1)) mod (en - s).
Proof.
  intros Hf Hk. destruct (Z.ltb_spec (f + 1) en) as [H|H].
  - do 2 f_equal. lia.
  - f_equal. replace (f - s + (k + 1)) with (k + 1 * (en - s)) by lia.
    rewrite Z.mod_add by lia. f_equal. lia.
Qed.

(** X5: when every time step is longer than the frame period [1 / fps], an
    animation that starts within its range with the timer at 0 advances by
    exactly one frame per [UpdateEntity] call and runs through the range
    cyclically: after [n] calls the frame index is [frameStart + (frame -
    frameStart + n) mod (frameEnd - frameStart)], and the timer is 0
    again. *)
Theorem animation_cycle fuel e dts e' :
  UpdateEntity_frames fuel e dts = Returns e' ->
  u8 (u8FrameStart e) -> u8 (u8FrameEnd e) ->
  u8FrameStart e <= u8Frame e < u8FrameEnd e ->
  dFrameDuration e = 0%float ->
  Forall (fun dt => (1 / dFrameAnimationFPS e <? dt)%float = true) dts ->
  u8Frame e'
  = u8FrameStart e
    + (u8Frame e - u8FrameStart e + Z.of_nat (List.length dts))
      mod (u8FrameEnd e - u8FrameStart e) /\
  dFrameDuration e' = 0%float.
Proof.
  revert e. induction dts as [|dt dts IH]; intros e H Hst Hen Hf Hd Hdts;
    cbn [UpdateEntity_frames] in H.
  - injection H as <-. split; [|assumption].
    cbn [List.length Z.of_nat]. rewrite Z.add_0_r, Z.mod_small by lia. lia.
  - destruct (UpdateEntity fuel e dt) as [e1| |] eqn:H1; cbn [bind] in H; try discriminate.
    destruct (UpdateEntity_configuration _ _ _ _ H1) as [_ _ _ _ _ _ Hfps1 Hs1 He1 _ _ _ _ _ _ _].
    pose proof (UpdateEntity_frame _ _ _ _ H1) as Hfr.
    inversion Hdts as [|? ? Hdt Hrest]; subst.
    rewrite update_frame_fired in Hfr; try assumption;
      [|rewrite Hd, zero_plus_ltb; assumption].
    injection Hfr as Hframe Htimer.
    destruct (IH e1 H) as [Hres Hzero].
    + rewrite Hs1. assumption.
    + rewrite He1. assumption.
    + rewrite Hs1, He1, Hframe. unfold u8 in *.
      destruct (Z.ltb_spec (u8Frame e + 1) (u8FrameEnd e)); lia.
    + assumption.
    + rewrite Hfps1. assumption.
    + split; [|assumption]. rewrite Hres, Hs1, He1, Hframe.
      cbn [List.length]. rewrite Nat2Z.inj_succ, <- Z.add_1_r.
      apply animation_cycle_step; lia.
Qed.

(** *** The horizontal velocity over many frames *)

Lemma velocity_finite e :
  SFfinite (Prim2SF (dMaxVelocityX e)) = true ->
  (0 <=? dVelocityX e)%float = true -> (dVelocityX e <=? dMaxVelocityX e)%float = true ->
  SFfinite (Prim2SF (dVelocityX e)) = true.
Proof. intros Fm Hlo Hhi. apply (between_finite 0 _ (dMaxVelocityX e)); auto. Qed.

(** X6: the horizontal velocity stays within [[0, dMaxVelocityX]] through
    any number of [UpdateEntity] calls with finite time steps (of either
    sign), moving or not, when it starts there and the acceleration, the
    deceleration and the maximal velocity are finite. *)
Theorem velocity_stays_within_limits fuel e dts e' :
  UpdateEntity_frames fuel e dts = Returns e' ->
  SFfinite (Prim2SF (dAcceleration e)) = true ->
  SFfinite (Prim2SF (dDeceleration e)) = true ->
  SFfinite (Prim2SF (dMaxVelocityX e)) = true ->
  (0 <=? dVelocityX e)%float = true ->
  (dVelocityX e <=? dMaxVelocityX e)%float = true ->
  Forall (fun dt => SFfinite (Prim2SF dt) = true) dts ->
  (0 <=? dVelocityX e')%float = true /\
  (dVelocityX e' <=? dMaxVelocityX e)%float = true.
Proof.
  revert e. induction dts as [|dt dts IH]; intros e H Fa Fd Fm Hlo Hhi Hdts;
    cbn [UpdateEntity_frames] in H.
  - injection H as <-. auto.
  - destruct (UpdateEntity fuel e dt) as [e1| |] eqn:H1; cbn [bind] in H; try discriminate.
    inversion Hdts as [|? ? Hdt Hrest]; subst.
    destruct (UpdateEntity_configuration _ _ _ _ H1)
      as [Ha1 Hd1 _ _ _ _ _ _ _ _ Hm1 _ _ _ _ _].
    pose proof (UpdateEntity_dVelocityX _ _ _ _ H1) as Hv1.
    destruct (limit_velocity_x_range e (integrate_velocity_x e dt)) as (Hlo1 & Hhi1 & _).
    + apply (leb_trans _ _ _ Hlo Hhi).
    + apply integrate_velocity_x_not_nan; auto using velocity_finite.
    + fold (update_velocity_x e dt) in Hlo1, Hhi1. rewrite <- Hv1 in Hlo1, Hhi1.
      rewrite <- Hm1. apply IH; rewrite ?Ha1, ?Hd1, ?Hm1; assumption.
Qed.

Lemma walking_step e dt :
  FLAG_IS_SET (u16Flags e) ENTITY_IS_MOVING = true ->
  (0 <? dAcceleration e)%float = true ->
  SFfinite (Prim2SF (dAcceleration e)) = true ->
  SFfinite (Prim2SF (dMaxVelocityX e)) = true ->
  (0 <=? dVelocityX e)%float = true ->
  (dVelocityX e <=? dMaxVelocityX e)%float = true ->
  (0 <=? dt)%float = true ->
  let v' := update_velocity_x e dt in
  (dVelocityX e <=? v')%float = true /\ (0 <=? v')%float = true /\
  (v' <=? dMaxVelocityX e)%float = true /\
  (dVelocityX e = dMaxVelocityX e -> v' = dMaxVelocityX e).
Proof.
  intros Hmov Ha Fa Fm Hlo Hhi Hdt. cbv zeta.
  unfold update_velocity_x, integrate_velocity_x. rewrite Hmov.
  pose proof (add_nonneg_ge0 (dVelocityX e) (dAcceleration e * dt) Hlo
                (velocity_finite e Fm Hlo Hhi) (mul_nonneg _ _ Ha Fa Hdt)) as Hup.
  set (w := (dVelocityX e + dAcceleration e * dt)%float) in *.
  pose proof (leb_trans _ _ _ Hlo Hhi) as Hmax.
  destruct (limit_velocity_x_range e w Hmax (proj2 (leb_not_nan _ _ Hup)))
    as (Hlo1 & Hhi1 & _ & Htop).
  repeat split; try assumption.
  - unfold limit_velocity_x. destruct (dMaxVelocityX e <=? w)%float eqn:Hceil.
    + rewrite (leb_nonneg _ _ Hmax (leb_refl _ (proj2 (leb_not_nan _ _ Hmax)))). assumption.
    + rewrite (leb_nonneg _ _ Hlo Hup). assumption.
  - intros Heq. apply Htop. rewrite <- Heq. assumption.
Qed.

(** X7: while [IS_MOVING] is set and the time steps are not negative, the
    horizontal velocity never decreases from one [UpdateEntity] call to the
    next (for a positive finite acceleration, a finite maximal velocity and
    a velocity within [[0, dMaxVelocityX]]); and an entity at its maximal
    velocity stays at its maximal velocity. *)
Theorem walking_never_slows fuel e dts e' :
  UpdateEntity_frames fuel e dts = Returns e' ->
  FLAG_IS_SET (u16Flags e) ENTITY_IS_MOVING = true ->
  (0 <? dAcceleration e)%float = true ->
  SFfinite (Prim2SF (dAcceleration e)) = true ->
  SFfinite (Prim2SF (dMaxVelocityX e)) = true ->
  (0 <=? dVelocityX e)%float = true ->
  (dVelocityX e <=? dMaxVelocityX e)%float = true ->
  Forall (fun dt => (0 <=? dt)%float = true) dts ->
  (dVelocityX e <=? dVelocityX e')%float = true /\
  (dVelocityX e' <=? dMaxVelocityX e)%float = true /\
  (dVelocityX e = dMaxVelocityX e -> dVelocityX e' = dMaxVelocityX e).
Proof.
  revert e. induction dts as [|dt dts IH]; intros e H Hmov Ha Fa Fm Hlo Hhi Hdts;
    cbn [UpdateEntity_frames] in H.
  - injection H as <-. repeat split; auto.
    apply leb_refl. apply (proj1 (leb_not_nan _ _ Hhi)).
  - destruct (UpdateEntity fuel e dt) as [e1| |] eqn:H1; cbn [bind] in H; try discriminate.
    inversion Hdts as [|? ? Hdt Hrest]; subst.
    destruct (UpdateEntity_configuration _ _ _ _ H1)
      as [Ha1 _ Hf1 _ _ _ _ _ _ _ Hm1 _ _ _ _ _].
    pose proof (UpdateEntity_dVelocityX _ _ _ _ H1) as Hv1.
    destruct (walking_step e dt Hmov Ha Fa Fm Hlo Hhi Hdt) as (Hup & Hlo1 & Hhi1 & Htop).
    rewrite <- Hv1 in Hup, Hlo1, Hhi1, Htop.
    destruct (IH e1 H) as (Hup2 & Hhi2 & Htop2); rewrite ?Hf1, ?Ha1, ?Hm1; try assumption.
    rewrite Hm1 in Hhi2, Htop2.
    repeat split; try assumption.
    + apply (leb_trans _ _ _ Hup Hup2).
    + intros Heq. apply Htop2. apply Htop. assumption.
Qed.

Lemma wrap_x_within e px :
  (left_border e <=? px)%float = true -> (px <=? right_border e)%float = true ->
  wrap_x e px = px.
Proof.
  intros Hlo Hhi. unfold wrap_x.
  rewrite (leb_not_ltb _ _ Hlo), (leb_not_ltb _ _ Hhi). reflexivity.
Qed.

Lemma idle_step e dt :
  FLAG_IS_SET (u16Flags e) ENTITY_IS_MOVING = false ->
  dVelocityX e = 0%float ->
  (0 <? dDeceleration e)%float = true ->
  SFfinite (Prim2SF (dDeceleration e)) = true ->
  (0 <? dMaxVelocityX e)%float = true ->
  (0 <=? dt)%float = true ->
  update_velocity_x e dt = 0%float /\ move_x e (update_velocity_x e dt) dt = dWorldPosX e.
Proof.
  intros Hmov Hv Hd Fd Hmax Hdt.
  assert (Hvel : update_velocity_x e dt = 0%float).
  { unfold update_velocity_x, integrate_velocity_x. rewrite Hmov, Hv.
    destruct (zero_minus _ (mul_nonneg _ _ Hd Fd Hdt)) as [-> | Hneg].
    - unfold limit_velocity_x. rewrite (ltb_not_leb _ _ Hmax). reflexivity.
    - apply (limit_velocity_x_range e _ (ltb_leb _ _ Hmax) (proj1 (ltb_not_nan _ _ Hneg))).
      assumption. }
  split; [assumption|]. rewrite Hvel. reflexivity.
Qed.

(** X8: an entity at rest that is not told to move stays where it is: with
    [IS_MOVING] clear, velocity 0, a position within the map borders, a
    positive finite deceleration and a positive maximal velocity, any number
    of [UpdateEntity] calls with time steps [dt >= 0] leaves the velocity at
    0 and [dWorldPosX] unchanged. *)
Theorem idle_entity_stays fuel e dts e' :
  UpdateEntity_frames fuel e dts = Returns e' ->
  FLAG_IS_SET (u16Flags e) ENTITY_IS_MOVING = false ->
  dVelocityX e = 0%float ->
  (0 <? dDeceleration e)%float = true ->
  SFfinite (Prim2SF (dDeceleration e)) = true ->
  (0 <? dMaxVelocityX e)%float = true ->
  (left_border e <=? dWorldPosX e)%float = true ->
  (dWorldPosX e <=? right_border e)%float = true ->
  Forall (fun dt => (0 <=? dt)%float = true) dts ->
  dVelocityX e' = 0%float /\ dWorldPosX e' = dWorldPosX e.
Proof.
  revert e. induction dts as [|dt dts IH]; intros e H Hmov Hv Hd Fd Hmax Hlo Hhi Hdts;
    cbn [UpdateEntity_frames] in H.
  - injection H as <-. auto.
  - destruct (UpdateEntity fuel e dt) as [e1| |] eqn:H1; cbn [bind] in H; try discriminate.
    inversion Hdts as [|? ? Hdt Hrest]; subst.
    destruct (UpdateEntity_configuration _ _ _ _ H1)
      as [_ Hd1 Hf1 _ Hw1 Hmw1 _ _ _ _ Hm1 _ _ _ _ _].
    pose proof (UpdateEntity_dVelocityX _ _ _ _ H1) as Hv1.
    pose proof (UpdateEntity_dWorldPosX _ _ _ _ H1) as Hx1.
    destruct (idle_step e dt Hmov Hv Hd Fd Hmax Hdt) as [Hvel Hpos].
    rewrite Hvel in Hv1. rewrite Hpos, (wrap_x_within e _ Hlo Hhi) in Hx1.
    rewrite <- Hx1. apply IH; try assumption; rewrite ?Hf1, ?Hd1, ?Hm1; try assumption;
      unfold left_border, right_border; rewrite Hw1, ?Hmw1, Hx1; assumption.
Qed.

Lemma border_finite e :
  u8 (u8Width e) ->
  SFfinite (Prim2SF (left_border e)) = true /\ SFfinite (Prim2SF (right_border e)) = true.
Proof.
  unfold u8, left_border, right_border. intros Hw.
  pose proof (Z.mod_pos_bound (u32MapWidth e - u8Width e) (2 ^ 32) ltac:(lia)).
  rewrite !Prim2SF_of_int by lia. split; apply SFint_finite_true.
Qed.

Lemma move_x_not_nan e v dt :
  SFfinite (Prim2SF (dWorldPosX e)) = true -> SFfinite (Prim2SF v) = true ->
  SFfinite (Prim2SF dt) = true ->
  PrimFloat.is_nan (move_x e v dt) = false.
Proof.
  intros Fx Fv Ft. unfold move_x.
  destruct (finite_arith_not_nan v dt Fv Ft) as (_ & _ & Hprod).
  destruct (finite_plus_not_nan (dWorldPosX e) (v * dt) Fx Hprod) as [Hadd Hsub].
  destruct (0 <? v)%float; [destruct (FLAG_IS_SET _ _); assumption|].
  apply not_nan_Prim2SF. destruct (Prim2SF (dWorldPosX e)); discriminate.
Qed.

(** X16: an entity never leaves the map: when [dWorldPosX] starts within
    the borders [[-width, (mapWidth - width) mod 2^32]], the velocity within
    [[0, dMaxVelocityX]], and the acceleration, the deceleration and the
    maximal velocity are finite, then after any number of [UpdateEntity]
    calls with finite time steps [dWorldPosX] is within the borders again,
    whichever way the entity faces and however far one step would take
    it. *)
Theorem position_stays_within_borders fuel e dts e' :
  UpdateEntity_frames fuel e dts = Returns e' ->
  u8 (u8Width e) -> u32 (u32MapWidth e) ->
  SFfinite (Prim2SF (dAcceleration e)) = true ->
  SFfinite (Prim2SF (dDeceleration e)) = true ->
  SFfinite (Prim2SF (dMaxVelocityX e)) = true ->
  (0 <=? dVelocityX e)%float = true ->
  (dVelocityX e <=? dMaxVelocityX e)%float = true ->
  (left_border e <=? dWorldPosX e)%float = true ->
  (dWorldPosX e <=? right_border e)%float = true ->
  Forall (fun dt => SFfinite (Prim2SF dt) = true) dts ->
  (left_border e <=? dWorldPosX e')%float = true /\
  (dWorldPosX e' <=? right_border e)%float = true.
Proof.
  revert e. induction dts as [|dt dts IH];
    intros e H Hw Hmw Fa Fd Fm Hlo Hhi Hleft Hright Hdts; cbn [UpdateEntity_frames] in H.
  - injection H as <-. auto.
  - destruct (UpdateEntity fuel e dt) as [e1| |] eqn:H1; cbn [bind] in H; try discriminate.
    inversion Hdts as [|? ? Hdt Hrest]; subst.
    destruct (UpdateEntity_configuration _ _ _ _ H1)
      as [Ha1 Hd1 _ _ Hw1 Hmw1 _ _ _ _ Hm1 _ _ _ _ _].
    pose proof (UpdateEntity_dVelocityX _ _ _ _ H1) as Hv1.
    pose proof (UpdateEntity_dWorldPosX _ _ _ _ H1) as Hx1.
    destruct (border_finite e Hw) as [Fl Fr].
    pose proof (between_finite _ _ _ Hleft Hright Fl Fr) as Fx.
    destruct (limit_velocity_x_range e (integrate_velocity_x e dt)) as (Hlo1 & Hhi1 & _).
    { apply (leb_trans _ _ _ Hlo Hhi). }
    { apply integrate_velocity_x_not_nan; auto using velocity_finite. }
    fold (update_velocity_x e dt) in Hlo1, Hhi1.
    assert (Fv1 : SFfinite (Prim2SF (update_velocity_x e dt)) = true)
      by (apply (between_finite 0 _ (dMaxVelocityX e)); auto).
    destruct (wrap_x_spec e (move_x e (update_velocity_x e dt) dt) Hw Hmw) as (_ & _ & Hin).
    destruct (Hin (move_x_not_nan e _ dt Fx Fv1 Hdt)) as [Hleft1 Hright1].
    rewrite <- Hx1 in Hleft1, Hright1. rewrite <- Hv1 in Hlo1, Hhi1.
    assert (Hl : left_border e1 = left_border e) by (unfold left_border; rewrite Hw1; reflexivity).
    assert (Hr : right_border e1 = right_border e)
      by (unfold right_border; rewrite Hw1, Hmw1; reflexivity).
    rewrite <- Hl, <- Hr.
    apply IH; rewrite ?Ha1, ?Hd1, ?Hm1, ?Hw1, ?Hmw1, ?Hl, ?Hr; assumption.
Qed.

(** X20: an entity that faces right never moves left, except by the wrap
    at the right border: with [ENTITY_DIRECTION] clear, a finite position
    [dWorldPosX >= 0], a time step [dt >= 0], and velocity and limits as in
    X6, the [dWorldPosX] that [UpdateEntity] leaves behind is at least the
    old one, or it is exactly the left border [-width]. *)
Theorem facing_right_never_moves_left fuel e dt e' :
  UpdateEntity fuel e dt = Returns e' ->
  FLAG_IS_SET (u16Flags e) ENTITY_DIRECTION = false ->
  u8 (u8Width e) ->
  SFfinite (Prim2SF (dAcceleration e)) = true ->
  SFfinite (Prim2SF (dDeceleration e)) = true ->
  SFfinite (Prim2SF (dMaxVelocityX e)) = true ->
  (0 <=? dVelocityX e)%float = true ->
  (dVelocityX e <=? dMaxVelocityX e)%float = true ->
  (0 <=? dWorldPosX e)%float = true -> SFfinite (Prim2SF (dWorldPosX e)) = true ->
  (0 <=? dt)%float = true -> SFfinite (Prim2SF dt) = true ->
  dWorldPosX e' = left_border e \/ (dWorldPosX e <=? dWorldPosX e')%float = true.
Proof.
  intros Hret Hdir Hw Fa Fd Fm Hlo Hhi Hx Fx Hdt Fdt.
  rewrite (UpdateEntity_dWorldPosX _ _ _ _ Hret).
  destruct (limit_velocity_x_range e (integrate_velocity_x e dt)) as (Hlo1 & Hhi1 & _).
  { apply (leb_trans _ _ _ Hlo Hhi). }
  { apply integrate_velocity_x_not_nan; auto using velocity_finite. }
  fold (update_velocity_x e dt) in Hlo1, Hhi1.
  assert (Fv1 : SFfinite (Prim2SF (update_velocity_x e dt)) = true)
    by (apply (between_finite 0 _ (dMaxVelocityX e)); auto).
  assert (Hmove : (dWorldPosX e <=? move_x e (update_velocity_x e dt) dt)%float = true).
  { unfold move_x. rewrite Hdir. destruct (0 <? update_velocity_x e dt)%float eqn:Hgo.
    - apply add_nonneg_ge0; try assumption. apply mul_nonneg; assumption.
    - apply leb_refl. apply (proj2 (leb_not_nan _ _ Hx)). }
  assert (Hleft : (left_border e <=? 0)%float = true).
  { unfold left_border, u8 in *. change 0%float with (Double.of_int 0).
    rewrite of_int_leb by lia. apply Z.leb_le. lia. }
  unfold wrap_x.
  rewrite (leb_not_ltb _ _ (leb_trans _ _ _ Hleft (leb_trans _ _ _ Hx Hmove))).
  destruct (right_border e <? _)%float; auto.
Qed.

(** *** In mid-air *)

(** X19: gravity never lifts: for an entity in mid-air that is on screen
    ([dWorldPosY >= 0]) and not rising ([dVelocityY >= 0]), with a positive
    finite gravitation in pixels ([dWorldMeterInPixel * dWorldGravitation])
    and a finite time step [dt >= 0], [UpdateEntity] adds a distance that is
    not negative, the vertical velocity does not decrease, and [dWorldPosY]
    does not decrease: the entity does not rise. *)
Theorem falling_never_rises fuel e dt e' :
  UpdateEntity fuel e dt = Returns e' ->
  FLAG_IS_SET (u16Flags e) ENTITY_IS_IN_MID_AIR = true ->
  (0 <? dWorldMeterInPixel e * dWorldGravitation e)%float = true ->
  SFfinite (Prim2SF (dWorldMeterInPixel e * dWorldGravitation e)) = true ->
  (0 <=? dt)%float = true -> SFfinite (Prim2SF dt) = true ->
  (0 <=? dVelocityY e)%float = true -> SFfinite (Prim2SF (dVelocityY e)) = true ->
  (0 <=? dWorldPosY e)%float = true -> SFfinite (Prim2SF (dWorldPosY e)) = true ->
  (0 <=? dDistanceY e')%float = true /\
  (dVelocityY e <=? dVelocityY e')%float = true /\
  (dWorldPosY e <=? dWorldPosY e')%float = true.
Proof.
  intros Hret Hair Hg Fg Hdt Fdt Hvy Fvy Hy Fy.
  pose proof (UpdateEntity_vertical _ _ _ _ Hret) as Hv.
  unfold update_vertical in Hv. rewrite Hair in Hv. injection Hv as Hdist Hvel Hpos.
  pose proof (times_square_nonneg _ _ Hg Fg Hdt Fdt) as Hd. rewrite Hdist in Hd.
  rewrite Hdist in Hvel, Hpos. rewrite Hvel in Hpos.
  pose proof (add_nonneg_ge0 _ _ Hvy Fvy Hd) as Hup. rewrite Hvel in Hup.
  repeat split; try assumption.
  rewrite <- Hpos. apply add_nonneg_ge0; try assumption.
  apply (leb_trans _ _ _ Hvy Hup).
Qed.

(** *** On the ground *)

(** X9: whenever [UpdateEntity] returns for an entity with [IS_IN_MID_AIR]
    clear, the integer part of the new [dWorldPosY] is a multiple of 8 and
    the new [dWorldPosY] is not greater than the old one: the correction only
    ever moves the entity towards smaller y.  The vertical velocity and
    distance are untouched. *)
Theorem grounded_position_aligned fuel e dt e' :
  UpdateEntity fuel e dt = Returns e' ->
  FLAG_IS_SET (u16Flags e) ENTITY_IS_IN_MID_AIR = false ->
  (exists t', Double.to_int32 (dWorldPosY e') = Some t' /\ Z.rem t' 8 = 0) /\
  (dWorldPosY e' <=? dWorldPosY e)%float = true /\
  dVelocityY e' = dVelocityY e /\ dDistanceY e' = dDistanceY e.
Proof.
  intros Hret Hground.
  destruct (UpdateEntity_grounded_inv _ _ _ _ Hret Hground) as (Hy & Hvy & Hdy).
  destruct (correct_y_returns _ _ _ Hy) as [Hal Hle]. auto.
Qed.

(** X10: on the ground the correction is idempotent: once one
    [UpdateEntity] call has returned, every further sequence of calls
    returns as well, without another turn of the correction loop, and leaves
    [dWorldPosY] where the first call put it. *)
Theorem grounded_position_settles fuel e dt e1 dts :
  UpdateEntity fuel e dt = Returns e1 ->
  FLAG_IS_SET (u16Flags e) ENTITY_IS_IN_MID_AIR = false ->
  exists e2,
    UpdateEntity_frames fuel e1 dts = Returns e2 /\
    UpdateEntity_frames 1 e1 dts = Returns e2 /\
    dWorldPosY e2 = dWorldPosY e1.
Proof.
  intros Hret Hground.
  destruct (UpdateEntity_grounded_inv _ _ _ _ Hret Hground) as (Hy & _ & _).
  destruct (correct_y_returns _ _ _ Hy) as [(t' & Ht' & Hrem) _].
  pose proof (same_flags _ _ (UpdateEntity_configuration _ _ _ _ Hret)) as Hflags.
  rewrite <- Hflags in Hground.
  assert (Hfuel : exists n, fuel = S n).
  { destruct fuel as [|n]; [discriminate Hy | eauto]. }
  destruct Hfuel as [n ->].
  clear Hret Hy Hflags. revert e1 Hground Ht'.
  induction dts as [|dt' dts IH]; intros e1 Hground Ht'; cbn [UpdateEntity_frames].
  - eauto.
  - destruct (UpdateEntity_returns_grounded (S n) e1 dt' _ Hground
                (correct_y_aligned n _ t' Ht' Hrem)) as (e2 & Hret2 & Hy2).
    destruct (UpdateEntity_returns_grounded 1 e1 dt' _ Hground
                (correct_y_aligned 0 _ t' Ht' Hrem)) as (e2' & Hret2' & Hy2').
    assert (e2' = e2).
    { unfold UpdateEntity, update_vertical in Hret2, Hret2'.
      rewrite Hground in Hret2, Hret2'.
      rewrite (correct_y_aligned n _ t' Ht' Hrem) in Hret2.
      rewrite (correct_y_aligned 0 _ t' Ht' Hrem) in Hret2'. congruence. }
    subst e2'. rewrite Hret2, Hret2'. cbn [bind].
    destruct (IH e2) as (e3 & H3 & H3' & Hy3).
    + rewrite (same_flags _ _ (UpdateEntity_configuration _ _ _ _ Hret2)). assumption.
    + rewrite Hy2. assumption.
    + exists e3. repeat split; try assumption. congruence.
Qed.

(** X11: the correction loop always ends, after 8 turns at most: with fuel
    for 9 tests of the loop condition the model never runs out of fuel.
    [UpdateEntity] returns exactly when [IS_IN_MID_AIR] is set, or
    [dWorldPosY] converts to an [int32_t] that is a multiple of 8, or it
    converts and its floor is above [INT32_MIN]; in every other case (a
    position that is NaN, infinite or beyond the range of [int32_t], or
    that reaches [INT32_MIN - 1] in the loop) the behaviour is undefined. *)
Theorem UpdateEntity_defined_iff fuel e dt :
  (9 <= fuel)%nat ->
  UpdateEntity fuel e dt <> OutOfFuel /\
  ((exists e', UpdateEntity fuel e dt = Returns e') <->
   FLAG_IS_SET (u16Flags e) ENTITY_IS_IN_MID_AIR = true \/
   exists t, Double.to_int32 (dWorldPosY e) = Some t /\
     (Z.rem t 8 = 0 \/ Double.INT32_MIN < Double.SFfloor (Prim2SF (dWorldPosY e)))) /\
  ((forall e', UpdateEntity fuel e dt <> Returns e') -> UpdateEntity fuel e dt = Undefined).
Proof.
  intros Hfuel. pose proof (UpdateEntity_fuel fuel e dt Hfuel) as [_ Hne].
  split; [assumption|]. split.
  - split.
    + intros [e' Hret].
      destruct (FLAG_IS_SET (u16Flags e) ENTITY_IS_IN_MID_AIR) eqn:Hair; [auto|right].
      destruct (UpdateEntity_grounded_inv _ _ _ _ Hret Hair) as (Hy & _ & _).
      destruct fuel as [|[|n]]; try lia.
      destruct (Double.to_int32 (dWorldPosY e)) as [t|] eqn:Ht;
        [|rewrite correct_y_undefined in Hy by assumption; discriminate].
      exists t. split; [reflexivity|].
      destruct (Z.eq_dec (Z.rem t 8) 0) as [Hrem|Hrem]; [auto|right].
      rewrite (correct_y_step _ _ t Ht Hrem) in Hy.
      pose proof (to_int32_range _ t Ht) as Hr.
      pose proof (floor_trunc _ t Ht) as (HF & _). cbv zeta in HF.
      set (F := Double.SFfloor (Prim2SF (dWorldPosY e))) in *.
      destruct (Z.lt_ge_cases Double.INT32_MIN F) as [Hlt|Hge]; [assumption|].
      rewrite correct_y_undefined in Hy; [discriminate|].
      apply to_int32_of_int_none; unfold Double.INT32_MIN, Double.INT32_MAX in *; lia.
    + intros [Hair | (t & Ht & [Hrem | Hmin])].
      * apply UpdateEntity_returns_airborne. assumption.
      * apply UpdateEntity_returns; [assumption|]. right. exists t. auto.
      * destruct (FLAG_IS_SET (u16Flags e) ENTITY_IS_IN_MID_AIR) eqn:Hair;
          [apply UpdateEntity_returns_airborne; assumption|].
        destruct (Z.eq_dec (Z.rem t 8) 0) as [Hrem|Hrem].
        -- apply UpdateEntity_returns; [assumption|]. right. exists t. auto.
        -- destruct (UpdateEntity_returns_grounded fuel e dt _ Hair
                       (correct_y_unaligned fuel _ t Ht Hrem Hmin Hfuel)) as (e' & Hret & _).
           eauto.
  - intros Hnot. destruct (UpdateEntity fuel e dt) as [e'| |]; try reflexivity.
    + exfalso. apply (Hnot e'). reflexivity.
    + contradiction.
Qed.

(** *** ResurrectEntity, twice and before an update *)

Lemma clear_flag_testbit number bit i :
  0 <= i ->
  Z.testbit (clear_flag number bit) i
  = (i <? 16) && Z.testbit number i && negb (i =? bit).
Proof.
  intros Hi. unfold clear_flag.
  destruct (Z.ltb_spec i 16) as [H16|H16].
  - rewrite Z.mod_pow2_bits_low, Z.land_spec, Z.lnot_spec by lia. cbn [andb]. f_equal. f_equal.
    destruct (Z.le_gt_cases 0 bit) as [Hb|Hb].
    + rewrite Z.shiftl_1_l, Z.pow2_bits_eqb by lia. apply Z.eqb_sym.
    + rewrite <- (Z.opp_involutive bit), Z.shiftl_opp_r, Z.shiftr_div_pow2 by lia.
      rewrite Z.div_small, Z.bits_0.
      * symmetry. apply Z.eqb_neq. lia.
      * split; [lia|]. apply (Z.pow_lt_mono_r 2 0); lia.
  - rewrite Z.mod_pow2_bits_high by lia. reflexivity.
Qed.

Lemma clear_flags_twice number a b :
  clear_flag (clear_flag (clear_flag (clear_flag number a) b) a) b
  = clear_flag (clear_flag number a) b.
Proof.
  apply Z.bits_inj'. intros i Hi. rewrite !clear_flag_testbit by assumption.
  destruct (i <? 16), (Z.testbit number i), (i =? a), (i =? b); reflexivity.
Qed.

Lemma ResurrectEntity_fields e :
  ResurrectEntity e
  = {| stBB := stBB e; dAcceleration := dAcceleration e; dDeceleration := dDeceleration e;
       u16Flags := clear_flag (clear_flag (u16Flags e) ENTITY_IS_DEAD) ENTITY_IS_MOVING;
       u8Height := u8Height e; u8Width := u8Width e;
       u32MapWidth := u32MapWidth e; dFrameAnimationFPS := dFrameAnimationFPS e;
       u8FrameStart := u8FrameStart e; u8FrameEnd := u8FrameEnd e;
       u8FrameOffsetY := u8FrameOffsetY e; dMaxVelocityX := dMaxVelocityX e;
       dWorldMeterInPixel := dWorldMeterInPixel e; dWorldGravitation := dWorldGravitation e;
       dWorldPosX := dInitialWorldPosX e; dWorldPosY := dInitialWorldPosY e;
       pstSprite := pstSprite e;
       u8Frame := u8Frame e; dFrameDuration := dFrameDuration e;
       dInitialWorldPosX := dInitialWorldPosX e; dInitialWorldPosY := dInitialWorldPosY e;
       dDistanceY := dDistanceY e; dVelocityX := dVelocityX e; dVelocityY := dVelocityY e |}.
Proof. reflexivity. Qed.

(** X12: [ResurrectEntity] is idempotent: a second call changes nothing,
    whatever the entity and the positions of the flag bits. *)
Theorem ResurrectEntity_idempotent e :
  ResurrectEntity (ResurrectEntity e) = ResurrectEntity e.
Proof.
  rewrite (ResurrectEntity_fields (ResurrectEntity e)).
  rewrite (ResurrectEntity_fields e).
  cbn [stBB dAcceleration dDeceleration u16Flags u8Height u8Width u32MapWidth
       dFrameAnimationFPS u8FrameStart u8FrameEnd u8FrameOffsetY dMaxVelocityX
       dWorldMeterInPixel dWorldGravitation dWorldPosX dWorldPosY pstSprite u8Frame
       dFrameDuration dInitialWorldPosX dInitialWorldPosY dDistanceY dVelocityX
       dVelocityY].
  rewrite clear_flags_twice. reflexivity.
Qed.

(** X13: the first [UpdateEntity] call after [ResurrectEntity] finds the
    entity alive and not moving, so it decelerates: the new velocity is the
    old one minus [dDeceleration * dt], limited to [[0, dMaxVelocityX]]; it
    is not reset, and an entity that died walking leaves the spawn point by
    [velocity * dt] in the direction it faces.  The bounding box the call
    leaves behind is the box at the spawn point. *)
Theorem ResurrectEntity_then_UpdateEntity fuel e dt e' :
  UpdateEntity fuel (ResurrectEntity e) dt = Returns e' ->
  u16 (u16Flags e) ->
  FLAG_IS_SET (u16Flags e') ENTITY_IS_DEAD = false /\
  FLAG_IS_SET (u16Flags e') ENTITY_IS_MOVING = false /\
  dVelocityX e' = limit_velocity_x e (dVelocityX e - dDeceleration e * dt)%float /\
  dWorldPosX e'
  = wrap_x e
      (if (0 <? dVelocityX e')%float then
         if FLAG_IS_SET (u16Flags e') ENTITY_DIRECTION
         then (dInitialWorldPosX e - dVelocityX e' * dt)%float
         else (dInitialWorldPosX e + dVelocityX e' * dt)%float
       else dInitialWorldPosX e) /\
  stBB e' = {| dBottom := (dInitialWorldPosY e + Double.of_int (u8Height e))%float;
               dLeft   := dInitialWorldPosX e;
               dRight  := (dInitialWorldPosX e + Double.of_int (u8Width e))%float;
               dTop    := dInitialWorldPosY e |}.
Proof.
  intros Hret Hf.
  pose proof (same_flags _ _ (UpdateEntity_configuration _ _ _ _ Hret)) as Hflags.
  assert (Hdead : FLAG_IS_SET (u16Flags (ResurrectEntity e)) ENTITY_IS_DEAD = false).
  { cbn. rewrite !clear_flag_spec by auto using clear_flag_u16.
    rewrite Z.eqb_refl. cbn. rewrite andb_false_r. reflexivity. }
  assert (Hmov : FLAG_IS_SET (u16Flags (ResurrectEntity e)) ENTITY_IS_MOVING = false).
  { cbn. rewrite !clear_flag_spec by auto using clear_flag_u16.
    rewrite Z.eqb_refl. cbn. rewrite andb_false_r. reflexivity. }
  assert (Hvel : dVelocityX e'
                 = limit_velocity_x e (dVelocityX e - dDeceleration e * dt)%float).
  { rewrite (UpdateEntity_dVelocityX _ _ _ _ Hret).
    unfold update_velocity_x, integrate_velocity_x. rewrite Hmov. reflexivity. }
  rewrite Hflags. repeat split; try assumption.
  - rewrite (UpdateEntity_dWorldPosX _ _ _ _ Hret), <- (UpdateEntity_dVelocityX _ _ _ _ Hret).
    reflexivity.
  - rewrite (UpdateEntity_stBB _ _ _ _ Hret). reflexivity.
Qed.

(** *** DrawEntity: where it is defined *)

(** X14: with a sprite bound, an entity at an integer position and a camera
    at an integer position whose differences fit an [int32_t], [DrawEntity]
    is defined and issues exactly one blit, to the exact difference of the
    two positions; it returns 0, or -1 with one error line when the
    renderer rejects the blit. *)
Theorem DrawEntity_at_integer_positions e sprite x y cx cy wd :
  pstSprite e = Some sprite ->
  dWorldPosX e = Double.of_int x -> dWorldPosY e = Double.of_int y ->
  Z.abs x < 2 ^ 53 -> Z.abs y < 2 ^ 53 -> Z.abs cx < 2 ^ 53 -> Z.abs cy < 2 ^ 53 ->
  Double.INT32_MIN <= x - cx <= Double.INT32_MAX ->
  Double.INT32_MIN <= y - cy <= Double.INT32_MAX ->
  exists call,
    rc_texture call = sprite /\
    rc_dst call = {| rect_x := x - cx; rect_y := y - cy;
                     rect_w := u8Width e; rect_h := u8Height e |} /\
    rc_src call = {| rect_x := u8Frame e * u8Width e;
                     rect_y := u8FrameOffsetY e * u8Height e;
                     rect_w := u8Width e; rect_h := u8Height e |} /\
    DrawEntity e (Double.of_int cx) (Double.of_int cy) wd
    = Returns (if render_status wd call =? -1
               then (-1, e, log_error (sdl_error wd) (log_blit call wd))
               else (0, e, log_blit call wd)).
Proof.
  intros Hs Hx Hy Bx By Bcx Bcy Rx Ry. unfold DrawEntity. rewrite Hs, Hx, Hy.
  assert (Sx : Z.abs (x - cx) < 2 ^ 53) by (apply int32_small in Rx; lia).
  assert (Sy : Z.abs (y - cy) < 2 ^ 53) by (apply int32_small in Ry; lia).
  rewrite !sub_of_int, !to_int32_of_int by assumption. cbn [of_option bind]. cbv zeta.
  match goal with |- context [render_status wd ?c =? -1] => exists c end.
  repeat split. destruct (render_status wd _ =? -1); reflexivity.
Qed.

(** X15: with a sprite bound, [DrawEntity] has undefined behaviour whenever
    a coordinate of the entity is NaN or infinite, whatever the camera
    position: the render position is then NaN or infinite as well and is
    converted to [int].  Without a sprite it returns -1 before it looks at
    the position. *)
Theorem DrawEntity_undefined_off_the_number_line e cx cy wd :
  SFfinite (Prim2SF (dWorldPosX e)) = false \/
  SFfinite (Prim2SF (dWorldPosY e)) = false ->
  DrawEntity e cx cy wd
  = match pstSprite e with
    | Some _ => Undefined
    | None => Returns (-1, e, log_error (sdl_error wd) wd)
    end.
Proof.
  intros Hpos. unfold DrawEntity. destruct (pstSprite e) as [sprite|]; [|reflexivity].
  destruct Hpos as [Hx|Hy].
  - rewrite (sub_not_finite _ cx Hx). reflexivity.
  - rewrite (sub_not_finite _ cy Hy).
    destruct (Double.to_int32 (dWorldPosX e - cx)); reflexivity.
Qed.

End Properties.

(** ** The statements at work on concrete entities *)

(** Sam is the entity [InitEntity(32, 40, px, py, 1000)] creates. *)
Example InitEntity_sam px py : InitEntity true 32 40 px py 1000 = Some (sam px py).
Proof. reflexivity. Qed.

(** With a sprite, Sam at (100.7, 16) seen from a camera at (60, 0) is one
    blit of frame 0 to (40, 16), and nothing else. *)
Example DrawEntity_blits_once :
  DrawEntity (bits := example_bits) (set_sprite (Some 1%positive) (sam 100.7 16)) 60 0
    quiet_world
  = Returns
      (0, set_sprite (Some 1%positive) (sam 100.7 16),
       log_blit {| rc_texture := 1%positive;
                   rc_src := {| rect_x := 0; rect_y := 0; rect_w := 32; rect_h := 40 |};
                   rc_dst := {| rect_x := 40; rect_y := 16; rect_w := 32; rect_h := 40 |};
                   rc_angle := 0%float; rc_flip := SDL_FLIP_NONE |}
         quiet_world).
Proof. reflexivity. Qed.

(** The library functions of the model on some doubles: [floor] rounds
    towards minus infinity, the conversion to [int32_t] towards zero. *)
Example floor_examples :
  map Double.floor [17.5; 17; 0.5; -0.5; -7.5; -8; 4503599627370497; infinity]%float
  = [17; 17; 0; -1; -8; -8; 4503599627370497; infinity]%float.
Proof. reflexivity. Qed.

Example to_int32_examples :
  map Double.to_int32 [17.5; 16.5; 0.5; -0.5; -7.5; 2147483647.5; 2147483648; nan]%float
  = [Some 17; Some 16; Some 0; Some 0; Some (-7); Some 2147483647; None; None].
Proof. reflexivity. Qed.

(** The box lags one call behind: after the call that takes a walking Sam
    from x = 100 to x = 102, the box still starts at 100. *)
Example box_lags_behind :
  exists e',
    UpdateEntity (bits := example_bits) 9
      (with_velocity 100 0 (set_flags WALKING (sam 100 16))) 0.02 = Returns e' /\
    dWorldPosX e' = 102%float /\ dLeft (stBB e') = 100%float /\
    dRight (stBB e') = 132%float.
Proof. eexists. split; [vm_compute; reflexivity|]. repeat split. Qed.

(** C1 at work: Sam starts to walk. *)
Lemma C1_witness :
  exists e',
    UpdateEntity (bits := example_bits) 9 (set_flags WALKING (sam 100 16)) 0.5 = Returns e' /\
    dVelocityX e' = 100%float.
Proof.
  destruct (UpdateEntity (bits := example_bits) 9 (set_flags WALKING (sam 100 16)) 0.5)
    as [e'| |] eqn:Hret; try (vm_compute in Hret; discriminate).
  exists e'. split; [reflexivity|].
  apply (C1_velocity_within_limits 9 _ 0.5 e' Hret); reflexivity.
Defined.

(** C1 as stated fails: a velocity that is NaN stays NaN, outside every
    range; and under a negative ceiling the floor 0 wins, above the ceiling. *)
Lemma C1_counterexample :
  (exists e',
     UpdateEntity (bits := example_bits) 9 (with_velocity nan 0 (sam 100 16)) 0.016
     = Returns e' /\
     ((0 <=? dVelocityX e') && (dVelocityX e' <=? dMaxVelocityX e'))%float = false) /\
  (exists e',
     UpdateEntity (bits := example_bits) 9 (with_max_velocity (-1) (sam 100 16)) 0.016
     = Returns e' /\
     ((0 <=? dVelocityX e') && (dVelocityX e' <=? dMaxVelocityX e'))%float = false).
Proof. split; eexists; split; vm_compute; reflexivity. Qed.

(** C2 at work: Sam at an integer position. *)
Lemma C2_witness :
  exists e',
    UpdateEntity (bits := example_bits) 9 (sam 100 16) 0.016 = Returns e' /\
    (dRight (stBB e') - dLeft (stBB e'))%float = 32%float.
Proof.
  destruct (UpdateEntity (bits := example_bits) 9 (sam 100 16) 0.016)
    as [e'| |] eqn:Hret; try (vm_compute in Hret; discriminate).
  exists e'. split; [reflexivity|].
  destruct (C2_bounding_box_from_entry_position 9 _ 0.016 e' Hret) as (_ & Hwidth & _).
  rewrite (Hwidth 100); [|reflexivity|vm_compute; discriminate|vm_compute; split; [discriminate|reflexivity]].
  rewrite (same_width _ _ (UpdateEntity_configuration _ _ _ _ Hret)). reflexivity.
Defined.

(** C2 as stated fails: at x = 100.3 the sum with the width 32 is rounded,
    and [right - left] is 32.000000000000014; at x = 2 ^ 60, where
    neighbouring doubles are 256 apart, the sum is x again and
    [right - left] is 0. *)
Lemma C2_counterexample :
  (exists e',
     UpdateEntity (bits := example_bits) 9 (sam 100.3 16) 0.016 = Returns e' /\
     (dRight (stBB e') - dLeft (stBB e'))%float = 32.000000000000014%float /\
     (dRight (stBB e') - dLeft (stBB e') =? Double.of_int (u8Width e'))%float = false) /\
  (exists e',
     UpdateEntity (bits := example_bits) 9 (sam 1152921504606846976 16) 0.016
     = Returns e' /\
     (dRight (stBB e') - dLeft (stBB e'))%float = 0%float /\
     (dRight (stBB e') - dLeft (stBB e') =? Double.of_int (u8Width e'))%float = false).
Proof. split; eexists; (split; [vm_compute; reflexivity|]); split; reflexivity. Qed.

(** C3 as stated fails: the box [InitEntity] leaves behind is not at the
    initial position (100, 200). *)
Lemma C3_counterexample :
  exists e,
    InitEntity true 32 40 100 200 1000 = Some e /\
    (dTop (stBB e) =? 200)%float = false /\
    (dLeft (stBB e) =? 100)%float = false /\
    (dRight (stBB e) =? 100 + 32)%float = false /\
    (dBottom (stBB e) =? 200 + 40)%float = false.
Proof. eexists. split; [reflexivity|]. vm_compute. repeat split. Qed.

(** C4 at work: from [mapWidth - width + 1 = 969],
    walking right, Sam lands on [-width]. *)
Lemma C4_witness :
  exists e',
    UpdateEntity (bits := example_bits) 9
      (with_velocity 50 0 (set_flags WALKING (sam 969 16))) 0.016 = Returns e' /\
    dWorldPosX e' = Double.of_int (- 32).
Proof.
  destruct (UpdateEntity (bits := example_bits) 9
              (with_velocity 50 0 (set_flags WALKING (sam 969 16))) 0.016)
    as [e'| |] eqn:Hret; try (vm_compute in Hret; discriminate).
  exists e'. split; [reflexivity|].
  refine (proj2 (proj2 (proj2 (C4_position_within_borders 9 _ 0.016 e' Hret _ _ _)))
            _ _ _ _).
  - vm_compute. split; [discriminate|reflexivity].
  - vm_compute. split; [discriminate|reflexivity].
  - vm_compute. discriminate.
  - reflexivity.
  - reflexivity.
  - reflexivity.
  - rewrite (UpdateEntity_dVelocityX _ _ _ _ Hret). vm_compute. reflexivity.
Defined.

(** C4 as stated fails: on a map narrower than the entity the unsigned
    difference [mapWidth - width] wraps, and the position 0 is kept although it
    is above [mapWidth - width = -32]; and a position that is NaN is on
    neither side of either border and is kept. *)
Lemma C4_counterexample :
  (exists e',
     UpdateEntity (bits := example_bits) 9 (with_map_width 0 (sam 0 16)) 0.016 = Returns e' /\
     (dWorldPosX e' <=? Double.of_int (u32MapWidth e' - u8Width e'))%float = false) /\
  (exists e',
     UpdateEntity (bits := example_bits) 9 (sam nan 16) 0.016 = Returns e' /\
     ((Double.of_int (- u8Width e') <=? dWorldPosX e')
      && (dWorldPosX e' <=? Double.of_int (u32MapWidth e' - u8Width e')))%float = false).
Proof. split; eexists; split; vm_compute; reflexivity. Qed.

(** C5 at work: the first frame advance of Sam. *)
Lemma C5_witness :
  exists e',
    UpdateEntity (bits := example_bits) 9 (sam 100 16) 0.11 = Returns e' /\
    0 <= u8Frame e' < 12.
Proof.
  destruct (UpdateEntity (bits := example_bits) 9 (sam 100 16) 0.11)
    as [e'| |] eqn:Hret; try (vm_compute in Hret; discriminate).
  exists e'. split; [reflexivity|].
  pose proof (proj1 (C5_frame_within_range 9 _ 0.11 e' Hret
    ltac:(vm_compute; split; [discriminate|reflexivity])
    ltac:(vm_compute; split; [discriminate|reflexivity])
    ltac:(vm_compute; split; [discriminate|reflexivity])
    ltac:(vm_compute; reflexivity)
    ltac:(left; vm_compute; reflexivity))) as H.
  rewrite (same_frame_start _ _ (UpdateEntity_configuration _ _ _ _ Hret)) in H.
  rewrite (same_frame_end _ _ (UpdateEntity_configuration _ _ _ _ Hret)) in H.
  exact H.
Defined.

(** C5 as stated fails: with frames [[5, 10)] and the frame index at 255, the
    increment wraps to 0, which is below [frameStart]. *)
Lemma C5_counterexample :
  exists e',
    UpdateEntity (bits := example_bits) 9
      (with_frame 255 1 (SetEntitySpriteAnimation (sam 100 16) 5 10 0 20)) 0.016 = Returns e' /\
    u8FrameStart e' = 5 /\ u8FrameEnd e' = 10 /\ u8Frame e' = 0.
Proof. eexists. split; [vm_compute; reflexivity|]. repeat split. Qed.

(** The animation of the specification: frames [[0, 4)] at 10 fps, time
    steps of 0.11 s; the frame index goes 1, 2, 3 and back to 0. *)
Example frames_cycle :
  let e := SetEntitySpriteAnimation (sam 100 16) 0 4 0 10 in
  let frame_after dts :=
    match UpdateEntity_frames (bits := example_bits) 9 e dts with
    | Returns e' => Some (u8Frame e')
    | _ => None
    end in
  map frame_after [[0.11]; [0.11; 0.11]; [0.11; 0.11; 0.11]; [0.11; 0.11; 0.11; 0.11]]%float
  = [Some 1; Some 2; Some 3; Some 0].
Proof. vm_compute. reflexivity. Qed.

(** C6 at work: from -7.5 the correction ends at -16. *)
Lemma C6_witness :
  exists e',
    UpdateEntity (bits := example_bits) 9 (sam 100 (-7.5)) 0.016 = Returns e' /\
    dWorldPosY e' = (-16)%float.
Proof.
  destruct (proj2 (C6_grid_snap (bits := example_bits) 9 (sam 100 (-7.5)) 0.016 (-7)
                     eq_refl eq_refl (le_n 9))
              ltac:(vm_compute; discriminate) ltac:(vm_compute; reflexivity))
    as (e' & Hret & Hy & _).
  exists e'. split; [exact Hret|]. rewrite Hy. reflexivity.
Defined.

(** C6 as stated fails: 16.5 is left at 16.5, not snapped down to
    [8 * floor(16.5 / 8) = 16]; and -7.5 ends at -16, not at
    [8 * floor(-7.5 / 8) = -8]. *)
Lemma C6_counterexample :
  FLAG_IS_SET (u16Flags (sam 100 16.5)) (@ENTITY_IS_IN_MID_AIR example_bits) = false /\
  FLAG_IS_SET (u16Flags (sam 100 (-7.5))) (@ENTITY_IS_IN_MID_AIR example_bits) = false /\
  (exists e',
     UpdateEntity (bits := example_bits) 9 (sam 100 16.5) 0.016 = Returns e' /\
     Double.of_int (8 * (Double.SFfloor (Prim2SF 16.5) / 8)) = 16%float /\
     dWorldPosY e' = 16.5%float /\ (dWorldPosY e' =? 16)%float = false) /\
  (exists e',
     UpdateEntity (bits := example_bits) 9 (sam 100 (-7.5)) 0.016 = Returns e' /\
     Double.of_int (8 * (Double.SFfloor (Prim2SF (-7.5)) / 8)) = (-8)%float /\
     dWorldPosY e' = (-16)%float /\ (dWorldPosY e' =? -8)%float = false).
Proof.
  split; [reflexivity|]. split; [reflexivity|].
  split; eexists; (split; [vm_compute; reflexivity|]); repeat split.
Qed.

(** C7 at work: three frames take Sam from 17 to 16. *)
Lemma C7_witness :
  exists e',
    UpdateEntity_frames (bits := example_bits) 9 (sam 100 17) [0.016; 0.016; 0.016]%float
    = Returns e' /\
    dWorldPosY e' = 16%float.
Proof.
  refine (proj1 (C7_snap_converges (bits := example_bits) 9 (sam 100 17) eq_refl _)
            eq_refl _ _).
  - repeat constructor.
  - discriminate.
Defined.

(** C8 at work: Sam falls. *)
Lemma C8_witness :
  exists e',
    UpdateEntity (bits := example_bits) 0 (set_flags AIRBORNE (sam 100 16)) 0.5 = Returns e' /\
    dDistanceY e' = (48 * 9.81 * 0.5 * 0.5)%float.
Proof.
  destruct (C8_gravity (bits := example_bits) 0 (set_flags AIRBORNE (sam 100 16)) 0.5 eq_refl)
    as (e' & Hret & _ & Hd & _).
  exists e'. split; [exact Hret|exact Hd].
Defined.

(** C9 at work: a dead, walking, airborne Sam (flags 7) that has strayed from
    its spawn point (100, 16) comes back airborne only. *)
Lemma C9_witness :
  let e := set_world_pos 300 80 (with_velocity 50 3 (set_flags 7 (sam 100 16))) in
  let e' := ResurrectEntity (bits := example_bits) e in
  u16Flags e' = AIRBORNE /\ dWorldPosX e' = 100%float /\ dWorldPosY e' = 16%float /\
  dVelocityX e' = 50%float /\ dVelocityY e' = 3%float.
Proof.
  cbv zeta.
  pose proof (C9_ResurrectEntity (bits := example_bits)
                (set_world_pos 300 80 (with_velocity 50 3 (set_flags 7 (sam 100 16))))
                ltac:(vm_compute; split; [discriminate|reflexivity]))
    as (_ & Hx & Hy & Hvx & Hvy & _).
  split; [reflexivity|]. exact (conj Hx (conj Hy (conj Hvx Hvy))).
Defined.

(** C10 at work: Sam has no sprite yet. *)
Lemma C10_witness :
  exists wd',
    DrawEntity (bits := example_bits) (sam 100 16) 0 0 quiet_world
    = Returns (-1, sam 100 16, wd') /\
    blits wd' = [].
Proof.
  exact (proj1 (C10_DrawEntity (bits := example_bits) (sam 100 16) 0 0 quiet_world) eq_refl).
Defined.

(** ** The further properties at work *)

(** X1 at work: Sam holds texture 1; loading a file that does not exist
    destroys it and leaves Sam without a sprite. *)
Lemma LoadEntitySprite_then_DrawEntity_witness :
  exists e1 wd1,
    LoadEntitySprite (set_sprite (Some 1%positive) (sam 100 16)) "missing.png" sprite_world
    = (-1, e1, wd1) /\
    destroyed wd1 = [1%positive] /\ pstSprite e1 = None.
Proof.
  destruct (LoadEntitySprite (set_sprite (Some 1%positive) (sam 100 16)) "missing.png"
              sprite_world) as [[r e1] wd1] eqn:Hload.
  pose proof (LoadEntitySprite_then_DrawEntity (bits := example_bits) _ _ _ _ _ _ 0 0 Hload)
    as (Hd & _ & Hfail & _).
  assert (Hr : r = -1) by (vm_compute in Hload; congruence). subst r.
  exists e1, wd1. split; [reflexivity|]. split; [exact Hd|].
  exact (proj1 (proj2 (Hfail eq_refl))).
Defined.

(** X2 at work: a load, a failed load and another load. *)
Lemma LoadEntitySprite_all_accounting_witness :
  exists e' wd',
    LoadEntitySprite_all (sam 100 16) ["sam.png"; "missing.png"; "sam.png"]%string sprite_world
    = ([0; -1; 0], e', wd') /\
    (rev (destroyed wd') ++ held e')%list = [7%positive; 7%positive].
Proof.
  destruct (LoadEntitySprite_all (sam 100 16) ["sam.png"; "missing.png"; "sam.png"]%string
              sprite_world) as [[rs e'] wd'] eqn:Hall.
  pose proof (LoadEntitySprite_all_accounting _ _ _ _ _ _ Hall) as (Hacc & Hrs & _).
  exists e', wd'. split; [rewrite Hrs; reflexivity | exact Hacc].
Defined.

(** X3 at work: Sam is at frame 11 of [[0, 12)] when the animation becomes
    [[0, 4)]. *)
Lemma SetEntitySpriteAnimation_then_UpdateEntity_witness :
  exists e',
    UpdateEntity (bits := example_bits) 9
      (SetEntitySpriteAnimation (with_frame 11 0 (sam 100 16)) 0 4 1 10) 0.016 = Returns e' /\
    u8Frame e' = 0 /\ u8FrameOffsetY e' = 1.
Proof.
  destruct (UpdateEntity (bits := example_bits) 9
              (SetEntitySpriteAnimation (with_frame 11 0 (sam 100 16)) 0 4 1 10) 0.016)
    as [e'| |] eqn:Hret; try (vm_compute in Hret; discriminate).
  exists e'. split; [reflexivity|].
  destruct (SetEntitySpriteAnimation_then_UpdateEntity 9 _ 0 4 1 10 0.016 e' Hret)
    as (_ & Hstart & _ & _ & Hoff & _); try (vm_compute; intuition congruence).
  split; [apply Hstart; vm_compute; discriminate | exact Hoff].
Defined.

(** X4 at work: at 0 fps Sam stays at frame 0 for three half seconds. *)
Lemma frozen_animation_witness :
  exists e',
    UpdateEntity_frames (bits := example_bits) 9
      (SetEntitySpriteAnimation (sam 100 16) 0 4 0 0) [0.5; 0.5; 0.5]%float = Returns e' /\
    u8Frame e' = 0.
Proof.
  destruct (UpdateEntity_frames (bits := example_bits) 9
              (SetEntitySpriteAnimation (sam 100 16) 0 4 0 0) [0.5; 0.5; 0.5]%float)
    as [e'| |] eqn:Hret; try (vm_compute in Hret; discriminate).
  exists e'. split; [reflexivity|].
  apply (frozen_animation 9 _ _ e' Hret); [left; reflexivity | vm_compute; intuition congruence].
Defined.

(** X5 at work: five steps of 0.11 s through the frames [[0, 4)] at 10 fps
    end at frame 1. *)
Lemma animation_cycle_witness :
  exists e',
    UpdateEntity_frames (bits := example_bits) 9
      (SetEntitySpriteAnimation (sam 100 16) 0 4 0 10) [0.11; 0.11; 0.11; 0.11; 0.11]%float
    = Returns e' /\
    u8Frame e' = 1.
Proof.
  destruct (UpdateEntity_frames (bits := example_bits) 9
              (SetEntitySpriteAnimation (sam 100 16) 0 4 0 10)
              [0.11; 0.11; 0.11; 0.11; 0.11]%float)
    as [e'| |] eqn:Hret; try (vm_compute in Hret; discriminate).
  exists e'. split; [reflexivity|].
  refine (proj1 (animation_cycle 9 _ _ e' Hret _ _ _ _ _)).
  - vm_compute. intuition congruence.
  - vm_compute. intuition congruence.
  - vm_compute. intuition congruence.
  - reflexivity.
  - repeat constructor.
Defined.

(** X6 at work: Sam walks for three frames. *)
Lemma velocity_stays_within_limits_witness :
  exists e',
    UpdateEntity_frames (bits := example_bits) 9 (set_flags WALKING (sam 100 16))
      [0.1; 0.1; 0.1]%float = Returns e' /\
    (0 <=? dVelocityX e')%float = true /\ (dVelocityX e' <=? 100)%float = true.
Proof.
  destruct (UpdateEntity_frames (bits := example_bits) 9 (set_flags WALKING (sam 100 16))
              [0.1; 0.1; 0.1]%float)
    as [e'| |] eqn:Hret; try (vm_compute in Hret; discriminate).
  exists e'. split; [reflexivity|].
  apply (velocity_stays_within_limits 9 _ _ e' Hret); try reflexivity.
  repeat constructor.
Defined.

(** X7 at work: Sam, walking at 60, does not get slower. *)
Lemma walking_never_slows_witness :
  exists e',
    UpdateEntity_frames (bits := example_bits) 9
      (with_velocity 60 0 (set_flags WALKING (sam 100 16))) [0.05; 0.05]%float = Returns e' /\
    (60 <=? dVelocityX e')%float = true.
Proof.
  destruct (UpdateEntity_frames (bits := example_bits) 9
              (with_velocity 60 0 (set_flags WALKING (sam 100 16))) [0.05; 0.05]%float)
    as [e'| |] eqn:Hret; try (vm_compute in Hret; discriminate).
  exists e'. split; [reflexivity|].
  refine (proj1 (walking_never_slows 9 _ _ e' Hret _ _ _ _ _ _ _)); try reflexivity.
  repeat constructor.
Defined.

(** X8 at work: Sam stands at x = 100. *)
Lemma idle_entity_stays_witness :
  exists e',
    UpdateEntity_frames (bits := example_bits) 9 (sam 100 16) [0.016; 0.5; 0]%float
    = Returns e' /\
    dVelocityX e' = 0%float /\ dWorldPosX e' = 100%float.
Proof.
  destruct (UpdateEntity_frames (bits := example_bits) 9 (sam 100 16) [0.016; 0.5; 0]%float)
    as [e'| |] eqn:Hret; try (vm_compute in Hret; discriminate).
  exists e'. split; [reflexivity|].
  apply (idle_entity_stays 9 _ _ e' Hret); try reflexivity.
  repeat constructor.
Defined.

(** X9 at work: from y = 17.5 the position ends on a multiple of 8, not
    above 17.5. *)
Lemma grounded_position_aligned_witness :
  exists e',
    UpdateEntity (bits := example_bits) 9 (sam 100 17.5) 0.016 = Returns e' /\
    (dWorldPosY e' <=? 17.5)%float = true.
Proof.
  destruct (UpdateEntity (bits := example_bits) 9 (sam 100 17.5) 0.016)
    as [e'| |] eqn:Hret; try (vm_compute in Hret; discriminate).
  exists e'. split; [reflexivity|].
  exact (proj1 (proj2 (grounded_position_aligned 9 _ 0.016 e' Hret eq_refl))).
Defined.

(** X10 at work: after the first frame Sam's y stays put. *)
Lemma grounded_position_settles_witness :
  exists e1 e2,
    UpdateEntity (bits := example_bits) 9 (sam 100 17.5) 0.016 = Returns e1 /\
    UpdateEntity_frames (bits := example_bits) 9 e1 [0.016; 0.016]%float = Returns e2 /\
    dWorldPosY e2 = dWorldPosY e1.
Proof.
  destruct (UpdateEntity (bits := example_bits) 9 (sam 100 17.5) 0.016)
    as [e1| |] eqn:Hret; try (vm_compute in Hret; discriminate).
  destruct (grounded_position_settles 9 _ 0.016 e1 [0.016; 0.016]%float Hret eq_refl)
    as (e2 & Hframes & _ & Hy).
  exists e1, e2. split; [reflexivity|]. split; assumption.
Defined.

(** X11 at work: on the ground at y = NaN the call is undefined. *)
Lemma UpdateEntity_defined_iff_witness :
  UpdateEntity (bits := example_bits) 9 (sam 100 nan) 0.016 = Undefined.
Proof.
  apply (proj2 (proj2 (UpdateEntity_defined_iff (bits := example_bits) 9 (sam 100 nan) 0.016
                         (le_n 9)))).
  intros e'. vm_compute. discriminate.
Defined.

(** X13 at work: Sam died walking at 50 and is resurrected. *)
Lemma ResurrectEntity_then_UpdateEntity_witness :
  exists e',
    UpdateEntity (bits := example_bits) 9
      (ResurrectEntity (bits := example_bits)
         (set_world_pos 300 80 (with_velocity 50 0 (set_flags 3 (sam 100 16))))) 0.1
    = Returns e' /\
    dVelocityX e' = 30%float /\ dLeft (stBB e') = 100%float.
Proof.
  destruct (UpdateEntity (bits := example_bits) 9
              (ResurrectEntity (bits := example_bits)
                 (set_world_pos 300 80 (with_velocity 50 0 (set_flags 3 (sam 100 16))))) 0.1)
    as [e'| |] eqn:Hret; try (vm_compute in Hret; discriminate).
  exists e'. split; [reflexivity|].
  destruct (ResurrectEntity_then_UpdateEntity 9 _ 0.1 e' Hret) as (_ & _ & Hv & _ & Hbox).
  - vm_compute. intuition congruence.
  - split; [rewrite Hv | rewrite Hbox]; reflexivity.
Defined.

(** X14 at work: Sam at (100, 16) seen from a camera at (60, 0). *)
Lemma DrawEntity_at_integer_positions_witness :
  exists call,
    rc_dst call = {| rect_x := 40; rect_y := 16; rect_w := 32; rect_h := 40 |} /\
    DrawEntity (bits := example_bits) (set_sprite (Some 1%positive) (sam 100 16)) 60 0
      quiet_world
    = Returns (0, set_sprite (Some 1%positive) (sam 100 16), log_blit call quiet_world).
Proof.
  destruct (DrawEntity_at_integer_positions (bits := example_bits)
              (set_sprite (Some 1%positive) (sam 100 16)) 1%positive 100 16 60 0 quiet_world)
    as (call & _ & Hdst & _ & Hdraw);
    try reflexivity; try (vm_compute; intuition congruence).
  exists call. split; [exact Hdst | exact Hdraw].
Defined.

(** X15 at work: Sam has a sprite and no x-coordinate. *)
Lemma DrawEntity_undefined_off_the_number_line_witness :
  DrawEntity (bits := example_bits) (set_sprite (Some 1%positive) (sam nan 16)) 60 0
    quiet_world
  = Undefined.
Proof.
  exact (DrawEntity_undefined_off_the_number_line (bits := example_bits)
           (set_sprite (Some 1%positive) (sam nan 16)) 60 0 quiet_world (or_introl eq_refl)).
Defined.

(** X16 at work: Sam walks across the right border at 100 pixels a second. *)
Lemma position_stays_within_borders_witness :
  exists e',
    UpdateEntity_frames (bits := example_bits) 9
      (with_velocity 100 0 (set_flags WALKING (sam 960 16))) [0.05; 0.05; 0.05]%float
    = Returns e' /\
    (-32 <=? dWorldPosX e')%float = true /\ (dWorldPosX e' <=? 968)%float = true.
Proof.
  destruct (UpdateEntity_frames (bits := example_bits) 9
              (with_velocity 100 0 (set_flags WALKING (sam 960 16))) [0.05; 0.05; 0.05]%float)
    as [e'| |] eqn:Hret; try (vm_compute in Hret; discriminate).
  exists e'. split; [reflexivity|].
  apply (position_stays_within_borders 9 _ _ e' Hret); try reflexivity;
    try (vm_compute; intuition congruence).
  repeat constructor.
Defined.

(** X19 at work: Sam falls from y = 16. *)
Lemma falling_never_rises_witness :
  exists e',
    UpdateEntity (bits := example_bits) 9 (set_flags AIRBORNE (sam 100 16)) 0.016 = Returns e' /\
    (16 <=? dWorldPosY e')%float = true.
Proof.
  destruct (UpdateEntity (bits := example_bits) 9 (set_flags AIRBORNE (sam 100 16)) 0.016)
    as [e'| |] eqn:Hret; try (vm_compute in Hret; discriminate).
  exists e'. split; [reflexivity|].
  refine (proj2 (proj2 (falling_never_rises 9 _ 0.016 e' Hret _ _ _ _ _ _ _ _ _)));
    reflexivity.
Defined.

(** X20 at work: Sam walks right from x = 100. *)
Lemma facing_right_never_moves_left_witness :
  exists e',
    UpdateEntity (bits := example_bits) 9
      (with_velocity 60 0 (set_flags WALKING (sam 100 16))) 0.05 = Returns e' /\
    (dWorldPosX e' = Double.of_int (-32) \/ (100 <=? dWorldPosX e')%float = true).
Proof.
  destruct (UpdateEntity (bits := example_bits) 9
              (with_velocity 60 0 (set_flags WALKING (sam 100 16))) 0.05)
    as [e'| |] eqn:Hret; try (vm_compute in Hret; discriminate).
  exists e'. split; [reflexivity|].
  apply (facing_right_never_moves_left 9 _ 0.05 e' Hret); try reflexivity.
  vm_compute. intuition congruence.
Defined.

(** X17 and X18 at work: Sam, created, told to walk and updated, holds
    values of the C types, and its frame index is within [[0, 12)] after
    the next update. *)
Lemma reachable_sam : reachable (bits := example_bits) (set_flags WALKING (sam 100 16)).
Proof.
  apply reach_flags; [|vm_compute; intuition congruence].
  apply (reach_init 32 40 100 16 1000); try reflexivity; vm_compute; intuition congruence.
Qed.

Lemma reachable_frame_within_range_witness :
  exists e',
    UpdateEntity (bits := example_bits) 9 (set_flags WALKING (sam 100 16)) 0.11 = Returns e' /\
    u8FrameStart e' <= u8Frame e' < u8FrameEnd e'.
Proof.
  destruct (UpdateEntity (bits := example_bits) 9 (set_flags WALKING (sam 100 16)) 0.11)
    as [e'| |] eqn:Hret; try (vm_compute in Hret; discriminate).
  exists e'. split; [reflexivity|].
  exact (reachable_frame_within_range _ 9 0.11 e' reachable_sam Hret).
Defined.

Lemma reachable_wf_witness : wf_entity (set_flags WALKING (sam 100 16)).
Proof. exact (reachable_wf (bits := example_bits) _ reachable_sam). Defined.
